(** * A runtime-checked ownership model: [Unique], [Borrowed], [BorrowedMut]

    Shallow embedding of [ownership.h].  The three class templates are
    embedded as records of their data members; every member function is a
    computation in a state-and-exception monad over a store of live objects,
    with the object it is called on passed as its address [this].

    What C++ leaves undefined (signed overflow of the [int] counter, a null
    or dangling pointer dereferenced, [delete] of a pointer that is not live)
    is a result of its own, [Undefined], and an exception that leaves a
    [noexcept] function is [Terminate].

    The static checker of [BorrowCheckPlugin.cpp] is embedded in the same
    monad, over the borrow states it keeps and the reports it makes, and
    over a syntax tree that holds of each node what the visitor asks of
    it. *)

From Stdlib Require Import ZArith List Bool Lia.
From stdpp Require Import base option gmap sets list strings.

Local Open Scope Z_scope.

(** ** Error codes: [BorrowError::ErrorCode] *)

Inductive ErrorCode : Set :=
| DestroyWithActiveBorrows
| MoveWithActiveBorrows
| MoveIntoWithActiveBorrows
| MoveFromWithActiveBorrows
| MutableBorrowOfImmutablyBorrowed
| MutableBorrowOfMutablyBorrowed
| ImmutableBorrowOfMutablyBorrowed
| AccessWhileBorrowed
| AccessWhileMutablyBorrowed
| ReleaseNonExistentImmutableBorrow
| ReleaseNonExistentMutableBorrow.

#[global] Instance ErrorCode_eq_dec : EqDecision ErrorCode.
Proof. solve_decision. Defined.

(** ** Results and the monad of member functions *)

Inductive Outcome (A : Type) : Type :=
| Ok (a : A)              (* normal return *)
| Throw (e : ErrorCode)   (* a [BorrowError] propagates to the caller *)
| Terminate               (* an exception met a [noexcept] boundary *)
| Undefined.              (* no behaviour is defined by the language *)

Arguments Ok {A} a.
Arguments Throw {A} e.
Arguments Terminate {A}.
Arguments Undefined {A}.

(** A computation runs on a state and gives an outcome together with the
    state at the moment it returned or threw: what was written before a
    [throw] stays written. *)
Definition M (S A : Type) : Type := S -> Outcome A * S.

Definition ret {S A} (a : A) : M S A := fun s => (Ok a, s).

Definition bind {S A B} (m : M S A) (k : A -> M S B) : M S B :=
  fun s =>
    match m s with
    | (Ok a, s') => k a s'
    | (Throw e, s') => (Throw e, s')
    | (Terminate, s') => (Terminate, s')
    | (Undefined, s') => (Undefined, s')
    end.

Definition throw {S A} (e : ErrorCode) : M S A := fun s => (Throw e, s).
Definition undefined {S A} : M S A := fun s => (Undefined, s).
Definition modify {S} (f : S -> S) : M S unit := fun s => (Ok tt, f s).

(** A function declared [noexcept] (destructors are, unless they say
    otherwise): an exception that would leave it calls [std::terminate]. *)
Definition noexcept {S A} (m : M S A) : M S A :=
  fun s =>
    match m s with
    | (Throw _, s') => (Terminate, s')
    | r => r
    end.

Declare Scope cxx_scope.
Delimit Scope cxx_scope with cxx.
Notation "x ← m ; k" := (bind m (fun x => k))
  (at level 20, m at level 100, k at level 200, only parsing) : cxx_scope.
Notation "m ;; k" := (bind m (fun _ => k))
  (at level 100, k at level 200, only parsing, right associativity) : cxx_scope.

(** ** The [int] counter *)

(** [int] has 32 bits. *)
Definition INT_MAX : Z := 2147483647.
Definition INT_MIN : Z := -2147483648.

(** [x++] and [x--] on an [int]: defined only while the result fits. *)
Definition int_incr (x : Z) : option Z :=
  if x <? INT_MAX then Some (x + 1) else None.
Definition int_decr (x : Z) : option Z :=
  if INT_MIN <? x then Some (x - 1) else None.

(** ** Objects *)

(** Addresses of objects and of resources; a pointer that may be [nullptr]
    is an [option]. *)
Abbreviation addr := positive (only parsing).
Abbreviation ptr := positive (only parsing).

Module Unique.
Record t : Set := mk {
  data : option ptr;           (* T *data *)
  immutable_borrows : Z;       (* mutable int immutable_borrows = 0 *)
  mutable_borrowed : bool      (* mutable bool mutable_borrowed = false *)
}.

(** Assignment to one member. *)
Definition set_data (p : option ptr) (u : t) : t :=
  mk p (immutable_borrows u) (mutable_borrowed u).
Definition set_immutable_borrows (n : Z) (u : t) : t :=
  mk (data u) n (mutable_borrowed u).
Definition set_mutable_borrowed (b : bool) (u : t) : t :=
  mk (data u) (immutable_borrows u) b.

#[global] Instance eq_dec : EqDecision t.
Proof. solve_decision. Defined.
End Unique.

Module Borrowed.
Record t : Set := mk {
  owner_ : option addr;        (* const Unique<T> *owner_ *)
  data : option ptr            (* const T *data *)
}.
#[global] Instance eq_dec : EqDecision t.
Proof. solve_decision. Defined.
End Borrowed.

Module BorrowedMut.
Record t : Set := mk {
  owner_ : option addr;        (* const Unique<T> *owner_ *)
  data : option ptr            (* T *data *)
}.
#[global] Instance eq_dec : EqDecision t.
Proof. solve_decision. Defined.
End BorrowedMut.

(** A successful change of an owner's borrow state.  The history is a ghost
    variable: no member function reads it. *)
Inductive Event : Set :=
| AcquiredImmutable (o : addr)
| ReleasedImmutable (o : addr)
| AcquiredMutable (o : addr)
| ReleasedMutable (o : addr).

#[global] Instance Event_eq_dec : EqDecision Event.
Proof. solve_decision. Defined.

(** ** The store *)

Record World : Type := mkWorld {
  uniques : gmap positive Unique.t;            (* live [Unique<T>] objects *)
  borroweds : gmap positive Borrowed.t;        (* live [Borrowed<T>] objects *)
  borrowedMuts : gmap positive BorrowedMut.t;  (* live [BorrowedMut<T>] objects *)
  heap : gset positive;                        (* resources made by [new], not yet deleted *)
  history : list Event                         (* ghost *)
}.

Definition empty_world : World := mkWorld ∅ ∅ ∅ ∅ [].

Definition upd_uniques (f : gmap positive Unique.t -> gmap positive Unique.t)
    (w : World) : World :=
  mkWorld (f (uniques w)) (borroweds w) (borrowedMuts w) (heap w) (history w).
Definition upd_borroweds (f : gmap positive Borrowed.t -> gmap positive Borrowed.t)
    (w : World) : World :=
  mkWorld (uniques w) (f (borroweds w)) (borrowedMuts w) (heap w) (history w).
Definition upd_borrowedMuts
    (f : gmap positive BorrowedMut.t -> gmap positive BorrowedMut.t)
    (w : World) : World :=
  mkWorld (uniques w) (borroweds w) (f (borrowedMuts w)) (heap w) (history w).
Definition upd_heap (f : gset positive -> gset positive) (w : World) : World :=
  mkWorld (uniques w) (borroweds w) (borrowedMuts w) (f (heap w)) (history w).
Definition upd_history (f : list Event -> list Event) (w : World) : World :=
  mkWorld (uniques w) (borroweds w) (borrowedMuts w) (heap w) (f (history w)).

Section Memory.
Local Open Scope cxx_scope.

(** Going through a pointer to an object: [nullptr], and (in [load_])
    a pointer to an object that is not live, have no defined behaviour. *)
Definition deref (p : option addr) : M World addr :=
  match p with
  | Some a => ret a
  | None => undefined
  end.

Definition load_unique (this : addr) : M World Unique.t :=
  fun w => match uniques w !! this with
           | Some u => (Ok u, w)
           | None => (Undefined, w)
           end.
Definition store_unique (this : addr) (u : Unique.t) : M World unit :=
  modify (upd_uniques <[this := u]>).

Definition load_borrowed (this : addr) : M World Borrowed.t :=
  fun w => match borroweds w !! this with
           | Some b => (Ok b, w)
           | None => (Undefined, w)
           end.
Definition store_borrowed (this : addr) (b : Borrowed.t) : M World unit :=
  modify (upd_borroweds <[this := b]>).

Definition load_borrowedMut (this : addr) : M World BorrowedMut.t :=
  fun w => match borrowedMuts w !! this with
           | Some b => (Ok b, w)
           | None => (Undefined, w)
           end.
Definition store_borrowedMut (this : addr) (b : BorrowedMut.t) : M World unit :=
  modify (upd_borrowedMuts <[this := b]>).

(** [new T(...)], at an address the caller names: it must not be that of
    a live resource. *)
Definition new_ (p : ptr) : M World unit :=
  fun w => if decide (p ∈ heap w) then (Undefined, w)
           else (Ok tt, upd_heap (fun h => {[p]} ∪ h) w).

(** [delete p]: nothing for [nullptr]; the pointer must be live. *)
Definition delete_ (p : option ptr) : M World unit :=
  match p with
  | None => ret tt
  | Some q =>
      fun w => if decide (q ∈ heap w)
               then (Ok tt, upd_heap (fun h => h ∖ {[q]}) w)
               else (Undefined, w)
  end.

Definition emit (e : Event) : M World unit :=
  modify (upd_history (fun h => h ++ [e])).
End Memory.

(** ** Data members, read and written through [this] *)

Section Members.
Local Open Scope cxx_scope.

Definition get_data (this : addr) : M World (option ptr) :=
  u ← load_unique this; ret (Unique.data u).
Definition set_data (this : addr) (p : option ptr) : M World unit :=
  u ← load_unique this; store_unique this (Unique.set_data p u).

Definition get_immutable_borrows (this : addr) : M World Z :=
  u ← load_unique this; ret (Unique.immutable_borrows u).
Definition set_immutable_borrows (this : addr) (n : Z) : M World unit :=
  u ← load_unique this; store_unique this (Unique.set_immutable_borrows n u).

Definition get_mutable_borrowed (this : addr) : M World bool :=
  u ← load_unique this; ret (Unique.mutable_borrowed u).
Definition set_mutable_borrowed (this : addr) (b : bool) : M World unit :=
  u ← load_unique this; store_unique this (Unique.set_mutable_borrowed b u).

(** Storage for a new object: the model constructs objects only where no
    live object of the class is; reusing the storage of a live one is not
    modelled. *)
Definition storage_unique (this : addr) : M World unit :=
  fun w => match uniques w !! this with
           | None => (Ok tt, w)
           | Some _ => (Undefined, w)
           end.
Definition storage_borrowed (this : addr) : M World unit :=
  fun w => match borroweds w !! this with
           | None => (Ok tt, w)
           | Some _ => (Undefined, w)
           end.
Definition storage_borrowedMut (this : addr) : M World unit :=
  fun w => match borrowedMuts w !! this with
           | None => (Ok tt, w)
           | Some _ => (Undefined, w)
           end.

(** The end of an object's lifetime. *)
Definition end_unique (this : addr) : M World unit :=
  modify (upd_uniques (delete this)).
Definition end_borrowed (this : addr) : M World unit :=
  modify (upd_borroweds (delete this)).
Definition end_borrowedMut (this : addr) : M World unit :=
  modify (upd_borrowedMuts (delete this)).

(** [*p] for a resource pointer: the resource must be live. *)
Definition deref_resource (p : option ptr) : M World ptr :=
  match p with
  | None => undefined
  | Some q => fun w => if decide (q ∈ heap w) then (Ok q, w) else (Undefined, w)
  end.

End Members.

(** ** [Unique<T>] *)

Section UniqueMethods.
Local Open Scope cxx_scope.

(** [immutable_borrows > 0 || mutable_borrowed] *)
Definition is_borrowed (this : addr) : M World bool :=
  n ← get_immutable_borrows this;
  b ← get_mutable_borrowed this;
  ret ((0 <? n) || b).

(** [Unique(T *ptr) : data(ptr) {}] *)
Definition Unique_ctor (this : addr) (p : option ptr) : M World unit :=
  storage_unique this ;;
  store_unique this (Unique.mk p 0 false).

(** [~Unique() noexcept(false)].  The lifetime of the object ends with the
    destructor call, whether the body returns or throws: at the end of the
    scope or in a delete expression the storage is released either way.
    When the check throws the body has written no member and has not deleted
    the resource, but the object is gone from the store, and a handle that
    still names it is left dangling.  When the check passes the resource is
    deleted first. *)
Definition Unique_dtor (this : addr) : M World unit :=
  c ← is_borrowed this;
  if c then
    end_unique this ;;
    throw DestroyWithActiveBorrows
  else
    d ← get_data this;
    delete_ d ;;
    end_unique this.

(** [Unique(Unique &&other) noexcept(false)].  The members of the object
    under construction are initialised from [other] and then checked; a
    throw abandons the object. *)
Definition Unique_move_ctor (this other : addr) : M World unit :=
  storage_unique this ;;
  d ← get_data other;
  n ← get_immutable_borrows other;
  b ← get_mutable_borrowed other;
  if (0 <? n) || b then throw MoveWithActiveBorrows
  else
    set_data other None ;;
    set_immutable_borrows other 0 ;;
    set_mutable_borrowed other false ;;
    store_unique this (Unique.mk d n b).

(** [Unique &operator=(Unique &&other) noexcept(false)] *)
Definition Unique_move_assign (this other : addr) : M World unit :=
  if decide (this ≠ other) then
    c ← is_borrowed this;
    if c then throw MoveIntoWithActiveBorrows
    else
      c' ← is_borrowed other;
      if c' then throw MoveFromWithActiveBorrows
      else
        d ← get_data this;
        delete_ d ;;
        d' ← get_data other;
        set_data this d' ;;
        set_data other None ;;
        n' ← get_immutable_borrows other;
        set_immutable_borrows this n' ;;
        b' ← get_mutable_borrowed other;
        set_mutable_borrowed this b' ;;
        set_immutable_borrows other 0 ;;
        set_mutable_borrowed other false
  else ret tt.

(** [void acquireImmutableBorrow() const] *)
Definition acquireImmutableBorrow (this : addr) : M World unit :=
  b ← get_mutable_borrowed this;
  if b then throw MutableBorrowOfMutablyBorrowed
  else
    n ← get_immutable_borrows this;
    match int_incr n with
    | Some n' => set_immutable_borrows this n' ;; emit (AcquiredImmutable this)
    | None => undefined
    end.

(** [void releaseBorrowImmutable() const] *)
Definition releaseBorrowImmutable (this : addr) : M World unit :=
  n ← get_immutable_borrows this;
  if n <=? 0 then throw ReleaseNonExistentImmutableBorrow
  else
    match int_decr n with
    | Some n' => set_immutable_borrows this n' ;; emit (ReleasedImmutable this)
    | None => undefined
    end.

(** [void acquireMutableBorrow() const] *)
Definition acquireMutableBorrow (this : addr) : M World unit :=
  c ← is_borrowed this;
  if c then throw MutableBorrowOfImmutablyBorrowed
  else set_mutable_borrowed this true ;; emit (AcquiredMutable this).

(** [void releaseMutableBorrow() const] *)
Definition releaseMutableBorrow (this : addr) : M World unit :=
  b ← get_mutable_borrowed this;
  if negb b then throw ReleaseNonExistentMutableBorrow
  else set_mutable_borrowed this false ;; emit (ReleasedMutable this).

(** [T *operator->()] and [T *get()] *)
Definition Unique_arrow (this : addr) : M World (option ptr) :=
  c ← is_borrowed this;
  if c then throw AccessWhileBorrowed else get_data this.
Definition Unique_get (this : addr) : M World (option ptr) :=
  c ← is_borrowed this;
  if c then throw AccessWhileBorrowed else get_data this.

(** [const T *operator->() const] and [const T *get() const] *)
Definition Unique_arrow_const (this : addr) : M World (option ptr) :=
  b ← get_mutable_borrowed this;
  if b then throw AccessWhileMutablyBorrowed else get_data this.
Definition Unique_get_const (this : addr) : M World (option ptr) :=
  b ← get_mutable_borrowed this;
  if b then throw AccessWhileMutablyBorrowed else get_data this.

(** [T &operator*()] *)
Definition Unique_star (this : addr) : M World ptr :=
  c ← is_borrowed this;
  if c then throw AccessWhileBorrowed
  else d ← get_data this; deref_resource d.

(** [const T &operator*() const] *)
Definition Unique_star_const (this : addr) : M World ptr :=
  b ← get_mutable_borrowed this;
  if b then throw AccessWhileMutablyBorrowed
  else d ← get_data this; deref_resource d.

(** [explicit operator bool() const] *)
Definition Unique_bool (this : addr) : M World bool :=
  d ← get_data this; ret (bool_decide (d ≠ None)).

End UniqueMethods.

(** ** [Borrowed<T>] *)

Section BorrowedMethods.
Local Open Scope cxx_scope.

Definition Borrowed_get_owner_ (this : addr) : M World (option addr) :=
  b ← load_borrowed this; ret (Borrowed.owner_ b).
Definition Borrowed_set_owner_ (this : addr) (o : option addr) : M World unit :=
  b ← load_borrowed this; store_borrowed this (Borrowed.mk o (Borrowed.data b)).
Definition Borrowed_get_data (this : addr) : M World (option ptr) :=
  b ← load_borrowed this; ret (Borrowed.data b).
Definition Borrowed_set_data (this : addr) (p : option ptr) : M World unit :=
  b ← load_borrowed this; store_borrowed this (Borrowed.mk (Borrowed.owner_ b) p).

(** [explicit Borrowed(const Unique<T> *owner, const T *ptr)]: the body
    asks the owner; when that throws, no object has been made. *)
Definition Borrowed_ctor (this : addr) (owner : option addr) (p : option ptr)
    : M World unit :=
  storage_borrowed this ;;
  o ← deref owner;
  acquireImmutableBorrow o ;;
  store_borrowed this (Borrowed.mk owner p).

(** [Borrowed(const Borrowed &other)] *)
Definition Borrowed_copy_ctor (this other : addr) : M World unit :=
  storage_borrowed this ;;
  owner ← Borrowed_get_owner_ other;
  p ← Borrowed_get_data other;
  o ← deref owner;
  acquireImmutableBorrow o ;;
  store_borrowed this (Borrowed.mk owner p).

(** [Borrowed &operator=(const Borrowed &other)] *)
Definition Borrowed_copy_assign (this other : addr) : M World unit :=
  if decide (this ≠ other) then
    owner ← Borrowed_get_owner_ this;
    o ← deref owner;
    releaseBorrowImmutable o ;;
    owner' ← Borrowed_get_owner_ other;
    Borrowed_set_owner_ this owner' ;;
    p' ← Borrowed_get_data other;
    Borrowed_set_data this p' ;;
    owner'' ← Borrowed_get_owner_ this;
    o'' ← deref owner'';
    acquireImmutableBorrow o''
  else ret tt.

(** [~Borrowed()]: implicitly [noexcept]. *)
Definition Borrowed_dtor (this : addr) : M World unit :=
  noexcept (
    owner ← Borrowed_get_owner_ this;
    o ← deref owner;
    releaseBorrowImmutable o) ;;
  end_borrowed this.

(** [const T *operator->() const] and [const T *get() const] *)
Definition Borrowed_arrow (this : addr) : M World (option ptr) :=
  Borrowed_get_data this.
Definition Borrowed_get (this : addr) : M World (option ptr) :=
  Borrowed_get_data this.

(** [const T &operator*() const] *)
Definition Borrowed_star (this : addr) : M World ptr :=
  d ← Borrowed_get_data this; deref_resource d.

(** [explicit operator bool() const] *)
Definition Borrowed_bool (this : addr) : M World bool :=
  d ← Borrowed_get_data this; ret (bool_decide (d ≠ None)).

(** [Borrowed<T> Unique<T>::borrow() const]: the handle is built in the
    caller's storage [h]. *)
Definition borrow (this h : addr) : M World unit :=
  d ← get_data this;
  Borrowed_ctor h (Some this) d.

End BorrowedMethods.

(** ** [BorrowedMut<T>] *)

Section BorrowedMutMethods.
Local Open Scope cxx_scope.

Definition BorrowedMut_get_owner_ (this : addr) : M World (option addr) :=
  b ← load_borrowedMut this; ret (BorrowedMut.owner_ b).
Definition BorrowedMut_set_owner_ (this : addr) (o : option addr) : M World unit :=
  b ← load_borrowedMut this;
  store_borrowedMut this (BorrowedMut.mk o (BorrowedMut.data b)).
Definition BorrowedMut_get_data (this : addr) : M World (option ptr) :=
  b ← load_borrowedMut this; ret (BorrowedMut.data b).
Definition BorrowedMut_set_data (this : addr) (p : option ptr) : M World unit :=
  b ← load_borrowedMut this;
  store_borrowedMut this (BorrowedMut.mk (BorrowedMut.owner_ b) p).

(** [explicit BorrowedMut(const Unique<T> *owner, T *ptr)] *)
Definition BorrowedMut_ctor (this : addr) (owner : option addr) (p : option ptr)
    : M World unit :=
  storage_borrowedMut this ;;
  o ← deref owner;
  acquireMutableBorrow o ;;
  store_borrowedMut this (BorrowedMut.mk owner p).

(** [BorrowedMut(BorrowedMut &&other) noexcept] *)
Definition BorrowedMut_move_ctor (this other : addr) : M World unit :=
  noexcept (
    storage_borrowedMut this ;;
    owner ← BorrowedMut_get_owner_ other;
    p ← BorrowedMut_get_data other;
    store_borrowedMut this (BorrowedMut.mk owner p) ;;
    BorrowedMut_set_owner_ other None ;;
    BorrowedMut_set_data other None).

(** [if (owner_) owner_->releaseMutableBorrow();] *)
Definition BorrowedMut_release (this : addr) : M World unit :=
  owner ← BorrowedMut_get_owner_ this;
  match owner with
  | Some o => releaseMutableBorrow o
  | None => ret tt
  end.

(** [BorrowedMut &operator=(BorrowedMut &&other) noexcept] *)
Definition BorrowedMut_move_assign (this other : addr) : M World unit :=
  noexcept (
    if decide (this ≠ other) then
      BorrowedMut_release this ;;
      owner' ← BorrowedMut_get_owner_ other;
      BorrowedMut_set_owner_ this owner' ;;
      p' ← BorrowedMut_get_data other;
      BorrowedMut_set_data this p' ;;
      BorrowedMut_set_owner_ other None ;;
      BorrowedMut_set_data other None
    else ret tt).

(** [~BorrowedMut()]: implicitly [noexcept]. *)
Definition BorrowedMut_dtor (this : addr) : M World unit :=
  noexcept (BorrowedMut_release this) ;;
  end_borrowedMut this.

(** [T *operator->()], [T *get()] and their [const] overloads *)
Definition BorrowedMut_arrow (this : addr) : M World (option ptr) :=
  BorrowedMut_get_data this.
Definition BorrowedMut_get (this : addr) : M World (option ptr) :=
  BorrowedMut_get_data this.

(** [T &operator*()] and its [const] overload *)
Definition BorrowedMut_star (this : addr) : M World ptr :=
  d ← BorrowedMut_get_data this; deref_resource d.

(** [explicit operator bool() const] *)
Definition BorrowedMut_bool (this : addr) : M World bool :=
  d ← BorrowedMut_get_data this; ret (bool_decide (d ≠ None)).

(** [BorrowedMut<T> Unique<T>::borrow_mut()] *)
Definition borrow_mut (this h : addr) : M World unit :=
  d ← get_data this;
  BorrowedMut_ctor h (Some this) d.

End BorrowedMutMethods.

(** ** Client programs *)

(** One call of the public interface, with the addresses it is made on. *)
Inductive Call : Set :=
| CNew (p : ptr)
| CUnique (this : addr) (p : option ptr)
| CUniqueDtor (this : addr)
| CUniqueMove (this other : addr)
| CUniqueMoveAssign (this other : addr)
| CAcquireImmutableBorrow (this : addr)
| CReleaseBorrowImmutable (this : addr)
| CAcquireMutableBorrow (this : addr)
| CReleaseMutableBorrow (this : addr)
| CBorrow (this h : addr)
| CBorrowMut (this h : addr)
| CArrow (this : addr)
| CArrowConst (this : addr)
| CStar (this : addr)
| CStarConst (this : addr)
| CGet (this : addr)
| CGetConst (this : addr)
| CBool (this : addr)
| CBorrowed (this : addr) (owner : option addr) (p : option ptr)
| CBorrowedCopy (this other : addr)
| CBorrowedCopyAssign (this other : addr)
| CBorrowedDtor (this : addr)
| CBorrowedMut (this : addr) (owner : option addr) (p : option ptr)
| CBorrowedMutMove (this other : addr)
| CBorrowedMutMoveAssign (this other : addr)
| CBorrowedMutDtor (this : addr).

(** A call made for its effect: the value it returns is dropped. *)
Definition discard {S A} (m : M S A) : M S unit := bind m (fun _ => ret tt).

Definition exec (c : Call) : M World unit :=
  match c with
  | CNew p => new_ p
  | CUnique this p => Unique_ctor this p
  | CUniqueDtor this => Unique_dtor this
  | CUniqueMove this other => Unique_move_ctor this other
  | CUniqueMoveAssign this other => Unique_move_assign this other
  | CAcquireImmutableBorrow this => acquireImmutableBorrow this
  | CReleaseBorrowImmutable this => releaseBorrowImmutable this
  | CAcquireMutableBorrow this => acquireMutableBorrow this
  | CReleaseMutableBorrow this => releaseMutableBorrow this
  | CBorrow this h => borrow this h
  | CBorrowMut this h => borrow_mut this h
  | CArrow this => discard (Unique_arrow this)
  | CArrowConst this => discard (Unique_arrow_const this)
  | CStar this => discard (Unique_star this)
  | CStarConst this => discard (Unique_star_const this)
  | CGet this => discard (Unique_get this)
  | CGetConst this => discard (Unique_get_const this)
  | CBool this => discard (Unique_bool this)
  | CBorrowed this owner p => Borrowed_ctor this owner p
  | CBorrowedCopy this other => Borrowed_copy_ctor this other
  | CBorrowedCopyAssign this other => Borrowed_copy_assign this other
  | CBorrowedDtor this => Borrowed_dtor this
  | CBorrowedMut this owner p => BorrowedMut_ctor this owner p
  | CBorrowedMutMove this other => BorrowedMut_move_ctor this other
  | CBorrowedMutMoveAssign this other => BorrowedMut_move_assign this other
  | CBorrowedMutDtor this => BorrowedMut_dtor this
  end.

(** A client runs calls in program order.  It catches a [BorrowError] and
    goes on from the state the throw left; after [Terminate] or [Undefined]
    there is no further state.  [run] lists the states after each call. *)
Fixpoint run (cs : list Call) (w : World) : list World :=
  match cs with
  | [] => []
  | c :: cs' =>
      match exec c w with
      | (Ok _, w') | (Throw _, w') => w' :: run cs' w'
      | (Terminate, _) | (Undefined, _) => []
      end
  end.

(** The same, keeping the outcome of every call. *)
Fixpoint outcomes (cs : list Call) (w : World) : list (Outcome unit) :=
  match cs with
  | [] => []
  | c :: cs' =>
      match exec c w with
      | (Ok _, w') => Ok tt :: outcomes cs' w'
      | (Throw e, w') => Throw e :: outcomes cs' w'
      | (r, _) => [r]
      end
  end.

(** ** Properties *)

(** The borrow state of an owner never has the exclusive flag together
    with a positive shared count, and the count is never negative. *)
Definition borrow_inv (u : Unique.t) : Prop :=
  ¬ (Unique.mutable_borrowed u = true ∧ 0 < Unique.immutable_borrows u)
  ∧ 0 <= Unique.immutable_borrows u.

(** A property of owners that holds of every live owner. *)
Definition all_owners (P : Unique.t → Prop) (w : World) : Prop :=
  ∀ a u, uniques w !! a = Some u → P u.

Definition world_inv (w : World) : Prop := all_owners borrow_inv w.

(** [immutable_borrows > 0 || mutable_borrowed], on the members. *)
Definition borrowed (u : Unique.t) : bool :=
  (0 <? Unique.immutable_borrows u) || Unique.mutable_borrowed u.

(** An owner without resource and without borrows: what a transfer leaves
    behind. *)
Definition empty_unique : Unique.t := Unique.mk None 0 false.

(** A computation throws, with a given code or with some code. *)
Definition throws {A} (m : M World A) (w : World) (e : ErrorCode) : Prop :=
  ∃ w', m w = (Throw e, w').
Definition fails {A} (m : M World A) (w : World) : Prop :=
  ∃ e, throws m w e.

(** A pointer that [delete] accepts. *)
Definition deletable (p : option ptr) (w : World) : Prop :=
  match p with
  | None => True
  | Some q => q ∈ heap w
  end.

(** The heap after [delete p]. *)
Definition freed (p : option ptr) (h : gset positive) : gset positive :=
  match p with
  | None => h
  | Some q => h ∖ {[q]}
  end.

(** A computation that leaves every owner as it was, and one that keeps a
    property of all owners. *)
Definition frame {A} (m : M World A) : Prop :=
  ∀ w r w', m w = (r, w') → uniques w' = uniques w.

Definition keeps (P : Unique.t → Prop) {A} (m : M World A) : Prop :=
  ∀ w r w', all_owners P w → m w = (r, w') → all_owners P w'.

(** A state a client can be in: the empty store, or what some sequence of
    calls has made of it. *)
Definition reachable (w : World) : Prop :=
  ∃ cs, w ∈ empty_world :: run cs empty_world.





(** An owner with a nonzero borrow state. *)
Definition nonzero_borrow_state (u : Unique.t) : Prop :=
  Unique.immutable_borrows u ≠ 0 ∨ Unique.mutable_borrowed u = true.

(** Transfer by move assignment as the specification words it: the source
    kind whenever the source is borrowed, the destination kind whenever the
    destination is, and on success the resource at the destination with a
    zeroed borrow state and the source empty.  It is read in its favour:
    for two distinct live owners whose counts are not negative, with the
    destination's old resource live. *)
Definition relocate_as_stated : Prop :=
  ∀ w this other u v,
    this ≠ other →
    uniques w !! this = Some u → uniques w !! other = Some v →
    0 <= Unique.immutable_borrows u → 0 <= Unique.immutable_borrows v →
    deletable (Unique.data u) w →
    (nonzero_borrow_state v →
       throws (Unique_move_assign this other) w MoveFromWithActiveBorrows)
    ∧ (nonzero_borrow_state u →
       throws (Unique_move_assign this other) w MoveIntoWithActiveBorrows)
    ∧ (∀ w', Unique_move_assign this other w = (Ok tt, w') →
         uniques w' !! this = Some (Unique.mk (Unique.data v) 0 false)
         ∧ uniques w' !! other = Some empty_unique).

(** Two owners, at 1 and 2, of the resources 5 and 6, each with one shared
    borrow, held by the handles at 11 and 12. *)
Definition both_borrowed : World :=
  mkWorld
    (<[1%positive := Unique.mk (Some 5%positive) 1 false]>
       (<[2%positive := Unique.mk (Some 6%positive) 1 false]> ∅))
    (<[11%positive := Borrowed.mk (Some 1%positive) (Some 5%positive)]>
       (<[12%positive := Borrowed.mk (Some 2%positive) (Some 6%positive)]> ∅))
    ∅
    ({[5%positive]} ∪ {[6%positive]})
    [AcquiredImmutable 1; AcquiredImmutable 2].

(** The calls that make it. *)
Definition both_borrowed_calls : list Call :=
  [CNew 5; CNew 6; CUnique 1 (Some 5%positive); CUnique 2 (Some 6%positive);
   CBorrow 1 11; CBorrow 2 12].

(** The back-reference of an exclusive handle is live: it is null, or it
    points to a live owner whose exclusive flag is set (the acquisition the
    handle stands for has not been released). *)
Definition holds_exclusive (w : World) (o : option addr) : bool :=
  match o with
  | None => true
  | Some a =>
      match uniques w !! a with
      | Some u => Unique.mutable_borrowed u
      | None => false
      end
  end.

(** The release of the owner behind a back-reference, as an event and as a
    change of the owners. *)
Definition released (o : option addr) : list Event :=
  match o with
  | None => []
  | Some a => [ReleasedMutable a]
  end.

Definition clear_flag (o : option addr) (U : gmap positive Unique.t)
    : gmap positive Unique.t :=
  match o with
  | None => U
  | Some a => alter (Unique.set_mutable_borrowed false) a U
  end.

(** Two owners, at 1 and 2, of the resources 5 and 6, without borrows; and
    the store after [owner1 = std::move(owner2)]. *)
Definition two_owners : World :=
  mkWorld
    (<[1%positive := Unique.mk (Some 5%positive) 0 false]>
       (<[2%positive := Unique.mk (Some 6%positive) 0 false]> ∅))
    ∅ ∅ ({[5%positive]} ∪ {[6%positive]}) [].

Definition source_emptied : World :=
  mkWorld
    (<[1%positive := Unique.mk (Some 6%positive) 0 false]>
       (<[2%positive := Unique.mk None 0 false]> ∅))
    ∅ ∅ {[6%positive]} [].

(** The same two owners, each with an exclusive borrow, held by the handles
    at 21 and 22. *)
Definition both_exclusive : World :=
  mkWorld
    (<[1%positive := Unique.mk (Some 5%positive) 0 true]>
       (<[2%positive := Unique.mk (Some 6%positive) 0 true]> ∅))
    ∅
    (<[21%positive := BorrowedMut.mk (Some 1%positive) (Some 5%positive)]>
       (<[22%positive := BorrowedMut.mk (Some 2%positive) (Some 6%positive)]> ∅))
    ({[5%positive]} ∪ {[6%positive]})
    [AcquiredMutable 1; AcquiredMutable 2].

(** [v.push_back(owner1.borrow())] into the slot of a vector: the temporary
    (at 100) is copied into the slot and destroyed. *)
Definition push_back_borrow (slot : addr) : list Call :=
  [CBorrow 1 100; CBorrowedCopy slot 100; CBorrowedDtor 100].

(** Every exclusive handle with a back-reference holds the exclusive borrow
    of a live owner, and no two handles refer to the same owner. *)
Definition exclusive_handles_ok (w : World) : Prop :=
  ∀ h bm a,
    borrowedMuts w !! h = Some bm → BorrowedMut.owner_ bm = Some a →
    holds_exclusive w (Some a) = true
    ∧ ∀ h' bm', borrowedMuts w !! h' = Some bm' →
                BorrowedMut.owner_ bm' = Some a → h' = h.

(** Every call but a bare [releaseMutableBorrow], which a client makes
    behind the back of the handle that holds the borrow. *)
Definition protocol_call (c : Call) : bool :=
  match c with
  | CReleaseMutableBorrow _ => false
  | _ => true
  end.

(** A destructor call that ends no borrowed owner: the check of [~Unique]
    passes, and [DestroyWithActiveBorrows] is not thrown.  An owner that is
    destroyed while it is borrowed is gone all the same, and leaves its
    handles dangling. *)
Definition spares_borrowed (c : Call) (w : World) : Prop :=
  match c with
  | CUniqueDtor a => ∀ u, uniques w !! a = Some u → borrowed u = false
  | _ => True
  end.

(** A run in which every call is made in a store where [P] allows it. *)
Fixpoint run_where (P : Call → World → Prop) (cs : list Call) (w : World) : Prop :=
  match cs with
  | [] => True
  | c :: cs' =>
      P c w
      ∧ match exec c w with
        | (Ok _, w') | (Throw _, w') => run_where P cs' w'
        | (Terminate, _) | (Undefined, _) => True
        end
  end.

(** The calls of a client that leaves the release of an exclusive borrow to
    the handle and destroys no borrowed owner. *)
Definition exclusive_protocol (c : Call) (w : World) : Prop :=
  protocol_call c = true ∧ spares_borrowed c w.

(** From one store to another, the exclusive handles are the same and an
    exclusive flag that was set is set. *)
Definition flags_kept (w w' : World) : Prop :=
  borrowedMuts w' = borrowedMuts w
  ∧ ∀ a, holds_exclusive w (Some a) = true → holds_exclusive w' (Some a) = true.

Definition keeps_flags {A} (m : M World A) : Prop :=
  ∀ w r w', m w = (r, w') → flags_kept w w'.

(** An outcome after which the client goes on. *)
Definition continues {A} (r : Outcome A) : bool :=
  match r with
  | Ok _ | Throw _ => true
  | Terminate | Undefined => false
  end.

(** A call that returns or throws: its behaviour is defined and it does not
    end the program, so that there is a store after it. *)
Definition returns_or_throws (c : Call) (w : World) : Prop :=
  continues (exec c w).1 = true.

(** The four borrow-tracking methods of the owner at [a]. *)
Definition tracking_calls (a : addr) : list Call :=
  [CAcquireImmutableBorrow a; CReleaseBorrowImmutable a;
   CAcquireMutableBorrow a; CReleaseMutableBorrow a].

(** The borrow-state invariant as the specification words it, after any
    sequence of operations from construction on: an owner is constructed,
    and whatever is called on it afterwards, after every call the owner has
    a borrow state, and that state has the invariant.  It is read in its
    favour: the calls are the four borrow-tracking methods only, so that
    the owner is live throughout. *)
Definition invariant_as_stated : Prop :=
  ∀ a p cs,
    Forall (λ c, c ∈ tracking_calls a) cs →
    let ws := run (CUnique a p :: cs) empty_world in
    length ws = S (length cs)
    ∧ Forall (λ w, ∃ u, uniques w !! a = Some u ∧ borrow_inv u) ws.

(** The error codes a call can throw. *)
Definition may_throw (c : Call) : list ErrorCode :=
  match c with
  | CUniqueDtor _ => [DestroyWithActiveBorrows]
  | CUniqueMove _ _ => [MoveWithActiveBorrows]
  | CUniqueMoveAssign _ _ => [MoveIntoWithActiveBorrows; MoveFromWithActiveBorrows]
  | CAcquireImmutableBorrow _ | CBorrow _ _ | CBorrowed _ _ _
  | CBorrowedCopy _ _ => [MutableBorrowOfMutablyBorrowed]
  | CAcquireMutableBorrow _ | CBorrowMut _ _
  | CBorrowedMut _ _ _ => [MutableBorrowOfImmutablyBorrowed]
  | CReleaseBorrowImmutable _ => [ReleaseNonExistentImmutableBorrow]
  | CReleaseMutableBorrow _ => [ReleaseNonExistentMutableBorrow]
  | CArrow _ | CStar _ | CGet _ => [AccessWhileBorrowed]
  | CArrowConst _ | CStarConst _ | CGetConst _ => [AccessWhileMutablyBorrowed]
  | CBorrowedCopyAssign _ _ =>
      [ReleaseNonExistentImmutableBorrow; MutableBorrowOfMutablyBorrowed]
  | CNew _ | CUnique _ _ | CBool _ | CBorrowedDtor _ | CBorrowedMutMove _ _
  | CBorrowedMutMoveAssign _ _ | CBorrowedMutDtor _ => []
  end.

(** A computation that throws no code outside a list. *)
Definition throws_within (E : list ErrorCode) {A} (m : M World A) : Prop :=
  ∀ w e w', m w = (Throw e, w') → e ∈ E.

(** The number of live shared handles that refer to an owner. *)
Definition shared_refs (a : addr) (m : gmap positive Borrowed.t) : nat :=
  size (filter (λ hb : positive * Borrowed.t, Borrowed.owner_ hb.2 = Some a) m).

(** Every live owner's count covers the shared handles that refer to it,
    and no shared handle refers to storage without a live owner. *)
Definition shared_handles_ok (w : World) : Prop :=
  ∀ a, match uniques w !! a with
       | Some u => Z.of_nat (shared_refs a (borroweds w)) <= Unique.immutable_borrows u
       | None => shared_refs a (borroweds w) = 0%nat
       end.

(** Every call but a bare [releaseBorrowImmutable] or [releaseMutableBorrow]:
    the releases a client makes behind the back of a handle. *)
Definition no_bare_release (c : Call) : bool :=
  match c with
  | CReleaseBorrowImmutable _ | CReleaseMutableBorrow _ => false
  | _ => true
  end.

(** The calls of a client that leaves every release to the handles and
    destroys no borrowed owner. *)
Definition shared_protocol (c : Call) (w : World) : Prop :=
  no_bare_release c = true ∧ spares_borrowed c w.

(** From one store to another, the shared handles and every owner's count
    are the same. *)
Definition counts_kept (w w' : World) : Prop :=
  borroweds w' = borroweds w
  ∧ ∀ a, Unique.immutable_borrows <$> uniques w' !! a
         = Unique.immutable_borrows <$> uniques w !! a.

Definition keeps_counts {A} (m : M World A) : Prop :=
  ∀ w r w', m w = (r, w') → counts_kept w w'.

(** ** Pointers held by handles *)

(** A shared handle fits the store when it refers to a live owner and holds
    that owner's resource pointer; an exclusive handle likewise, or it has
    been moved from and holds null. *)
Definition shared_handle_fits (w : World) (b : Borrowed.t) : Prop :=
  ∃ a u, Borrowed.owner_ b = Some a ∧ uniques w !! a = Some u
         ∧ Borrowed.data b = Unique.data u.

Definition exclusive_handle_fits (w : World) (bm : BorrowedMut.t) : Prop :=
  match BorrowedMut.owner_ bm with
  | Some a => ∃ u, uniques w !! a = Some u ∧ BorrowedMut.data bm = Unique.data u
  | None => BorrowedMut.data bm = None
  end.

(** The resource of every owner is live, no two owners have the same
    resource, and every handle fits. *)
Definition handles_safe (w : World) : Prop :=
  (∀ a u q, uniques w !! a = Some u → Unique.data u = Some q → q ∈ heap w)
  ∧ (∀ a a' u u' q, uniques w !! a = Some u → uniques w !! a' = Some u' →
       Unique.data u = Some q → Unique.data u' = Some q → a = a')
  ∧ (∀ h b, borroweds w !! h = Some b → shared_handle_fits w b)
  ∧ (∀ h bm, borrowedMuts w !! h = Some bm → exclusive_handle_fits w bm).

(** A computation that only reads the store. *)
Definition reads {A} (m : M World A) : Prop :=
  ∀ w r w', m w = (r, w') → w' = w.

(** What a client does who keeps to the interface: an owner is made for
    null or for a live resource that no owner has, handles are made by
    [borrow()] and [borrow_mut()] and by copy or move of handles, the
    release functions are left to the handles, and no owner is destroyed
    while it is borrowed. *)
Definition client_call (c : Call) (w : World) : Prop :=
  match c with
  | CUnique _ (Some q) =>
      q ∈ heap w ∧ ∀ a u, uniques w !! a = Some u → Unique.data u ≠ Some q
  | CUniqueDtor a => spares_borrowed (CUniqueDtor a) w
  | CReleaseBorrowImmutable _ | CReleaseMutableBorrow _
  | CBorrowed _ _ _ | CBorrowedMut _ _ _ => False
  | _ => True
  end.

Definition client_run (cs : list Call) (w : World) : Prop :=
  run_where client_call cs w.

(** * The static checker: [BorrowCheckPlugin.cpp]

    The plugin walks the syntax tree of a translation unit once, in program
    text order, and keeps for every variable it has seen a borrow state of
    its own.  It is embedded over a syntax tree that holds of each node
    what the visitor asks Clang about it. *)

Abbreviation SourceLocation := positive (only parsing).

(** ** [struct BorrowState] *)

Record BorrowState : Set := mkBorrowState {
  mutablyBorrowed : bool;      (* bool mutablyBorrowed = false *)
  immutablyBorrowed : Z        (* int immutablyBorrowed = 0 *)
}.

#[global] Instance BorrowState_eq_dec : EqDecision BorrowState.
Proof. solve_decision. Defined.

(** [BorrowState()] *)
Definition BorrowState_ctor : BorrowState := mkBorrowState false 0.

(** ** Diagnostics *)

(** [DiagnosticsEngine::Level], as far as the plugin uses it. *)
Inductive Level : Set := Warning | Error.

#[global] Instance Level_eq_dec : EqDecision Level.
Proof. solve_decision. Defined.

(** One [DE.Report(loc, ID) << arg]: the level and format string of the
    custom diagnostic [ID], the location, and the arguments streamed in. *)
Record Diagnostic : Set := mkDiagnostic {
  level : Level;
  format : string;
  location : option SourceLocation;
  arguments : list string
}.

#[global] Instance Diagnostic_eq_dec : EqDecision Diagnostic.
Proof. solve_decision. Defined.

(** ** [class BorrowContext] *)

Record BorrowContext : Type := mkBorrowContext {
  currentBorrowStates : gmap string BorrowState;
  scopeStack : list (gmap string BorrowState);   (* [back()] is the last *)
  DE : list Diagnostic            (* what the engine has been told, in order *)
}.

(** [explicit BorrowContext(ASTContext &ctx)], on an engine that has been
    told [de]. *)
Definition BorrowContext_ctor (de : list Diagnostic) : BorrowContext :=
  mkBorrowContext ∅ [] de.

(** A declaration: its name, and its location as
    [getLocation().printToString(...)] prints it. *)
Record ValueDecl : Set := mkValueDecl {
  getNameAsString : string;
  getLocation : string
}.

Section BorrowContextMethods.
Local Open Scope cxx_scope.

Definition Report (l : Level) (fmt : string) (loc : option SourceLocation)
    (args : list string) : M BorrowContext unit :=
  modify (λ s, mkBorrowContext (currentBorrowStates s)
                 (scopeStack s)
                 (DE s ++ [mkDiagnostic l fmt loc args])).

(** [static std::string getKeyForDecl(const ValueDecl *decl, ASTContext &ctx)] *)
Definition getKeyForDecl (decl : option ValueDecl) : string :=
  match decl with
  | None => "<unknown_decl_key>"
  | Some d => getLocation d
  end.

(** [void enterScope()] *)
Definition enterScope : M BorrowContext unit :=
  modify (λ s, mkBorrowContext (currentBorrowStates s)
                 (scopeStack s ++ [currentBorrowStates s])
                 (DE s)).

(** [void exitScope()] *)
Definition exitScope : M BorrowContext unit :=
  λ s, match last (scopeStack s) with
       | Some saved =>
           (Ok tt, mkBorrowContext saved (removelast (scopeStack s))
                     (DE s))
       | None => (Ok tt, s)
       end.

(** [void addTrackedVariable(const std::string &varKey)] *)
Definition addTrackedVariable (varKey : string) : M BorrowContext unit :=
  modify (λ s, mkBorrowContext
                 (<[varKey := BorrowState_ctor]> (currentBorrowStates s))
                 (scopeStack s) (DE s)).

(** [&currentBorrowStates[varKey]]: [operator[]] makes the element when
    there is none, so the address is that of an element of the map.  A
    pointer to an element is its key. *)
Definition subscript (varKey : string) : M BorrowContext (option string) :=
  λ s, (Ok (Some varKey),
        match currentBorrowStates s !! varKey with
        | Some _ => s
        | None =>
            mkBorrowContext
              (<[varKey := BorrowState_ctor]> (currentBorrowStates s))
              (scopeStack s) (DE s)
        end).

(** Reading and writing [*state]. *)
Definition load_state (state : string) : M BorrowContext BorrowState :=
  λ s, match currentBorrowStates s !! state with
       | Some st => (Ok st, s)
       | None => (Undefined, s)
       end.
Definition store_state (state : string) (st : BorrowState)
    : M BorrowContext unit :=
  modify (λ s, mkBorrowContext
                 (<[state := st]> (currentBorrowStates s))
                 (scopeStack s) (DE s)).

(** [void recordImmutableBorrow(const std::string &varKey,
    const std::string &varName, SourceLocation reportLoc)] *)
Definition recordImmutableBorrow (varKey varName : string)
    (reportLoc : SourceLocation) : M BorrowContext unit :=
  state ← subscript varKey;
  match state with
  | None =>
      Report Error "Variable '%0' is not being tracked" (Some reportLoc) [varName]
  | Some p =>
      st ← load_state p;
      match int_incr (immutablyBorrowed st) with
      | None => undefined
      | Some n' =>
          store_state p (mkBorrowState (mutablyBorrowed st) n') ;;
          st' ← load_state p;
          if mutablyBorrowed st'
          then Report Error
                 "Cannot immutably borrow '%0' while it is mutably borrowed"
                 (Some reportLoc) [varName]
          else ret tt
      end
  end.

(** [void recordMutableBorrow(const std::string &varKey,
    const std::string &varName, SourceLocation reportLoc)] *)
Definition recordMutableBorrow (varKey varName : string)
    (reportLoc : SourceLocation) : M BorrowContext unit :=
  state ← subscript varKey;
  match state with
  | None =>
      Report Error "Variable '%0' is not being tracked" (Some reportLoc) [varName]
  | Some p =>
      st ← load_state p;
      store_state p (mkBorrowState true (immutablyBorrowed st)) ;;
      st' ← load_state p;
      if 0 <? immutablyBorrowed st'
      then Report Error
             "Cannot mutably borrow '%0' while it is immutably borrowed"
             (Some reportLoc) [varName]
      else ret tt
  end.

(** [void clear()] *)
Definition clear : M BorrowContext unit :=
  modify (λ s, mkBorrowContext ∅ [] (DE s)).

End BorrowContextMethods.

(** ** The syntax tree, as the visitor sees it *)

(** A parent of a construct expression, as [Context.getParents] gives it:
    a [VarDecl], an [InitListExpr] (with, of each of its own parents, the
    [VarDecl] it is if it is one), or another node. *)
Inductive DynTypedNode : Set :=
| ParentVarDecl (vd : ValueDecl)
| ParentInitListExpr (ileParents : list (option ValueDecl))
| ParentOther.

(** A [CXXConstructExpr]: the constructor, if there is one, with the name
    of its class, if there is one; and the parents of the expression. *)
Record ConstructExpr : Set := mkConstructExpr {
  getConstructor : option (option string);
  getParents : list DynTypedNode
}.

(** The callee of a call, parentheses and casts ignored, when it is a
    [MemberExpr]: the name of the member when that is a [CXXMethodDecl], and
    the base, parentheses and casts ignored, when that is a [DeclRefExpr],
    with the declaration it refers to. *)
Record MemberExpr : Set := mkMemberExpr {
  getMemberDecl : option string;
  getBase : option (option ValueDecl)
}.

(** A [CallExpr]: its callee when that is a member expression, and its
    location. *)
Record CallInfo : Set := mkCallInfo {
  getCallee : option MemberExpr;
  getExprLoc : SourceLocation
}.

(** A node with its children in the order [RecursiveASTVisitor] goes
    through them.  [Node] is every kind of declaration, statement or
    expression for which the visitor does nothing of its own (for a
    [DeclRefExpr] it has a function that does nothing). *)
#[local] Unset Elimination Schemes.
Inductive Stmt : Set :=
| CompoundStmt (body : list Stmt)
| CXXConstructExpr (expr : ConstructExpr) (children : list Stmt)
| CallExpr (expr : CallInfo) (children : list Stmt)
| Node (children : list Stmt).
#[local] Set Elimination Schemes.

Section Visitor.
Local Open Scope cxx_scope.

(** The inner loop of [VisitCXXConstructExpr]: the first parent of the
    [InitListExpr] that is a [VarDecl]. *)
Fixpoint ileVarDecl (ileParents : list (option ValueDecl)) : option ValueDecl :=
  match ileParents with
  | [] => None
  | Some vd :: _ => Some vd
  | None :: rest => ileVarDecl rest
  end.

(** The outer loop: the [VarDecl] the constructor initialises. *)
Fixpoint initializedVarDecl (parents : list DynTypedNode) : option ValueDecl :=
  match parents with
  | [] => None
  | ParentVarDecl vd :: _ => Some vd
  | ParentInitListExpr ileParents :: rest =>
      match ileVarDecl ileParents with
      | Some vd => Some vd
      | None => initializedVarDecl rest
      end
  | ParentOther :: rest => initializedVarDecl rest
  end.

(** [bool VisitCXXConstructExpr(CXXConstructExpr *expr)] *)
Definition VisitCXXConstructExpr (expr : ConstructExpr) : M BorrowContext bool :=
  match getConstructor expr with
  | None => ret true
  | Some None => ret true
  | Some (Some className) =>
      (if String.eqb className "Unique"
       then match initializedVarDecl (getParents expr) with
            | Some vd => addTrackedVariable (getKeyForDecl (Some vd))
            | None => ret tt
            end
       else ret tt) ;;
      ret true
  end.

(** [bool VisitCallExpr(CallExpr *expr)] *)
Definition VisitCallExpr (expr : CallInfo) : M BorrowContext bool :=
  match getCallee expr with
  | None => ret true
  | Some memberCall =>
      match getMemberDecl memberCall with
      | None => ret true
      | Some methodName =>
          if negb (String.eqb methodName "borrow")
             && negb (String.eqb methodName "borrow_mut")
          then ret true
          else
            match getBase memberCall with
            | None => ret true
            | Some None => ret true
            | Some (Some varValueDecl) =>
                let varName := getNameAsString varValueDecl in
                let varKey := getKeyForDecl (Some varValueDecl) in
                let reportLoc := getExprLoc expr in
                (if String.eqb methodName "borrow"
                 then recordImmutableBorrow varKey varName reportLoc
                 else recordMutableBorrow varKey varName reportLoc) ;;
                ret true
            end
      end
  end.

(** [bool VisitDeclRefExpr(DeclRefExpr *expr)] *)
Definition VisitDeclRefExpr : M BorrowContext bool := ret true.

(** The children of a node, one after the other; a [false] ends the
    traversal. *)
Definition TraverseChildren (traverse : Stmt → M BorrowContext bool)
    : list Stmt → M BorrowContext bool :=
  fix go (l : list Stmt) : M BorrowContext bool :=
    match l with
    | [] => ret true
    | c :: rest => b ← traverse c; if b then go rest else ret false
    end.

(** The traversal of [RecursiveASTVisitor]: a node is visited, then its
    children are traversed.  For a compound statement it is the visitor's
    [bool TraverseCompoundStmt(CompoundStmt *stmt)]. *)
Fixpoint TraverseStmt (n : Stmt) : M BorrowContext bool :=
  match n with
  | CompoundStmt body =>
      enterScope ;;
      _ ← TraverseChildren TraverseStmt body;
      exitScope ;;
      ret true
  | CXXConstructExpr expr children =>
      b ← VisitCXXConstructExpr expr;
      if b then TraverseChildren TraverseStmt children else ret false
  | CallExpr expr children =>
      b ← VisitCallExpr expr;
      if b then TraverseChildren TraverseStmt children else ret false
  | Node children => TraverseChildren TraverseStmt children
  end.

(** [explicit BorrowCheckConsumer(ASTContext &Context)]: the context is
    made, and the engine is told that the plugin runs. *)
Definition BorrowCheckConsumer_ctor (de : list Diagnostic) : BorrowContext :=
  snd (Report Warning "BorrowCheckPlugin is running" None []
         (BorrowContext_ctor de)).

(** [void HandleTranslationUnit(ASTContext &Context)], on the tree of the
    translation unit. *)
Definition HandleTranslationUnit (tu : Stmt) : M BorrowContext unit :=
  clear ;;
  _ ← TraverseStmt tu;
  ret tt.

End Visitor.

(** ** What the checker does, read off the tree *)

(** The call expressions and the construct expressions of a tree, in the
    order of the traversal. *)
Fixpoint calls (n : Stmt) : list CallInfo :=
  match n with
  | CompoundStmt body => flat_map calls body
  | CXXConstructExpr _ children => flat_map calls children
  | CallExpr expr children => expr :: flat_map calls children
  | Node children => flat_map calls children
  end.

Fixpoint constructs (n : Stmt) : list ConstructExpr :=
  match n with
  | CompoundStmt body => flat_map constructs body
  | CXXConstructExpr expr children => expr :: flat_map constructs children
  | CallExpr _ children => flat_map constructs children
  | Node children => flat_map constructs children
  end.

(** The borrow a call expression records: [true] for [borrow], [false] for
    [borrow_mut], of the variable with the given declaration. *)
Definition recorded_borrow (expr : CallInfo) : option (bool * ValueDecl) :=
  match getCallee expr with
  | Some memberCall =>
      match getMemberDecl memberCall, getBase memberCall with
      | Some methodName, Some (Some d) =>
          if String.eqb methodName "borrow" then Some (true, d)
          else if String.eqb methodName "borrow_mut" then Some (false, d)
          else None
      | _, _ => None
      end
  | None => None
  end.

(** The variable a construct expression makes tracked. *)
Definition tracked_decl (expr : ConstructExpr) : option ValueDecl :=
  match getConstructor expr with
  | Some (Some className) =>
      if String.eqb className "Unique" then initializedVarDecl (getParents expr)
      else None
  | _ => None
  end.

(** The two reports of a conflict. *)
Definition conflict_report (shared : bool) (varName : string)
    (loc : SourceLocation) : Diagnostic :=
  mkDiagnostic Error
    (if shared
     then "Cannot immutably borrow '%0' while it is mutably borrowed"
     else "Cannot mutably borrow '%0' while it is immutably borrowed")
    (Some loc) [varName].

Definition is_conflict_report (x : Diagnostic) : Prop :=
  ∃ shared varName loc, x = conflict_report shared varName loc.

(** A visit or a traversal that returns keeps a property [Qc] of the
    current borrow states, leaves the scope stack as it is, and adds to the
    reports a list that stands in the relation [R] to the call expressions
    [es] it has gone through. *)
Definition visit_keeps (Qc : gmap string BorrowState → Prop)
    (R : list CallInfo → list Diagnostic → Prop) (es : list CallInfo)
    (m : M BorrowContext bool) : Prop :=
  ∀ s r s', Qc (currentBorrowStates s) → m s = (r, s') →
    r = Undefined
    ∨ (r = Ok true ∧ Qc (currentBorrowStates s')
       ∧ scopeStack s' = scopeStack s
       ∧ ∃ ds, DE s' = DE s ++ ds ∧ R es ds).

(** No count of the current scope is above [N]. *)
Definition counts_below (N : Z) (m : gmap string BorrowState) : Prop :=
  ∀ k st, m !! k = Some st → immutablyBorrowed st <= N.

(** The borrow states in which a borrow of the given kind is not reported:
    for a shared one no variable is marked exclusively borrowed, for an
    exclusive one no variable has a positive count. *)
Definition no_mark_against (shared : bool) (m : gmap string BorrowState) : Prop :=
  ∀ k st, m !! k = Some st →
    if shared then mutablyBorrowed st = false else immutablyBorrowed st <= 0.

(** The variable with the key [k] carries the mark of a borrow of the given
    kind. *)
Definition marked (shared : bool) (k : string) (m : gmap string BorrowState)
    : Prop :=
  ∃ st, m !! k = Some st
        ∧ if shared then 0 < immutablyBorrowed st else mutablyBorrowed st = true.

(** The call expressions of a tree that are in no compound statement of the
    tree: what they record is in the current borrow states when the
    traversal of the tree returns. *)
Fixpoint open_calls (n : Stmt) : list CallInfo :=
  match n with
  | CompoundStmt _ => []
  | CXXConstructExpr _ children => flat_map open_calls children
  | CallExpr expr children => expr :: flat_map open_calls children
  | Node children => flat_map open_calls children
  end.

(** No construct expression of the list makes the variable with the key
    [x] tracked. *)
Definition not_declared (x : string) (cs : list ConstructExpr) : Prop :=
  ∀ c d, c ∈ cs → tracked_decl c = Some d → getLocation d ≠ x.

(** Every call expression of the list that records a borrow of the given
    kind of the variable with the key [x] has its report in [ds]. *)
Definition all_reported (shared : bool) (x : string) (es : list CallInfo)
    (ds : list Diagnostic) : Prop :=
  ∀ e d, e ∈ es → recorded_borrow e = Some (shared, d) → getLocation d = x →
         conflict_report shared (getNameAsString d) (getExprLoc e) ∈ ds.

(** No count of the current scope is negative. *)
Definition no_negative_count (m : gmap string BorrowState) : Prop :=
  ∀ k st, m !! k = Some st → 0 <= immutablyBorrowed st.

(** ** Concrete stores and trees *)

(** A handle at 11 to the owner at 1, and a handle at 12 to the owner at 2,
    which a client has since borrowed exclusively behind the back of its
    handle. *)
Definition stale_shared_handle : World :=
  mkWorld
    (<[1%positive := Unique.mk (Some 5%positive) 1 false]>
       (<[2%positive := Unique.mk (Some 6%positive) 0 true]> ∅))
    (<[11%positive := Borrowed.mk (Some 1%positive) (Some 5%positive)]>
       (<[12%positive := Borrowed.mk (Some 2%positive) (Some 6%positive)]> ∅))
    ∅
    ({[5%positive]} ∪ {[6%positive]})
    [].

(** Two handles, at 11 and 12, to the owner at 1. *)
Definition two_shared_handles : World :=
  mkWorld
    (<[1%positive := Unique.mk (Some 5%positive) 2 false]> ∅)
    (<[11%positive := Borrowed.mk (Some 1%positive) (Some 5%positive)]>
       (<[12%positive := Borrowed.mk (Some 1%positive) (Some 5%positive)]> ∅))
    ∅
    {[5%positive]}
    [AcquiredImmutable 1; AcquiredImmutable 1].

(** The calls that make [both_exclusive]. *)
Definition both_exclusive_calls : list Call :=
  [CNew 5; CNew 6; CUnique 1 (Some 5%positive); CUnique 2 (Some 6%positive);
   CBorrowMut 1 21; CBorrowMut 2 22].

(** The declaration of [data] in [foo] of [test.cpp]. *)
Definition decl_data : ValueDecl := mkValueDecl "data" "test.cpp:9:17".

(** [Unique<int> d(new int(...));]: the statement, the declaration, the
    construct expression with the declaration for its parent, and the
    [new] expression. *)
Definition declare_unique (d : ValueDecl) : Stmt :=
  Node [Node [CXXConstructExpr
                (mkConstructExpr (Some (Some "Unique")) [ParentVarDecl d])
                [Node []]]].

(** [auto h = d.method();] at the location [loc]: the statement, the
    declaration, the call, the member expression and the reference to
    [d]. *)
Definition member_call (method : string) (d : ValueDecl) (loc : SourceLocation)
    : CallInfo :=
  mkCallInfo (Some (mkMemberExpr (Some method) (Some (Some d)))) loc.

Definition declare_handle (method : string) (d : ValueDecl)
    (loc : SourceLocation) : Stmt :=
  Node [Node [CallExpr (member_call method d loc) [Node [Node []]]]].

(** The body of [foo], without its last statement. *)
Definition test_foo : Stmt :=
  CompoundStmt
    [declare_unique decl_data;
     declare_handle "borrow" decl_data 10;
     declare_handle "borrow_mut" decl_data 11].

(** A block with two exclusive borrows of [data]. *)
Definition two_exclusive_borrows : Stmt :=
  CompoundStmt
    [declare_unique decl_data;
     declare_handle "borrow_mut" decl_data 10;
     declare_handle "borrow_mut" decl_data 11].

(** ** The checker beside the guarded types *)

(** A statement [auto h = d.borrow();] or [auto h = d.borrow_mut();] of a
    block: the kind of the borrow, the declaration of the owner, the
    location of the call, and the storage of the handle, which lives to the
    end of the block. *)
Record BorrowSite : Set := mkBorrowSite {
  site_shared : bool;
  site_decl : ValueDecl;
  site_loc : SourceLocation;
  site_handle : addr
}.

(** The statement as the checker sees it, and as it runs when the variable
    with the key [x] is the owner at [place x]. *)
Definition site_stmt (b : BorrowSite) : Stmt :=
  declare_handle (if site_shared b then "borrow" else "borrow_mut")
    (site_decl b) (site_loc b).

Definition site_call (place : string → addr) (b : BorrowSite) : Call :=
  if site_shared b
  then CBorrow (place (getLocation (site_decl b))) (site_handle b)
  else CBorrowMut (place (getLocation (site_decl b))) (site_handle b).

(** Every call of the list returns, none throws. *)
Fixpoint all_return (cs : list Call) (w : World) : Prop :=
  match cs with
  | [] => True
  | c :: cs' => ∃ w', exec c w = (Ok tt, w') ∧ all_return cs' w'
  end.

(** What the checker has marked of a variable, its owner has: the count of
    the checker is not above the owner's, and the flag of the checker is set
    only if the owner's is. *)
Definition mirrors (place : string → addr) (m : gmap string BorrowState)
    (w : World) : Prop :=
  ∀ x st, m !! x = Some st →
    ∃ u, uniques w !! place x = Some u
         ∧ immutablyBorrowed st <= Unique.immutable_borrows u
         ∧ (mutablyBorrowed st = true → Unique.mutable_borrowed u = true).

(** ** Symbolic execution of member functions *)

Ltac cxx_unfold :=
  cbv beta iota zeta delta
    [bind ret throw undefined modify noexcept discard deref
     load_unique store_unique load_borrowed store_borrowed
     load_borrowedMut store_borrowedMut emit new_ delete_ deref_resource
     get_data set_data get_immutable_borrows set_immutable_borrows
     get_mutable_borrowed set_mutable_borrowed
     storage_unique storage_borrowed storage_borrowedMut
     end_unique end_borrowed end_borrowedMut is_borrowed
     Borrowed_get_owner_ Borrowed_set_owner_ Borrowed_get_data Borrowed_set_data
     BorrowedMut_get_owner_ BorrowedMut_set_owner_
     BorrowedMut_get_data BorrowedMut_set_data
     Unique.set_data Unique.set_immutable_borrows Unique.set_mutable_borrowed
     upd_uniques upd_borroweds upd_borrowedMuts upd_heap upd_history];
  cbn [uniques borroweds borrowedMuts heap history orb negb andb
       Unique.data Unique.immutable_borrows Unique.mutable_borrowed
       Borrowed.owner_ Borrowed.data BorrowedMut.owner_ BorrowedMut.data].

Ltac cxx_step :=
  match goal with
  | H : ?m !! ?a = _ |- context [?m !! ?a] => rewrite H
  | |- context [<[?a := _]> _ !! ?a] => rewrite lookup_insert_eq
  | |- context [<[?a := _]> _ !! ?b] => rewrite lookup_insert_ne by congruence
  | |- context [delete ?a _ !! ?a] => rewrite lookup_delete_eq
  | |- context [delete ?a _ !! ?b] => rewrite lookup_delete_ne by congruence
  | |- context [decide (?a ≠ ?b)] =>
      first [ rewrite (decide_True (P := a ≠ b)) by congruence
            | rewrite (decide_False (P := a ≠ b)) by (intros ?; congruence) ]
  | H : ?q ∈ ?h |- context [decide (?q ∈ ?h)] =>
      rewrite (decide_True (P := q ∈ h)) by exact H
  | H : ?q ∉ ?h |- context [decide (?q ∈ ?h)] =>
      rewrite (decide_False (P := q ∈ h)) by exact H
  | H : ?c = _ |- context [if ?c then _ else _] => rewrite H
  end.

Ltac cxx_run := repeat (cxx_unfold; try cxx_step).

(** Two maps built by inserts and deletes are equal when they agree at
    every key. *)
Ltac map_ext :=
  apply map_eq; intros ?i;
  repeat (rewrite lookup_insert || rewrite lookup_delete);
  repeat case_decide; simplify_eq; try done.

(** ** Equations of the borrow-tracking methods *)

Section UniqueEquations.
Context (w : World) (a : addr).

Lemma int_incr_Some n n' : int_incr n = Some n' → n' = n + 1 ∧ n < INT_MAX.
Proof. unfold int_incr. destruct (Z.ltb_spec n INT_MAX); [|done]. by intros [= <-]. Qed.


Lemma int_incr_lt n : n < INT_MAX → int_incr n = Some (n + 1).
Proof. intros Hn. unfold int_incr. destruct (Z.ltb_spec n INT_MAX); [done | lia]. Qed.

Lemma int_decr_pos n : 0 < n → int_decr n = Some (n - 1).
Proof. intros Hn. unfold int_decr, INT_MIN. destruct (Z.ltb_spec (-2147483648) n); [done | lia]. Qed.

Lemma dangling_acquireImmutableBorrow :
  uniques w !! a = None → acquireImmutableBorrow a w = (Undefined, w).
Proof. intros H. unfold acquireImmutableBorrow. by cxx_run. Qed.

Lemma dangling_releaseBorrowImmutable :
  uniques w !! a = None → releaseBorrowImmutable a w = (Undefined, w).
Proof. intros H. unfold releaseBorrowImmutable. by cxx_run. Qed.

Lemma dangling_acquireMutableBorrow :
  uniques w !! a = None → acquireMutableBorrow a w = (Undefined, w).
Proof. intros H. unfold acquireMutableBorrow. by cxx_run. Qed.

Lemma dangling_releaseMutableBorrow :
  uniques w !! a = None → releaseMutableBorrow a w = (Undefined, w).
Proof. intros H. unfold releaseMutableBorrow. by cxx_run. Qed.

Context (u : Unique.t) (Hu : uniques w !! a = Some u).

Lemma acquireImmutableBorrow_eq :
  acquireImmutableBorrow a w =
    if Unique.mutable_borrowed u
    then (Throw MutableBorrowOfMutablyBorrowed, w)
    else match int_incr (Unique.immutable_borrows u) with
         | Some n' =>
             (Ok tt, upd_history (λ h, h ++ [AcquiredImmutable a])
                       (upd_uniques <[a := Unique.set_immutable_borrows n' u]> w))
         | None => (Undefined, w)
         end.
Proof.
  unfold acquireImmutableBorrow.
  destruct w as [U B BM Hp Hs], u as [d n [|]]; cbn [uniques] in Hu;
    cxx_run; [done|].
  destruct (int_incr n); by cxx_run.
Qed.

Lemma releaseBorrowImmutable_eq :
  releaseBorrowImmutable a w =
    if Unique.immutable_borrows u <=? 0
    then (Throw ReleaseNonExistentImmutableBorrow, w)
    else (Ok tt, upd_history (λ h, h ++ [ReleasedImmutable a])
                   (upd_uniques
                      <[a := Unique.set_immutable_borrows
                               (Unique.immutable_borrows u - 1) u]> w)).
Proof.
  unfold releaseBorrowImmutable.
  destruct w as [U B BM Hp Hs], u as [d n b]; cbn [uniques] in Hu; cxx_run.
  destruct (Z.leb_spec n 0); [done|].
  rewrite int_decr_pos by done. by cxx_run.
Qed.

Lemma acquireMutableBorrow_eq :
  acquireMutableBorrow a w =
    if borrowed u
    then (Throw MutableBorrowOfImmutablyBorrowed, w)
    else (Ok tt, upd_history (λ h, h ++ [AcquiredMutable a])
                   (upd_uniques <[a := Unique.set_mutable_borrowed true u]> w)).
Proof.
  unfold acquireMutableBorrow, borrowed.
  destruct w as [U B BM Hp Hs], u as [d n b]; cbn [uniques] in Hu; cxx_run.
  destruct ((0 <? n) || b); by cxx_run.
Qed.

Lemma releaseMutableBorrow_eq :
  releaseMutableBorrow a w =
    if Unique.mutable_borrowed u
    then (Ok tt, upd_history (λ h, h ++ [ReleasedMutable a])
                   (upd_uniques <[a := Unique.set_mutable_borrowed false u]> w))
    else (Throw ReleaseNonExistentMutableBorrow, w).
Proof.
  unfold releaseMutableBorrow.
  destruct w as [U B BM Hp Hs], u as [d n [|]]; cbn [uniques] in Hu; by cxx_run.
Qed.

End UniqueEquations.

(** ** Equations of destruction, transfer and direct access *)

Section OwnerEquations.
Context (w : World) (this : addr) (u : Unique.t).
Context (Hu : uniques w !! this = Some u).

Lemma is_borrowed_eq : is_borrowed this w = (Ok (borrowed u), w).
Proof.
  unfold borrowed. destruct w as [U B BM Hp Hs]; cbn [uniques] in Hu.
  by cxx_run.
Qed.

Lemma Unique_dtor_eq :
  Unique_dtor this w =
    if borrowed u then (Throw DestroyWithActiveBorrows, upd_uniques (delete this) w)
    else match Unique.data u with
         | None => (Ok tt, upd_uniques (delete this) w)
         | Some q =>
             if decide (q ∈ heap w)
             then (Ok tt, upd_uniques (delete this) (upd_heap (λ h, h ∖ {[q]}) w))
             else (Undefined, w)
         end.
Proof.
  unfold Unique_dtor, borrowed.
  destruct w as [U B BM Hp Hs], u as [d n b]; cbn [uniques] in Hu; cxx_run.
  destruct ((0 <? n) || b); cxx_run; [done|].
  destruct d as [q|]; cxx_run; [|done].
  destruct (decide (q ∈ Hp)); by cxx_run.
Qed.

Lemma Unique_arrow_eq :
  Unique_arrow this w =
    if borrowed u then (Throw AccessWhileBorrowed, w) else (Ok (Unique.data u), w).
Proof.
  unfold Unique_arrow, borrowed.
  destruct w as [U B BM Hp Hs], u as [d n b]; cbn [uniques] in Hu; cxx_run.
  destruct ((0 <? n) || b); by cxx_run.
Qed.

Lemma Unique_get_eq :
  Unique_get this w =
    if borrowed u then (Throw AccessWhileBorrowed, w) else (Ok (Unique.data u), w).
Proof. exact Unique_arrow_eq. Qed.

Lemma Unique_star_eq :
  Unique_star this w =
    if borrowed u then (Throw AccessWhileBorrowed, w)
    else deref_resource (Unique.data u) w.
Proof.
  unfold Unique_star, borrowed.
  destruct w as [U B BM Hp Hs], u as [d n b]; cbn [uniques] in Hu; cxx_run.
  destruct ((0 <? n) || b); cxx_run; [done|].
  destruct d as [q|]; cxx_run; [|done].
  destruct (decide (q ∈ Hp)); by cxx_run.
Qed.

Lemma Unique_arrow_const_eq :
  Unique_arrow_const this w =
    if Unique.mutable_borrowed u then (Throw AccessWhileMutablyBorrowed, w)
    else (Ok (Unique.data u), w).
Proof.
  unfold Unique_arrow_const.
  destruct w as [U B BM Hp Hs], u as [d n [|]]; cbn [uniques] in Hu; by cxx_run.
Qed.

Lemma Unique_get_const_eq :
  Unique_get_const this w =
    if Unique.mutable_borrowed u then (Throw AccessWhileMutablyBorrowed, w)
    else (Ok (Unique.data u), w).
Proof. exact Unique_arrow_const_eq. Qed.

Lemma Unique_star_const_eq :
  Unique_star_const this w =
    if Unique.mutable_borrowed u then (Throw AccessWhileMutablyBorrowed, w)
    else deref_resource (Unique.data u) w.
Proof.
  unfold Unique_star_const.
  destruct w as [U B BM Hp Hs], u as [d n [|]]; cbn [uniques] in Hu;
    cxx_run; [done|].
  destruct d as [q|]; cxx_run; [|done].
  destruct (decide (q ∈ Hp)); by cxx_run.
Qed.

Context (other : addr) (v : Unique.t).
Context (Hv : uniques w !! other = Some v).

Lemma Unique_move_assign_eq :
  this ≠ other →
  Unique_move_assign this other w =
    if borrowed u then (Throw MoveIntoWithActiveBorrows, w)
    else if borrowed v then (Throw MoveFromWithActiveBorrows, w)
    else match Unique.data u with
         | None =>
             (Ok tt, upd_uniques
                        (λ m, <[other := empty_unique]> (<[this := v]> m)) w)
         | Some q =>
             if decide (q ∈ heap w)
             then (Ok tt, upd_uniques
                            (λ m, <[other := empty_unique]> (<[this := v]> m))
                            (upd_heap (λ h, h ∖ {[q]}) w))
             else (Undefined, w)
         end.
Proof.
  intros Hne. unfold Unique_move_assign, borrowed, empty_unique.
  destruct w as [U B BM Hp Hs], u as [d n b], v as [d' n' b'];
    cbn [uniques] in Hu, Hv; cxx_run.
  destruct ((0 <? n) || b); cxx_run; [done|].
  destruct ((0 <? n') || b'); cxx_run; [done|].
  destruct d as [q|]; cxx_run.
  - destruct (decide (q ∈ Hp)); cxx_run; [|done].
    do 2 f_equal. map_ext.
  - do 2 f_equal. map_ext.
Qed.

Lemma Unique_move_assign_self : Unique_move_assign this this w = (Ok tt, w).
Proof.
  unfold Unique_move_assign.
  rewrite (decide_False (P := this ≠ this)) by (intros ?; congruence). done.
Qed.

End OwnerEquations.

(** After a transfer the destination has the members the source had, and
    the source is empty. *)
Lemma Unique_move_ctor_eq w this other v :
  uniques w !! this = None →
  uniques w !! other = Some v →
  Unique_move_ctor this other w =
    if borrowed v then (Throw MoveWithActiveBorrows, w)
    else (Ok tt, upd_uniques (λ m, <[this := v]> (<[other := empty_unique]> m)) w).
Proof.
  intros Hf Hv. unfold Unique_move_ctor, borrowed, empty_unique.
  assert (this ≠ other) by congruence.
  destruct w as [U B BM Hp Hs], v as [d n b]; cbn [uniques] in Hv, Hf; cxx_run.
  destruct ((0 <? n) || b); cxx_run; [done|].
  by rewrite !insert_insert_eq.
Qed.

(** ** Calls that leave every owner as it was *)


Ltac frame_prim :=
  intros [? ? ? ? ?] ? ?; cxx_unfold;
  repeat case_match; intros; simplify_eq; done.

Section Frame.
Context {A B : Type}.

Lemma frame_ret (x : A) : frame (ret x).
Proof. frame_prim. Qed.

Lemma frame_throw e : frame (throw (A := A) e).
Proof. frame_prim. Qed.

Lemma frame_undefined : frame (undefined (A := A)).
Proof. frame_prim. Qed.

Lemma frame_bind (m : M World A) (k : A → M World B) :
  frame m → (∀ x, frame (k x)) → frame (bind m k).
Proof.
  intros Hm Hk w r w'. unfold bind.
  destruct (m w) as [[x| | |] w1] eqn:E; intros H.
  - rewrite (Hk _ _ _ _ H). eauto.
  - simplify_eq. eauto.
  - simplify_eq. eauto.
  - simplify_eq. eauto.
Qed.

Lemma frame_noexcept (m : M World A) : frame m → frame (noexcept m).
Proof.
  intros Hm w r w'. unfold noexcept.
  destruct (m w) as [[x| | |] w1] eqn:E; intros H; simplify_eq; eauto.
Qed.

End Frame.

Lemma frame_discard {A} (m : M World A) : frame m → frame (discard m).
Proof. intros Hm. apply frame_bind; [done|]. intros x. frame_prim. Qed.

Lemma frame_deref p : frame (deref p).
Proof. destruct p; frame_prim. Qed.
Lemma frame_load_unique a : frame (load_unique a).
Proof. frame_prim. Qed.
Lemma frame_get_data a : frame (get_data a).
Proof. frame_prim. Qed.
Lemma frame_get_immutable_borrows a : frame (get_immutable_borrows a).
Proof. frame_prim. Qed.
Lemma frame_get_mutable_borrowed a : frame (get_mutable_borrowed a).
Proof. frame_prim. Qed.
Lemma frame_is_borrowed a : frame (is_borrowed a).
Proof. frame_prim. Qed.
Lemma frame_load_borrowed a : frame (load_borrowed a).
Proof. frame_prim. Qed.
Lemma frame_store_borrowed a b : frame (store_borrowed a b).
Proof. frame_prim. Qed.
Lemma frame_load_borrowedMut a : frame (load_borrowedMut a).
Proof. frame_prim. Qed.
Lemma frame_store_borrowedMut a b : frame (store_borrowedMut a b).
Proof. frame_prim. Qed.
Lemma frame_new_ p : frame (new_ p).
Proof. frame_prim. Qed.
Lemma frame_delete_ p : frame (delete_ p).
Proof. destruct p; frame_prim. Qed.
Lemma frame_deref_resource p : frame (deref_resource p).
Proof. destruct p; frame_prim. Qed.
Lemma frame_emit e : frame (emit e).
Proof. frame_prim. Qed.
Lemma frame_storage_unique a : frame (storage_unique a).
Proof. frame_prim. Qed.
Lemma frame_storage_borrowed a : frame (storage_borrowed a).
Proof. frame_prim. Qed.
Lemma frame_storage_borrowedMut a : frame (storage_borrowedMut a).
Proof. frame_prim. Qed.
Lemma frame_end_borrowed a : frame (end_borrowed a).
Proof. frame_prim. Qed.
Lemma frame_end_borrowedMut a : frame (end_borrowedMut a).
Proof. frame_prim. Qed.
Lemma frame_Borrowed_get_owner_ a : frame (Borrowed_get_owner_ a).
Proof. frame_prim. Qed.
Lemma frame_Borrowed_set_owner_ a o : frame (Borrowed_set_owner_ a o).
Proof. frame_prim. Qed.
Lemma frame_Borrowed_get_data a : frame (Borrowed_get_data a).
Proof. frame_prim. Qed.
Lemma frame_Borrowed_set_data a p : frame (Borrowed_set_data a p).
Proof. frame_prim. Qed.
Lemma frame_BorrowedMut_get_owner_ a : frame (BorrowedMut_get_owner_ a).
Proof. frame_prim. Qed.
Lemma frame_BorrowedMut_set_owner_ a o : frame (BorrowedMut_set_owner_ a o).
Proof. frame_prim. Qed.
Lemma frame_BorrowedMut_get_data a : frame (BorrowedMut_get_data a).
Proof. frame_prim. Qed.
Lemma frame_BorrowedMut_set_data a p : frame (BorrowedMut_set_data a p).
Proof. frame_prim. Qed.

Create HintDb frame discriminated.
#[export] Hint Resolve frame_ret frame_throw frame_undefined frame_deref
  frame_load_unique frame_get_data frame_get_immutable_borrows
  frame_get_mutable_borrowed frame_is_borrowed
  frame_load_borrowed frame_store_borrowed
  frame_load_borrowedMut frame_store_borrowedMut
  frame_new_ frame_delete_ frame_deref_resource frame_emit
  frame_storage_unique frame_storage_borrowed frame_storage_borrowedMut
  frame_end_borrowed frame_end_borrowedMut
  frame_Borrowed_get_owner_ frame_Borrowed_set_owner_
  frame_Borrowed_get_data frame_Borrowed_set_data
  frame_BorrowedMut_get_owner_ frame_BorrowedMut_set_owner_
  frame_BorrowedMut_get_data frame_BorrowedMut_set_data : frame.

(** Direct access, read-only or not, and the accessors of the handles
    change no owner. *)
Ltac frame_steps :=
  repeat first
    [ solve [auto with frame]
    | apply frame_bind; [|intros ?]
    | apply frame_noexcept
    | apply frame_discard
    | match goal with
      | |- frame (if ?c then _ else _) => destruct c
      | |- frame (match ?c with _ => _ end) => destruct c
      end ].

Lemma frame_Unique_arrow a : frame (Unique_arrow a).
Proof. unfold Unique_arrow. frame_steps. Qed.
Lemma frame_Unique_get a : frame (Unique_get a).
Proof. unfold Unique_get. frame_steps. Qed.
Lemma frame_Unique_star a : frame (Unique_star a).
Proof. unfold Unique_star. frame_steps. Qed.
Lemma frame_Unique_arrow_const a : frame (Unique_arrow_const a).
Proof. unfold Unique_arrow_const. frame_steps. Qed.
Lemma frame_Unique_get_const a : frame (Unique_get_const a).
Proof. unfold Unique_get_const. frame_steps. Qed.
Lemma frame_Unique_star_const a : frame (Unique_star_const a).
Proof. unfold Unique_star_const. frame_steps. Qed.
Lemma frame_Unique_bool a : frame (Unique_bool a).
Proof. unfold Unique_bool. frame_steps. Qed.

(** ** Calls on storage that holds no live owner *)

Lemma dangling_Unique_dtor w a :
  uniques w !! a = None → Unique_dtor a w = (Undefined, w).
Proof. intros H. unfold Unique_dtor. by cxx_run. Qed.

Lemma occupied_Unique_move_ctor w this other u :
  uniques w !! this = Some u → Unique_move_ctor this other w = (Undefined, w).
Proof. intros H. unfold Unique_move_ctor. by cxx_run. Qed.

Lemma dangling_Unique_move_ctor w this other :
  uniques w !! this = None → uniques w !! other = None →
  Unique_move_ctor this other w = (Undefined, w).
Proof. intros H1 H2. unfold Unique_move_ctor. by cxx_run. Qed.

Lemma dangling_Unique_move_assign_this w this other :
  this ≠ other → uniques w !! this = None →
  Unique_move_assign this other w = (Undefined, w).
Proof. intros Hne H. unfold Unique_move_assign. by cxx_run. Qed.

Lemma dangling_Unique_move_assign_other w this other u :
  this ≠ other → uniques w !! this = Some u → uniques w !! other = None →
  Unique_move_assign this other w =
    if borrowed u then (Throw MoveIntoWithActiveBorrows, w) else (Undefined, w).
Proof.
  intros Hne H1 H2. unfold Unique_move_assign, borrowed.
  destruct u as [d n b]. cxx_run. destruct ((0 <? n) || b); by cxx_run.
Qed.

(** ** Invariants of the borrow state *)

Lemma borrowed_true u :
  borrowed u = true ↔ 0 < Unique.immutable_borrows u ∨ Unique.mutable_borrowed u = true.
Proof. unfold borrowed. by rewrite orb_true_iff, Z.ltb_lt. Qed.

Lemma borrowed_false u :
  borrowed u = false ↔ Unique.immutable_borrows u <= 0 ∧ Unique.mutable_borrowed u = false.
Proof. unfold borrowed. by rewrite orb_false_iff, Z.ltb_ge. Qed.

(** A property of owners that holds of a new owner and is kept by the four
    transitions of the borrow state holds of every owner after every call,
    whatever the call and whether it returns or throws. *)
Section Invariant.
Context (P : Unique.t → Prop).
Context (P_new : ∀ p, P (Unique.mk p 0 false)).
Context (P_acquire_shared : ∀ u,
  P u → Unique.mutable_borrowed u = false → Unique.immutable_borrows u < INT_MAX →
  P (Unique.set_immutable_borrows (Unique.immutable_borrows u + 1) u)).
Context (P_release_shared : ∀ u,
  P u → 0 < Unique.immutable_borrows u →
  P (Unique.set_immutable_borrows (Unique.immutable_borrows u - 1) u)).
Context (P_acquire_exclusive : ∀ u,
  P u → borrowed u = false → P (Unique.set_mutable_borrowed true u)).
Context (P_release_exclusive : ∀ u,
  P u → Unique.mutable_borrowed u = true →
  P (Unique.set_mutable_borrowed false u)).

Lemma all_owners_ext w w' :
  uniques w' = uniques w → all_owners P w → all_owners P w'.
Proof. unfold all_owners. by intros ->. Qed.

Lemma all_owners_insert w a u :
  all_owners P w → P u → all_owners P (upd_uniques <[a := u]> w).
Proof.
  intros Hw Hu b x. cbn. rewrite lookup_insert. case_decide; [|by apply Hw].
  by intros [= <-].
Qed.

Lemma all_owners_insert_history w a u f :
  all_owners P w → P u →
  all_owners P (upd_history f (upd_uniques <[a := u]> w)).
Proof. intros Hw Hu. by apply (all_owners_insert w a u). Qed.

Lemma all_owners_delete w a :
  all_owners P w → all_owners P (upd_uniques (delete a) w).
Proof.
  intros Hw b x. cbn. rewrite lookup_delete. case_decide; [done|by apply Hw].
Qed.

Lemma all_owners_empty : all_owners P empty_world.
Proof. intros a u. cbn. by rewrite lookup_empty. Qed.

Lemma keeps_frame {A} (m : M World A) : frame m → keeps P m.
Proof. intros Hm w r w' Hw E. apply (all_owners_ext w); [by eapply Hm|done]. Qed.

Lemma keeps_bind {A B} (m : M World A) (k : A → M World B) :
  keeps P m → (∀ x, keeps P (k x)) → keeps P (bind m k).
Proof.
  intros Hm Hk w r w' Hw. unfold bind.
  destruct (m w) as [[x| | |] w1] eqn:E; intros H.
  - eapply (Hk x w1); [by eapply Hm|done].
  - simplify_eq. by eapply Hm.
  - simplify_eq. by eapply Hm.
  - simplify_eq. by eapply Hm.
Qed.

Lemma keeps_noexcept {A} (m : M World A) : keeps P m → keeps P (noexcept m).
Proof.
  intros Hm w r w' Hw. unfold noexcept.
  destruct (m w) as [[x| | |] w1] eqn:E; intros H; simplify_eq; by eapply Hm.
Qed.

Lemma keeps_acquireImmutableBorrow a : keeps P (acquireImmutableBorrow a).
Proof.
  intros w r w' Hw. destruct (uniques w !! a) as [u|] eqn:Hu.
  - rewrite (acquireImmutableBorrow_eq _ _ _ Hu).
    destruct (Unique.mutable_borrowed u) eqn:Hb; [by intros [= <- <-]|].
    destruct (int_incr _) as [n'|] eqn:E; intros [= <- <-]; [|done].
    apply int_incr_Some in E as [-> ?].
    apply all_owners_insert_history; [done|]. apply P_acquire_shared; [by eapply Hw|done..].
  - rewrite dangling_acquireImmutableBorrow by done. by intros [= <- <-].
Qed.

Lemma keeps_releaseBorrowImmutable a : keeps P (releaseBorrowImmutable a).
Proof.
  intros w r w' Hw. destruct (uniques w !! a) as [u|] eqn:Hu.
  - rewrite (releaseBorrowImmutable_eq _ _ _ Hu).
    destruct (Z.leb_spec (Unique.immutable_borrows u) 0); intros [= <- <-]; [done|].
    apply all_owners_insert_history; [done|]. apply P_release_shared; [by eapply Hw|done].
  - rewrite dangling_releaseBorrowImmutable by done. by intros [= <- <-].
Qed.

Lemma keeps_acquireMutableBorrow a : keeps P (acquireMutableBorrow a).
Proof.
  intros w r w' Hw. destruct (uniques w !! a) as [u|] eqn:Hu.
  - rewrite (acquireMutableBorrow_eq _ _ _ Hu).
    destruct (borrowed u) eqn:Hb; intros [= <- <-]; [done|].
    apply all_owners_insert_history; [done|]. apply P_acquire_exclusive; [by eapply Hw|done].
  - rewrite dangling_acquireMutableBorrow by done. by intros [= <- <-].
Qed.

Lemma keeps_releaseMutableBorrow a : keeps P (releaseMutableBorrow a).
Proof.
  intros w r w' Hw. destruct (uniques w !! a) as [u|] eqn:Hu.
  - rewrite (releaseMutableBorrow_eq _ _ _ Hu).
    destruct (Unique.mutable_borrowed u) eqn:Hb; intros [= <- <-]; [|done].
    apply all_owners_insert_history; [done|]. apply P_release_exclusive; [by eapply Hw|done].
  - rewrite dangling_releaseMutableBorrow by done. by intros [= <- <-].
Qed.

Lemma keeps_Unique_ctor a p : keeps P (Unique_ctor a p).
Proof.
  apply keeps_bind; [apply keeps_frame, frame_storage_unique|].
  intros _ w r w' Hw [= <- <-]. by apply all_owners_insert.
Qed.

Lemma keeps_Unique_dtor a : keeps P (Unique_dtor a).
Proof.
  unfold Unique_dtor.
  apply keeps_bind; [apply keeps_frame, frame_is_borrowed|].
  intros [|].
  - apply keeps_bind; [|intros _; apply keeps_frame, frame_throw].
    intros w r w' Hw [= <- <-]. by apply all_owners_delete.
  - apply keeps_bind; [apply keeps_frame, frame_get_data|]. intros d.
    apply keeps_bind; [apply keeps_frame, frame_delete_|]. intros _.
    intros w r w' Hw [= <- <-]. by apply all_owners_delete.
Qed.

(** A transfer leaves the source's members at the destination and a new
    owner's members, without resource, at the source. *)
Lemma keeps_Unique_move_ctor this other : keeps P (Unique_move_ctor this other).
Proof.
  intros w r w' Hw.
  destruct (uniques w !! this) as [u|] eqn:Hu.
  { rewrite (occupied_Unique_move_ctor _ _ _ _ Hu). by intros [= <- <-]. }
  destruct (uniques w !! other) as [v|] eqn:Hv; cycle 1.
  { rewrite dangling_Unique_move_ctor by done. by intros [= <- <-]. }
  rewrite (Unique_move_ctor_eq _ _ _ _ Hu Hv).
  destruct (borrowed v); intros [= <- <-]; [done|].
  apply (all_owners_ext
           (upd_uniques <[this := v]> (upd_uniques <[other := empty_unique]> w)));
    [done|].
  apply all_owners_insert; [|by eapply Hw].
  apply all_owners_insert; [done|apply P_new].
Qed.

Lemma keeps_Unique_move_assign this other : keeps P (Unique_move_assign this other).
Proof.
  intros w r w' Hw.
  destruct (decide (this = other)) as [->|Hne].
  { rewrite Unique_move_assign_self. by intros [= <- <-]. }
  destruct (uniques w !! this) as [u|] eqn:Hu; cycle 1.
  { rewrite dangling_Unique_move_assign_this by done. by intros [= <- <-]. }
  destruct (uniques w !! other) as [v|] eqn:Hv; cycle 1.
  { rewrite (dangling_Unique_move_assign_other _ _ _ _ Hne Hu Hv).
    by destruct (borrowed u); intros [= <- <-]. }
  rewrite (Unique_move_assign_eq _ _ _ Hu _ _ Hv Hne).
  assert (Hmoved : ∀ f, all_owners P (upd_uniques
            (λ m, <[other := empty_unique]> (<[this := v]> m)) (upd_heap f w))).
  { intros f.
    apply (all_owners_ext
             (upd_uniques <[other := empty_unique]> (upd_uniques <[this := v]> w)));
      [done|].
    apply all_owners_insert; [|apply P_new].
    apply all_owners_insert; [done|by eapply Hw]. }
  destruct (borrowed u); [by intros [= <- <-]|].
  destruct (borrowed v); [by intros [= <- <-]|].
  destruct (Unique.data u) as [q|].
  - case_decide; intros [= <- <-]; [apply Hmoved|done].
  - intros [= <- <-]. apply (Hmoved (λ h, h)).
Qed.

Ltac keeps_steps :=
  repeat first
    [ solve [auto using keeps_acquireImmutableBorrow, keeps_releaseBorrowImmutable,
               keeps_acquireMutableBorrow, keeps_releaseMutableBorrow,
               keeps_Unique_ctor, keeps_Unique_dtor,
               keeps_Unique_move_ctor, keeps_Unique_move_assign]
    | solve [apply keeps_frame; frame_steps]
    | apply keeps_bind; [|intros ?]
    | apply keeps_noexcept
    | match goal with
      | |- keeps _ (if ?c then _ else _) => destruct c
      | |- keeps _ (match ?c with _ => _ end) => destruct c
      end ].

Lemma keeps_exec c : keeps P (exec c).
Proof.
  destruct c; cbn [exec];
    unfold borrow, borrow_mut, Borrowed_ctor, Borrowed_copy_ctor,
      Borrowed_copy_assign, Borrowed_dtor, BorrowedMut_ctor,
      BorrowedMut_move_ctor, BorrowedMut_move_assign, BorrowedMut_dtor,
      BorrowedMut_release;
    first
      [ solve [keeps_steps]
      | solve [apply keeps_frame;
               first [apply frame_new_ | apply frame_discard];
               auto using frame_Unique_arrow, frame_Unique_arrow_const,
                 frame_Unique_star, frame_Unique_star_const, frame_Unique_get,
                 frame_Unique_get_const, frame_Unique_bool] ].
Qed.

Lemma run_all_owners cs : ∀ w, all_owners P w → Forall (all_owners P) (run cs w).
Proof.
  induction cs as [|c cs IH]; intros w Hw; cbn [run]; [constructor|].
  destruct (exec c w) as [[[]| | |] w'] eqn:E; try constructor;
    try (by eapply keeps_exec); apply IH; by eapply keeps_exec.
Qed.

Lemma reachable_all_owners w : reachable w → all_owners P w.
Proof.
  intros [cs [->|H]%elem_of_cons]; [apply all_owners_empty|].
  eapply Forall_forall; [apply run_all_owners, all_owners_empty|done].
Qed.

End Invariant.

(** The borrow-state invariant is such a property. *)
Lemma borrow_inv_new p : borrow_inv (Unique.mk p 0 false).
Proof. unfold borrow_inv; cbn. split; [intros [? ?]; done | lia]. Qed.

Lemma borrow_inv_acquire_shared u :
  borrow_inv u → Unique.mutable_borrowed u = false →
  Unique.immutable_borrows u < INT_MAX →
  borrow_inv (Unique.set_immutable_borrows (Unique.immutable_borrows u + 1) u).
Proof.
  intros [_ ?] Hb _. unfold borrow_inv; cbn. rewrite Hb.
  split; [intros [? ?]; done | lia].
Qed.

Lemma borrow_inv_release_shared u :
  borrow_inv u → 0 < Unique.immutable_borrows u →
  borrow_inv (Unique.set_immutable_borrows (Unique.immutable_borrows u - 1) u).
Proof.
  intros [Hx ?] ?. unfold borrow_inv; cbn.
  split; [intros [? ?]; apply Hx; split; [done | lia] | lia].
Qed.

Lemma borrow_inv_acquire_exclusive u :
  borrow_inv u → borrowed u = false →
  borrow_inv (Unique.set_mutable_borrowed true u).
Proof.
  intros [_ ?] [? _]%borrowed_false. unfold borrow_inv; cbn.
  split; [intros [? ?]; lia | lia].
Qed.

Lemma borrow_inv_release_exclusive u :
  borrow_inv u → Unique.mutable_borrowed u = true →
  borrow_inv (Unique.set_mutable_borrowed false u).
Proof.
  intros [_ ?] _. unfold borrow_inv; cbn. split; [intros [? ?]; done | lia].
Qed.

Lemma run_inv cs w : world_inv w → Forall world_inv (run cs w).
Proof.
  apply run_all_owners;
    auto using borrow_inv_new, borrow_inv_acquire_shared,
      borrow_inv_release_shared, borrow_inv_acquire_exclusive,
      borrow_inv_release_exclusive.
Qed.

Lemma world_inv_empty : world_inv empty_world.
Proof. apply all_owners_empty. Qed.

Lemma reachable_inv w : reachable w → world_inv w.
Proof.
  intros [cs [->|H]%elem_of_cons]; [apply world_inv_empty|].
  eapply Forall_forall; [apply run_inv, world_inv_empty|done].
Qed.

(** So is being a value of [int]: the counter, an integer of the model,
    never leaves the range of the type it has in the program. *)
Lemma counter_is_int w a u :
  reachable w → uniques w !! a = Some u →
  INT_MIN <= Unique.immutable_borrows u <= INT_MAX.
Proof.
  intros Hr Hu.
  refine (reachable_all_owners
            (λ u, INT_MIN <= Unique.immutable_borrows u <= INT_MAX)
            _ _ _ _ _ w Hr a u Hu); cbn; unfold INT_MIN, INT_MAX; intros; lia.
Qed.

(** At [INT_MAX] the increment has no defined result. *)
Lemma acquireImmutableBorrow_overflow w a u :
  uniques w !! a = Some u →
  Unique.mutable_borrowed u = false → Unique.immutable_borrows u = INT_MAX →
  acquireImmutableBorrow a w = (Undefined, w).
Proof.
  intros Hu Hb Hn. by rewrite (acquireImmutableBorrow_eq _ _ _ Hu), Hb, Hn.
Qed.

(** ** Theorems *)

(** Every call keeps the borrow-state invariant, from any store that has
    it, whether the call returns or throws. *)
Lemma every_call_keeps_invariant c w r w' :
  world_inv w → exec c w = (r, w') → world_inv w'.
Proof.
  apply (keeps_exec borrow_inv);
    auto using borrow_inv_new, borrow_inv_acquire_shared,
      borrow_inv_release_shared, borrow_inv_acquire_exclusive,
      borrow_inv_release_exclusive.
Qed.

(** The shared count reaches [INT_MAX] by acquisitions alone. *)
Lemma acquire_shared_repeatedly a n : ∀ w u,
  uniques w !! a = Some u → Unique.mutable_borrowed u = false →
  Unique.immutable_borrows u + Z.of_nat n <= INT_MAX →
  ∃ w', w' ∈ w :: run (replicate n (CAcquireImmutableBorrow a)) w
        ∧ uniques w' !! a
          = Some (Unique.set_immutable_borrows
                    (Unique.immutable_borrows u + Z.of_nat n) u).
Proof.
  induction n as [|n IH]; intros w u Hu Hf Hle.
  - exists w. split; [left|]. rewrite Hu. destruct u as [d c f]. cbn.
    by rewrite Z.add_0_r.
  - cbn [replicate run exec].
    rewrite (acquireImmutableBorrow_eq _ _ _ Hu), Hf, int_incr_lt by lia.
    set (u1 := Unique.set_immutable_borrows (Unique.immutable_borrows u + 1) u).
    set (w1 := upd_history _ _).
    destruct (IH w1 u1) as (w' & Hin & Hw').
    + apply lookup_insert_eq.
    + done.
    + unfold u1. cbn. lia.
    + exists w'. split; [by right|]. rewrite Hw'. unfold u1.
      destruct u as [d c f]. unfold Unique.set_immutable_borrows. cbn.
      do 2 f_equal. lia.
Qed.

(** One acquisition more than the counter holds is not carried out. *)
Lemma acquire_shared_overflows a n : ∀ w u,
  uniques w !! a = Some u → Unique.mutable_borrowed u = false →
  Unique.immutable_borrows u <= INT_MAX →
  INT_MAX < Unique.immutable_borrows u + Z.of_nat n →
  (length (run (replicate n (CAcquireImmutableBorrow a)) w) < n)%nat.
Proof.
  induction n as [|n IH]; intros w u Hu Hf Hle Hlt; [lia|].
  cbn [replicate run exec].
  rewrite (acquireImmutableBorrow_eq _ _ _ Hu), Hf. unfold int_incr.
  destruct (Z.ltb_spec (Unique.immutable_borrows u) INT_MAX); [|cbn; lia].
  cbn [length]. apply ->Nat.succ_lt_mono.
  apply (IH _ (Unique.set_immutable_borrows (Unique.immutable_borrows u + 1) u)).
  - apply lookup_insert_eq.
  - done.
  - cbn. lia.
  - cbn. lia.
Qed.

Lemma INT_MAX_nat : ∃ n : nat, Z.of_nat n = INT_MAX.
Proof. exists (Z.to_nat INT_MAX). apply Z2Nat.id. unfold INT_MAX. lia. Qed.

(** A run of calls that all return or throw has a store after each. *)
Lemma run_length cs : ∀ w,
  run_where returns_or_throws cs w → length (run cs w) = length cs.
Proof.
  induction cs as [|c cs IH]; intros w; cbn [run run_where]; [done|].
  unfold returns_or_throws. intros [Hc Hcs].
  destruct (exec c w) as [[[]| | |] w']; try done; cbn [length];
    by rewrite IH.
Qed.

(** C1, as stated, fails.  An owner is constructed and a shared borrow is
    acquired [INT_MAX] times; every call returns, and the count is
    [INT_MAX].  The next [acquireImmutableBorrow] increments the [int]
    beyond its range: the call has no defined behaviour, and there is no
    borrow state after it of which the invariant could hold.  (Where the
    increment wraps, as it does on the usual machines, the count is
    [INT_MIN], a negative count, and the owner then grants an exclusive
    borrow.) *)
Lemma invariant_as_stated_fails :
  (∃ cs w, w ∈ run cs empty_world
           ∧ Forall (λ c, c ∈ tracking_calls 1) (tail cs)
           ∧ uniques w !! 1%positive = Some (Unique.mk None INT_MAX false)
           ∧ acquireImmutableBorrow 1 w = (Undefined, w))
  ∧ ¬ invariant_as_stated.
Proof.
  destruct INT_MAX_nat as [n Hn].
  set (w0 := mkWorld {[1%positive := Unique.mk None 0 false]} ∅ ∅ ∅ []).
  assert (E0 : exec (CUnique 1 None) empty_world = (Ok tt, w0))
    by (vm_compute; reflexivity).
  assert (H0 : uniques w0 !! 1%positive = Some (Unique.mk None 0 false))
    by reflexivity.
  assert (Htr : ∀ k, Forall (λ c, c ∈ tracking_calls 1)
                       (replicate k (CAcquireImmutableBorrow 1))).
  { intros k. apply Forall_replicate. apply list_elem_of_here. }
  split.
  - destruct (acquire_shared_repeatedly 1 n w0 _ H0 eq_refl) as (w & Hin & Hw);
      [cbn; lia|].
    exists (CUnique 1 None :: replicate n (CAcquireImmutableBorrow 1)), w.
    cbn [run tail]. rewrite E0. split; [done|]. split; [apply Htr|].
    cbn in Hw. rewrite Hn in Hw. split; [done|].
    by apply (acquireImmutableBorrow_overflow _ _ _ Hw).
  - intros H.
    destruct (H 1%positive None (replicate (S n) (CAcquireImmutableBorrow 1))
                (Htr (S n))) as [Hlen _].
    cbn [run] in Hlen. rewrite E0 in Hlen. cbn [length] in Hlen.
    assert (length (run (replicate (S n) (CAcquireImmutableBorrow 1)) w0) < S n)%nat
      as Hover.
    { apply (acquire_shared_overflows 1 (S n) w0 _ H0 eq_refl);
        cbn [Unique.immutable_borrows]; unfold INT_MAX in *; lia. }
    rewrite length_replicate in Hlen. lia.
Qed.

(** C1, amended.  Whatever calls a client makes, in whatever order, on
    whatever objects, starting with no object at all (so that every owner
    is there by construction), as long as every call returns or throws:
    there is a store after each call, and in it no owner has the exclusive
    flag set together with a positive shared count, no count is negative
    and none is above [INT_MAX].  That bound is where it ends: on an owner
    in such a store [acquireImmutableBorrow] returns or throws exactly when
    the exclusive flag is set or the count is below [INT_MAX]; the other
    three borrow-tracking methods always do. *)
Theorem borrow_state_invariant (cs : list Call) :
  run_where returns_or_throws cs empty_world →
  length (run cs empty_world) = length cs
  ∧ Forall (λ w, ∀ a u, uniques w !! a = Some u →
                  ¬ (Unique.mutable_borrowed u = true
                     ∧ 0 < Unique.immutable_borrows u)
                  ∧ 0 <= Unique.immutable_borrows u <= INT_MAX
                  ∧ (returns_or_throws (CAcquireImmutableBorrow a) w
                     ↔ Unique.mutable_borrowed u = true
                       ∨ Unique.immutable_borrows u < INT_MAX)
                  ∧ returns_or_throws (CReleaseBorrowImmutable a) w
                  ∧ returns_or_throws (CAcquireMutableBorrow a) w
                  ∧ returns_or_throws (CReleaseMutableBorrow a) w)
           (run cs empty_world).
Proof.
  intros Hcs. split; [by apply run_length|].
  apply Forall_forall. intros w Hw a u Hu.
  assert (Hr : reachable w) by (exists cs; by right).
  destruct (reachable_inv w Hr a u Hu) as [Hx Hn].
  pose proof (counter_is_int w a u Hr Hu) as [_ Hmax].
  split; [done|]. split; [done|].
  unfold returns_or_throws. cbn [exec].
  rewrite (acquireImmutableBorrow_eq _ _ _ Hu),
    (releaseBorrowImmutable_eq _ _ _ Hu), (acquireMutableBorrow_eq _ _ _ Hu),
    (releaseMutableBorrow_eq _ _ _ Hu).
  split; [|split; [|split]].
  - destruct (Unique.mutable_borrowed u); [by split; [left|]|].
    unfold int_incr. destruct (Z.ltb_spec (Unique.immutable_borrows u) INT_MAX).
    + by split; [right|].
    + split; [done|]. intros [?|?]; [done|lia].
  - by destruct (Unique.immutable_borrows u <=? 0).
  - by destruct (borrowed u).
  - by destruct (Unique.mutable_borrowed u).
Qed.


(** ** Transfer of ownership *)

Lemma nonzero_borrowed u :
  0 <= Unique.immutable_borrows u →
  (nonzero_borrow_state u ↔ borrowed u = true).
Proof.
  intros Hn. rewrite borrowed_true. unfold nonzero_borrow_state.
  split; (intros [?|?]; [left; lia | by right]).
Qed.

Lemma both_borrowed_made :
  last (run both_borrowed_calls empty_world) = Some both_borrowed.
Proof. vm_compute. reflexivity. Qed.

(** C3, as stated, fails.  Two owners are made and each is borrowed once.
    The source (2) then has a nonzero borrow state and move assignment
    throws, but with the destination kind, not the source kind: the
    destination is checked first.  (And an owner assigned to itself is not
    checked at all.) *)
Lemma relocate_as_stated_fails :
  last (run both_borrowed_calls empty_world) = Some both_borrowed
  ∧ Unique_move_assign 1 2 both_borrowed
    = (Throw MoveIntoWithActiveBorrows, both_borrowed)
  ∧ Unique_move_assign 1 1 both_borrowed = (Ok tt, both_borrowed)
  ∧ ¬ relocate_as_stated.
Proof.
  assert (E : Unique_move_assign 1 2 both_borrowed
              = (Throw MoveIntoWithActiveBorrows, both_borrowed))
    by (vm_compute; reflexivity).
  split; [exact both_borrowed_made|]. split; [exact E|].
  split; [apply Unique_move_assign_self|]. intros H.
  destruct (H both_borrowed 1%positive 2%positive
              (Unique.mk (Some 5%positive) 1 false)
              (Unique.mk (Some 6%positive) 1 false)) as [Hsrc _].
  - done.
  - reflexivity.
  - reflexivity.
  - cbn. lia.
  - cbn. lia.
  - cbn. set_solver.
  - destruct Hsrc as [w' Hw']; [left; cbn; lia|].
    rewrite E in Hw'. discriminate.
Qed.

(** C3, amended.  For two distinct live owners whose counts are not
    negative, move assignment checks the destination first: it throws
    the destination kind whenever the destination has a nonzero borrow
    state; it throws the source kind whenever the source has one and the
    destination has none; in both cases nothing has changed.  Otherwise,
    the destination's old resource being null or live, it deletes that
    resource and succeeds: the destination holds the source's resource with
    a zeroed borrow state, the source is empty, and no other owner has
    changed.  A live owner assigned to itself is not checked: whatever its
    borrow state, the assignment returns and nothing has changed. *)
Theorem relocate_checks_destination_first w this u :
  uniques w !! this = Some u →
  (∀ other v,
     this ≠ other → uniques w !! other = Some v →
     0 <= Unique.immutable_borrows u → 0 <= Unique.immutable_borrows v →
     (nonzero_borrow_state u →
        Unique_move_assign this other w = (Throw MoveIntoWithActiveBorrows, w))
     ∧ (¬ nonzero_borrow_state u → nonzero_borrow_state v →
        Unique_move_assign this other w = (Throw MoveFromWithActiveBorrows, w))
     ∧ (¬ nonzero_borrow_state u → ¬ nonzero_borrow_state v →
        deletable (Unique.data u) w →
        ∃ w', Unique_move_assign this other w = (Ok tt, w')
              ∧ uniques w' !! this = Some (Unique.mk (Unique.data v) 0 false)
              ∧ uniques w' !! other = Some empty_unique
              ∧ (∀ a, a ≠ this → a ≠ other → uniques w' !! a = uniques w !! a)
              ∧ heap w' = freed (Unique.data u) (heap w)))
  ∧ Unique_move_assign this this w = (Ok tt, w).
Proof.
  intros Hu. split; [|apply Unique_move_assign_self].
  intros other v Hne Hv Hnu Hnv.
  pose proof (nonzero_borrowed u Hnu) as Nu.
  pose proof (nonzero_borrowed v Hnv) as Nv.
  rewrite (Unique_move_assign_eq _ _ _ Hu _ _ Hv Hne).
  split; [|split].
  - intros Hx. apply Nu in Hx. by rewrite Hx.
  - intros Hu' Hx. apply Nv in Hx. rewrite Hx.
    destruct (borrowed u) eqn:Bu; [|done]. exfalso. by apply Hu', Nu.
  - intros Hu' Hv' Hdel.
    destruct (borrowed u) eqn:Bu; [exfalso; by apply Hu', Nu|].
    destruct (borrowed v) eqn:Bv; [exfalso; by apply Hv', Nv|].
    assert (v = Unique.mk (Unique.data v) 0 false) as Ev.
    { apply borrowed_false in Bv as [? ?].
      destruct v as [d n b]; cbn in *. f_equal; [lia|done]. }
    destruct (Unique.data u) as [q|] eqn:Hd; cbn in Hdel.
    + rewrite decide_True by done. eexists; split; [done|]. cbn.
      rewrite lookup_insert_ne, lookup_insert_eq, lookup_insert_eq by done.
      repeat split; [by rewrite <- Ev|].
      intros a ? ?. by rewrite !lookup_insert_ne.
    + eexists; split; [done|]. cbn.
      rewrite lookup_insert_ne, lookup_insert_eq, lookup_insert_eq by done.
      repeat split; [by rewrite <- Ev|].
      intros a ? ?. by rewrite !lookup_insert_ne.
Qed.

(** ** Acquiring, destroying, direct access *)

(** C4.  [acquireMutableBorrow] on a live owner throws if and only if the
    shared count is positive or the exclusive flag is set; every such
    failure carries the one code [MutableBorrowOfImmutablyBorrowed],
    whichever of the two causes it has, and changes nothing; otherwise the
    call sets the flag, and only the flag of that owner. *)
Theorem acquire_exclusive_one_combined_check w a u :
  uniques w !! a = Some u →
  (fails (acquireMutableBorrow a) w
     ↔ 0 < Unique.immutable_borrows u ∨ Unique.mutable_borrowed u = true)
  ∧ (0 < Unique.immutable_borrows u ∨ Unique.mutable_borrowed u = true →
     acquireMutableBorrow a w = (Throw MutableBorrowOfImmutablyBorrowed, w))
  ∧ (¬ (0 < Unique.immutable_borrows u ∨ Unique.mutable_borrowed u = true) →
     ∃ w', acquireMutableBorrow a w = (Ok tt, w')
           ∧ uniques w' = <[a := Unique.set_mutable_borrowed true u]> (uniques w)
           ∧ history w' = history w ++ [AcquiredMutable a]).
Proof.
  intros Hu. rewrite <- borrowed_true.
  rewrite (acquireMutableBorrow_eq _ _ _ Hu). unfold fails, throws.
  rewrite (acquireMutableBorrow_eq _ _ _ Hu).
  destruct (borrowed u); repeat split; try done.
  - by eexists _, _.
  - by intros (? & ? & ?).
  - intros _. by eexists.
Qed.

(** C5.  The destructor of a live owner throws if and only if the shared
    count is positive or the exclusive flag is set, with the code
    [DestroyWithActiveBorrows] and without deleting the resource or writing
    anything: the store after the throw is the store before it without the
    owner, whose lifetime the destructor call has ended.  Otherwise it
    deletes the resource (a live one, or none) and the owner is gone.  In a
    store where the owner has one shared borrow, held by the handle [h], the
    destructor throws; in the same store, once the handle is destroyed, it
    succeeds. *)
Theorem destroy_refused_while_borrowed w a u :
  uniques w !! a = Some u →
  (fails (Unique_dtor a) w
     ↔ 0 < Unique.immutable_borrows u ∨ Unique.mutable_borrowed u = true)
  ∧ (0 < Unique.immutable_borrows u ∨ Unique.mutable_borrowed u = true →
     Unique_dtor a w = (Throw DestroyWithActiveBorrows, upd_uniques (delete a) w))
  ∧ (¬ (0 < Unique.immutable_borrows u ∨ Unique.mutable_borrowed u = true) →
     deletable (Unique.data u) w →
     ∃ w', Unique_dtor a w = (Ok tt, w')
           ∧ uniques w' = delete a (uniques w)
           ∧ heap w' = freed (Unique.data u) (heap w))
  ∧ (∀ h b,
       borroweds w !! h = Some b → Borrowed.owner_ b = Some a →
       Unique.immutable_borrows u = 1 → Unique.mutable_borrowed u = false →
       deletable (Unique.data u) w →
       Unique_dtor a w = (Throw DestroyWithActiveBorrows, upd_uniques (delete a) w)
       ∧ ∃ w1 w2, Borrowed_dtor h w = (Ok tt, w1)
                  ∧ Unique_dtor a w1 = (Ok tt, w2)
                  ∧ uniques w2 = delete a (uniques w)
                  ∧ heap w2 = freed (Unique.data u) (heap w)).
Proof.
  intros Hu. rewrite <- borrowed_true.
  assert (Hok : ∀ w0 u0, uniques w0 !! a = Some u0 → borrowed u0 = false →
            deletable (Unique.data u0) w0 →
            ∃ w', Unique_dtor a w0 = (Ok tt, w')
                  ∧ uniques w' = delete a (uniques w0)
                  ∧ heap w' = freed (Unique.data u0) (heap w0)).
  { intros w0 u0 H0 Hb Hd. rewrite (Unique_dtor_eq _ _ _ H0), Hb.
    destruct (Unique.data u0) as [q|]; cbn in Hd |- *.
    - rewrite decide_True by done. by eexists.
    - by eexists. }
  split; [|split; [|split]].
  - unfold fails, throws. rewrite (Unique_dtor_eq _ _ _ Hu).
    destruct (borrowed u) eqn:Hb; split; try done.
    + by eexists _, _.
    + intros (e & w' & H). destruct (Unique.data u) as [q|]; [|done].
      by case_decide.
  - intros Hb. by rewrite (Unique_dtor_eq _ _ _ Hu), Hb.
  - intros Hb Hdel. apply Hok; [done| |done]. by destruct (borrowed u).
  - intros h b Hh Ho Hn Hf Hdel. split.
    { rewrite (Unique_dtor_eq _ _ _ Hu). unfold borrowed. by rewrite Hn, Hf. }
    set (u1 := Unique.set_immutable_borrows (Unique.immutable_borrows u - 1) u).
    set (w1 := upd_borroweds (delete h)
                 (upd_history (λ l, l ++ [ReleasedImmutable a])
                    (upd_uniques <[a := u1]> w))).
    assert (E1 : Borrowed_dtor h w = (Ok tt, w1)).
    { unfold Borrowed_dtor, bind at 1, noexcept, bind at 1, Borrowed_get_owner_.
      unfold bind at 1, load_borrowed. rewrite Hh. cbn [ret]. rewrite Ho.
      unfold bind at 1. cbn [deref ret].
      rewrite (releaseBorrowImmutable_eq _ _ _ Hu).
      replace (Unique.immutable_borrows u <=? 0) with false by (by rewrite Hn).
      done. }
    destruct (Hok w1 u1) as (w2 & E2 & HU & HH).
    + cbn. by rewrite lookup_insert_eq.
    + unfold borrowed, u1. cbn. by rewrite Hn, Hf.
    + done.
    + exists w1, w2. repeat split; [done..| |done].
      rewrite HU. cbn. by rewrite delete_insert_eq.
Qed.

(** C6.  Direct read-only access to a live owner ([operator->], [operator*]
    and [get], all [const]) throws exactly when the exclusive flag is set,
    with the code [AccessWhileMutablyBorrowed]; whatever the shared count,
    with the flag clear it returns the resource.  Direct mutating access
    throws [AccessWhileBorrowed] whenever the shared count is positive or
    the flag is set. *)
Theorem direct_access_gates w a u :
  uniques w !! a = Some u →
  ((fails (Unique_arrow_const a) w ↔ Unique.mutable_borrowed u = true)
   ∧ (fails (Unique_star_const a) w ↔ Unique.mutable_borrowed u = true)
   ∧ (fails (Unique_get_const a) w ↔ Unique.mutable_borrowed u = true))
  ∧ (Unique.mutable_borrowed u = true →
     Unique_arrow_const a w = (Throw AccessWhileMutablyBorrowed, w)
     ∧ Unique_star_const a w = (Throw AccessWhileMutablyBorrowed, w)
     ∧ Unique_get_const a w = (Throw AccessWhileMutablyBorrowed, w))
  ∧ (Unique.mutable_borrowed u = false →
     Unique_arrow_const a w = (Ok (Unique.data u), w)
     ∧ Unique_get_const a w = (Ok (Unique.data u), w)
     ∧ ∀ q, Unique.data u = Some q → q ∈ heap w →
            Unique_star_const a w = (Ok q, w))
  ∧ (0 < Unique.immutable_borrows u ∨ Unique.mutable_borrowed u = true →
     Unique_arrow a w = (Throw AccessWhileBorrowed, w)
     ∧ Unique_star a w = (Throw AccessWhileBorrowed, w)
     ∧ Unique_get a w = (Throw AccessWhileBorrowed, w)).
Proof.
  intros Hu. unfold fails, throws.
  rewrite (Unique_arrow_const_eq _ _ _ Hu), (Unique_star_const_eq _ _ _ Hu),
    (Unique_get_const_eq _ _ _ Hu), (Unique_arrow_eq _ _ _ Hu),
    (Unique_star_eq _ _ _ Hu), (Unique_get_eq _ _ _ Hu).
  rewrite <- borrowed_true.
  assert (Hstar : ∀ e w', deref_resource (Unique.data u) w ≠ (Throw e, w')).
  { intros e w'. destruct (Unique.data u) as [q|]; cbn; [|done].
    by case_decide. }
  assert (Hmut : borrowed u = true →
            (if borrowed u then (Throw AccessWhileBorrowed, w)
             else (Ok (Unique.data u), w)) = (Throw AccessWhileBorrowed, w)
            ∧ (if borrowed u then (Throw AccessWhileBorrowed, w)
               else deref_resource (Unique.data u) w)
              = (Throw AccessWhileBorrowed, w)
            ∧ (if borrowed u then (Throw AccessWhileBorrowed, w)
               else (Ok (Unique.data u), w)) = (Throw AccessWhileBorrowed, w))
    by (by intros ->).
  destruct (Unique.mutable_borrowed u) eqn:Hb.
  - split; [|split; [|split]]; [|done|done|exact Hmut].
    split; [|split]; (split; [done | intros _; by eexists _, _]).
  - split; [|split; [|split]]; [|done| |exact Hmut].
    + split; [|split]; (split; [|done]).
      * by intros (? & ? & ?).
      * intros (e & w' & H). by destruct (Hstar e w').
      * by intros (? & ? & ?).
    + intros _. split; [done|split; [done|]]. intros q Hq Hlive.
      rewrite Hq. cbn. by rewrite decide_True.
Qed.

(** ** Round trips *)

(** C7.  For every live owner whose shared count is not negative (as it
    never is, by C1): where [acquireImmutableBorrow] succeeds,
    [releaseBorrowImmutable] after it succeeds too and the shared count is
    what it was before the pair; where [acquireMutableBorrow] succeeds,
    [releaseMutableBorrow] after it succeeds too and the exclusive flag is
    what it was.  (Every owner is then as before the pair.)  The acquires do
    succeed: the shared one with the flag clear and the count below
    [INT_MAX], the exclusive one with no borrow at all. *)
Theorem acquire_release_round_trip w a u :
  uniques w !! a = Some u →
  0 <= Unique.immutable_borrows u →
  (∀ w1, acquireImmutableBorrow a w = (Ok tt, w1) →
     ∃ w2 u2, releaseBorrowImmutable a w1 = (Ok tt, w2)
              ∧ uniques w2 !! a = Some u2
              ∧ Unique.immutable_borrows u2 = Unique.immutable_borrows u
              ∧ uniques w2 = uniques w)
  ∧ (∀ w1, acquireMutableBorrow a w = (Ok tt, w1) →
     ∃ w2 u2, releaseMutableBorrow a w1 = (Ok tt, w2)
              ∧ uniques w2 !! a = Some u2
              ∧ Unique.mutable_borrowed u2 = Unique.mutable_borrowed u
              ∧ uniques w2 = uniques w)
  ∧ (Unique.mutable_borrowed u = false → Unique.immutable_borrows u < INT_MAX →
     ∃ w1, acquireImmutableBorrow a w = (Ok tt, w1))
  ∧ (borrowed u = false → ∃ w1, acquireMutableBorrow a w = (Ok tt, w1)).
Proof.
  intros Hu Hn.
  split; [|split; [|split]].
  - intros w1. rewrite (acquireImmutableBorrow_eq _ _ _ Hu).
    destruct (Unique.mutable_borrowed u) eqn:Hb; [done|].
    destruct (int_incr _) as [n'|] eqn:E; [|done].
    apply int_incr_Some in E as [-> _]. intros [= <-].
    erewrite releaseBorrowImmutable_eq; cycle 1.
    { cbn. apply lookup_insert_eq. }
    cbn [Unique.immutable_borrows Unique.set_immutable_borrows].
    destruct (Z.leb_spec (Unique.immutable_borrows u + 1) 0); [lia|].
    assert (Unique.set_immutable_borrows (Unique.immutable_borrows u + 1 - 1)
              (Unique.set_immutable_borrows (Unique.immutable_borrows u + 1) u) = u)
      as Eu.
    { destruct u as [d n b]. unfold Unique.set_immutable_borrows; cbn.
      f_equal. lia. }
    rewrite Eu. eexists _, u. split; [done|]. cbn.
    rewrite insert_insert_eq, insert_id by done. done.
  - intros w1. rewrite (acquireMutableBorrow_eq _ _ _ Hu).
    destruct (borrowed u) eqn:Hb; [done|]. intros [= <-].
    erewrite releaseMutableBorrow_eq; cycle 1.
    { cbn. apply lookup_insert_eq. }
    cbn [Unique.mutable_borrowed Unique.set_mutable_borrowed].
    apply borrowed_false in Hb as [_ Hb].
    assert (Unique.set_mutable_borrowed false (Unique.set_mutable_borrowed true u) = u)
      as Eu.
    { destruct u as [d n b]. unfold Unique.set_mutable_borrowed; cbn in *.
      by rewrite Hb. }
    rewrite Eu. eexists _, u. split; [done|]. cbn.
    rewrite insert_insert_eq, insert_id by done. done.
  - intros Hb Hlt. rewrite (acquireImmutableBorrow_eq _ _ _ Hu), Hb.
    rewrite int_incr_lt by done. by eexists.
  - intros Hb. rewrite (acquireMutableBorrow_eq _ _ _ Hu), Hb. by eexists.
Qed.

(** ** Handles *)

(** C8.  Two distinct shared handles refer to distinct live owners; [this]
    holds one unit of its owner's count, and the owner of [other] can be
    acquired again (its flag is clear, its count below [INT_MAX]).  Then
    copy assignment [this = other] succeeds; it has first released a unit
    of the old owner and then acquired one of the new owner, so the old
    owner's count is one less and the new owner's one more; [this] now
    refers to the owner and the resource of [other]; nothing else about the
    owners and [other] has changed. *)
Theorem reassign_moves_one_unit w this other b b' o o' u u' :
  this ≠ other →
  borroweds w !! this = Some b → borroweds w !! other = Some b' →
  Borrowed.owner_ b = Some o → Borrowed.owner_ b' = Some o' → o ≠ o' →
  uniques w !! o = Some u → uniques w !! o' = Some u' →
  0 < Unique.immutable_borrows u →
  Unique.mutable_borrowed u' = false → Unique.immutable_borrows u' < INT_MAX →
  ∃ w', Borrowed_copy_assign this other w = (Ok tt, w')
        ∧ uniques w' =
            <[o' := Unique.set_immutable_borrows (Unique.immutable_borrows u' + 1) u']>
              (<[o := Unique.set_immutable_borrows (Unique.immutable_borrows u - 1) u]>
                 (uniques w))
        ∧ borroweds w' = <[this := b']> (borroweds w)
        ∧ history w' = history w ++ [ReleasedImmutable o; AcquiredImmutable o'].
Proof.
  intros Hne Hb Hb' Ho Ho' Hoo Hu Hu' Hpos Hflag Hmax.
  unfold Borrowed_copy_assign, releaseBorrowImmutable, acquireImmutableBorrow.
  destruct w as [U B BM Hp Hs], b as [bo bd], b' as [bo' bd'],
    u as [d n f], u' as [d' n' f'].
  cbn in Hb, Hb', Ho, Ho', Hu, Hu', Hpos, Hflag, Hmax. subst bo bo' f'.
  cxx_run.
  destruct (Z.leb_spec n 0); [lia|].
  rewrite int_decr_pos by done. cxx_run.
  rewrite int_incr_lt by done. cxx_run.
  eexists; split; [done|]. cbn.
  split; [|split]; [done| |by rewrite <- app_assoc].
  by rewrite !insert_insert_eq.
Qed.

Lemma Unique_move_assign_Ok_source w0 w dst src :
  dst ≠ src → Unique_move_assign dst src w0 = (Ok tt, w) →
  uniques w !! src = Some empty_unique.
Proof.
  intros Hne.
  destruct (uniques w0 !! dst) as [u|] eqn:Hu; cycle 1.
  { by rewrite dangling_Unique_move_assign_this. }
  destruct (uniques w0 !! src) as [v|] eqn:Hv; cycle 1.
  { rewrite (dangling_Unique_move_assign_other _ _ _ _ Hne Hu Hv).
    by destruct (borrowed u). }
  rewrite (Unique_move_assign_eq _ _ _ Hu _ _ Hv Hne).
  destruct (borrowed u); [done|]. destruct (borrowed v); [done|].
  destruct (Unique.data u) as [q|]; [case_decide; [|done]|];
    intros [= <-]; cbn; apply lookup_insert_eq.
Qed.

Lemma Unique_move_ctor_Ok_source w0 w dst src :
  Unique_move_ctor dst src w0 = (Ok tt, w) →
  uniques w !! src = Some empty_unique.
Proof.
  destruct (uniques w0 !! dst) as [u|] eqn:Hu.
  { by rewrite (occupied_Unique_move_ctor _ _ _ _ Hu). }
  destruct (uniques w0 !! src) as [v|] eqn:Hv; cycle 1.
  { by rewrite dangling_Unique_move_ctor. }
  rewrite (Unique_move_ctor_eq _ _ _ _ Hu Hv).
  destruct (borrowed v); [done|]. intros [= <-]. cbn.
  rewrite lookup_insert_ne by congruence. apply lookup_insert_eq.
Qed.

(** C9.  An owner [src] has been emptied by a completed transfer, by move
    assignment to another owner or by move construction; [h] is free
    storage for a handle.  Then the owner has no resource and no borrow,
    and [borrow()] on it succeeds: no error of any kind is raised, the
    shared count is one, and [get()] on the handle returns the null
    pointer. *)
Theorem borrow_from_emptied_owner w0 w dst src h :
  (dst ≠ src ∧ Unique_move_assign dst src w0 = (Ok tt, w))
  ∨ Unique_move_ctor dst src w0 = (Ok tt, w) →
  borroweds w !! h = None →
  uniques w !! src = Some (Unique.mk None 0 false)
  ∧ ∃ w', borrow src h w = (Ok tt, w')
          ∧ uniques w' !! src = Some (Unique.mk None 1 false)
          ∧ borroweds w' !! h = Some (Borrowed.mk (Some src) None)
          ∧ Borrowed_get h w' = (Ok None, w').
Proof.
  intros Hmove Hh.
  assert (Hsrc : uniques w !! src = Some empty_unique).
  { destruct Hmove as [[Hne H]|H];
      eauto using Unique_move_assign_Ok_source, Unique_move_ctor_Ok_source. }
  split; [exact Hsrc|]. unfold empty_unique in Hsrc.
  unfold borrow, Borrowed_ctor, acquireImmutableBorrow, Borrowed_get.
  destruct w as [U B BM Hp Hs]. cbn in Hh, Hsrc. cxx_run.
  change (int_incr 0) with (Some 1). cxx_run.
  eexists; split; [done|]. cbn. by rewrite !lookup_insert_eq.
Qed.

(** What the destructor and move assignment of an exclusive handle do when
    the back-reference of the handle released is live. *)
Lemma BorrowedMut_dtor_eq w this bt :
  borrowedMuts w !! this = Some bt →
  holds_exclusive w (BorrowedMut.owner_ bt) = true →
  BorrowedMut_dtor this w =
    (Ok tt, mkWorld (clear_flag (BorrowedMut.owner_ bt) (uniques w))
              (borroweds w) (delete this (borrowedMuts w)) (heap w)
              (history w ++ released (BorrowedMut.owner_ bt))).
Proof.
  intros Ht Xt.
  unfold BorrowedMut_dtor, BorrowedMut_release, releaseMutableBorrow.
  destruct w as [U B BM Hp Hi], bt as [[a|] dt]; cbn in Ht, Xt |- *.
  - destruct (U !! a) as [[d n f]|] eqn:Ha; [|done]. cbn in Xt. subst f.
    cxx_run. do 2 f_equal.
    rewrite <- (insert_id U a _ Ha) at 2. by rewrite alter_insert_eq.
  - cxx_run. by rewrite app_nil_r.
Qed.

Lemma BorrowedMut_move_assign_eq w this other bt bs :
  this ≠ other →
  borrowedMuts w !! this = Some bt → borrowedMuts w !! other = Some bs →
  holds_exclusive w (BorrowedMut.owner_ bt) = true →
  BorrowedMut_move_assign this other w =
    (Ok tt, mkWorld (clear_flag (BorrowedMut.owner_ bt) (uniques w))
              (borroweds w)
              (<[other := BorrowedMut.mk None None]>
                 (<[this := bs]> (borrowedMuts w)))
              (heap w)
              (history w ++ released (BorrowedMut.owner_ bt))).
Proof.
  intros Hne Ht Hs Xt.
  unfold BorrowedMut_move_assign, BorrowedMut_release, releaseMutableBorrow.
  destruct w as [U B BM Hp Hi], bt as [[a|] dt], bs as [ob ds];
    cbn in Ht, Hs, Xt |- *.
  - destruct (U !! a) as [[d n f]|] eqn:Ha; [|done]. cbn in Xt. subst f.
    cxx_run. do 2 f_equal.
    + rewrite <- (insert_id U a _ Ha) at 2. by rewrite alter_insert_eq.
    + by rewrite !insert_insert_eq.
  - cxx_run. do 2 f_equal; [by rewrite !insert_insert_eq|by rewrite app_nil_r].
Qed.

(** Releasing one owner leaves the flag of another as it was. *)
Lemma holds_exclusive_clear_flag w w' o o' :
  (∀ a, o = Some a → o' ≠ Some a) →
  uniques w' = clear_flag o (uniques w) →
  holds_exclusive w o' = true → holds_exclusive w' o' = true.
Proof.
  intros Hd HU Hx. destruct o' as [b|]; [|done].
  unfold holds_exclusive in *. rewrite HU.
  destruct o as [a|]; [|done]. cbn.
  rewrite lookup_alter_ne; [done|]. intros ->. by eapply Hd.
Qed.

(** C10.  [this] and [other] are two distinct exclusive handles, each with
    a live back-reference (or none), and not both to the same owner (as any
    two handles are that a client has made who destroys no borrowed owner:
    [exclusive_handles_in_runs]).  Then
    move assignment [this = std::move(other)] succeeds.  It has released
    the owner [this] referred to, if any, and no other; [this] now has the
    owner and the resource [other] had, and [other] has null for both.
    Destroying [other] afterwards changes no owner and releases nothing;
    destroying [this] releases the owner taken over.  Over the three calls
    each of the two acquisitions is released once: the history gains one
    release for each, and both flags end clear. *)
Theorem exclusive_handle_move_assign w this other bt bs :
  this ≠ other →
  borrowedMuts w !! this = Some bt → borrowedMuts w !! other = Some bs →
  holds_exclusive w (BorrowedMut.owner_ bt) = true →
  holds_exclusive w (BorrowedMut.owner_ bs) = true →
  (∀ a, BorrowedMut.owner_ bt = Some a → BorrowedMut.owner_ bs ≠ Some a) →
  ∃ w1 w2 w3,
    BorrowedMut_move_assign this other w = (Ok tt, w1)
    ∧ uniques w1 = clear_flag (BorrowedMut.owner_ bt) (uniques w)
    ∧ history w1 = history w ++ released (BorrowedMut.owner_ bt)
    ∧ borrowedMuts w1 =
        <[other := BorrowedMut.mk None None]> (<[this := bs]> (borrowedMuts w))
    ∧ BorrowedMut_dtor other w1 = (Ok tt, w2)
    ∧ uniques w2 = uniques w1
    ∧ history w2 = history w1
    ∧ borrowedMuts w2 = <[this := bs]> (delete other (borrowedMuts w))
    ∧ BorrowedMut_dtor this w2 = (Ok tt, w3)
    ∧ uniques w3 =
        clear_flag (BorrowedMut.owner_ bs)
          (clear_flag (BorrowedMut.owner_ bt) (uniques w))
    ∧ history w3 =
        history w ++ released (BorrowedMut.owner_ bt)
                  ++ released (BorrowedMut.owner_ bs)
    ∧ (∀ a, BorrowedMut.owner_ bt = Some a ∨ BorrowedMut.owner_ bs = Some a →
            ∃ u, uniques w3 !! a = Some u ∧ Unique.mutable_borrowed u = false).
Proof.
  intros Hne Ht Hs Xt Xs Hdist.
  rewrite (BorrowedMut_move_assign_eq _ _ _ _ _ Hne Ht Hs Xt).
  destruct w as [U B BM Hp Hi]. cbn [uniques borroweds borrowedMuts heap history] in *.
  eexists _, _, _. split; [reflexivity|]. cbn [uniques history borrowedMuts].
  do 3 (split; [reflexivity|]).
  erewrite (BorrowedMut_dtor_eq _ other); cycle 1.
  { cbn. apply lookup_insert_eq. }
  { done. }
  cbn [uniques borroweds borrowedMuts heap history BorrowedMut.owner_
       clear_flag released].
  split; [reflexivity|]. cbn [uniques history borrowedMuts].
  split; [done|]. split; [by rewrite app_nil_r|].
  assert (delete other (<[other:=BorrowedMut.mk None None]> (<[this:=bs]> BM))
          = <[this:=bs]> (delete other BM)) as ->.
  { rewrite delete_insert_eq. by rewrite delete_insert_ne. }
  split; [done|].
  erewrite (BorrowedMut_dtor_eq _ this); cycle 1.
  { cbn. apply lookup_insert_eq. }
  { by eapply (holds_exclusive_clear_flag (mkWorld U B BM Hp Hi)). }
  cbn [uniques borroweds borrowedMuts heap history].
  split; [reflexivity|]. cbn [uniques history].
  split; [done|]. split; [by rewrite app_nil_r, app_assoc|].
  intros c Hc.
  destruct bt as [ot dt], bs as [os ds]; cbn in Xt, Xs, Hdist, Hc |- *.
  destruct Hc as [-> | ->].
  - cbn in Xt. destruct (U !! c) as [[d n f]|] eqn:Hc; [|done].
    assert (os ≠ Some c) by by apply Hdist.
    destruct os as [b|]; cbn.
    + rewrite lookup_alter_ne by congruence. rewrite lookup_alter_eq, Hc.
      by eexists.
    + rewrite lookup_alter_eq, Hc. by eexists.
  - cbn in Xs. destruct (U !! c) as [[d n f]|] eqn:Hc; [|done].
    cbn. rewrite lookup_alter_eq.
    destruct ot as [a|]; cbn.
    + rewrite lookup_alter_ne, Hc; [by eexists|].
      intros ->. by eapply Hdist.
    + rewrite Hc. by eexists.
Qed.

(** ** Exclusive handles never alias *)

Lemma flags_kept_refl w : flags_kept w w.
Proof. by split. Qed.

Lemma flags_kept_trans w1 w2 w3 :
  flags_kept w1 w2 → flags_kept w2 w3 → flags_kept w1 w3.
Proof. intros [E1 H1] [E2 H2]. split; [congruence|auto]. Qed.

Lemma flags_kept_frame w w' :
  uniques w' = uniques w → borrowedMuts w' = borrowedMuts w → flags_kept w w'.
Proof. intros E1 E2. split; [done|]. intros a. unfold holds_exclusive. by rewrite E1. Qed.

Ltac flags_prim :=
  intros [? ? ? ? ?] ? ?; cxx_unfold;
  repeat case_match; intros; simplify_eq;
  first [ apply flags_kept_refl | by apply flags_kept_frame ].

Lemma keeps_flags_ret {A} (x : A) : keeps_flags (ret x).
Proof. flags_prim. Qed.
Lemma keeps_flags_throw {A} e : keeps_flags (throw (A := A) e).
Proof. flags_prim. Qed.
Lemma keeps_flags_undefined {A} : keeps_flags (undefined (A := A)).
Proof. flags_prim. Qed.

Lemma keeps_flags_bind {A B} (m : M World A) (k : A → M World B) :
  keeps_flags m → (∀ x, keeps_flags (k x)) → keeps_flags (bind m k).
Proof.
  intros Hm Hk w r w'. unfold bind.
  destruct (m w) as [[x| | |] w1] eqn:E; intros H.
  - eapply flags_kept_trans; [by eapply Hm|by eapply Hk].
  - simplify_eq. by eapply Hm.
  - simplify_eq. by eapply Hm.
  - simplify_eq. by eapply Hm.
Qed.

Lemma keeps_flags_noexcept {A} (m : M World A) :
  keeps_flags m → keeps_flags (noexcept m).
Proof.
  intros Hm w r w'. unfold noexcept.
  destruct (m w) as [[x| | |] w1] eqn:E; intros H; simplify_eq; by eapply Hm.
Qed.

Lemma keeps_flags_discard {A} (m : M World A) :
  keeps_flags m → keeps_flags (discard m).
Proof. intros Hm. apply keeps_flags_bind; [done|]. intros x. apply keeps_flags_ret. Qed.

Lemma keeps_flags_deref p : keeps_flags (deref p).
Proof. destruct p; flags_prim. Qed.
Lemma keeps_flags_load_unique a : keeps_flags (load_unique a).
Proof. flags_prim. Qed.
Lemma keeps_flags_load_borrowed a : keeps_flags (load_borrowed a).
Proof. flags_prim. Qed.
Lemma keeps_flags_store_borrowed a b : keeps_flags (store_borrowed a b).
Proof. flags_prim. Qed.
Lemma keeps_flags_load_borrowedMut a : keeps_flags (load_borrowedMut a).
Proof. flags_prim. Qed.
Lemma keeps_flags_new_ p : keeps_flags (new_ p).
Proof. flags_prim. Qed.
Lemma keeps_flags_delete_ p : keeps_flags (delete_ p).
Proof. destruct p; flags_prim. Qed.
Lemma keeps_flags_deref_resource p : keeps_flags (deref_resource p).
Proof. destruct p; flags_prim. Qed.
Lemma keeps_flags_emit e : keeps_flags (emit e).
Proof. flags_prim. Qed.
Lemma keeps_flags_storage_unique a : keeps_flags (storage_unique a).
Proof. flags_prim. Qed.
Lemma keeps_flags_storage_borrowed a : keeps_flags (storage_borrowed a).
Proof. flags_prim. Qed.
Lemma keeps_flags_storage_borrowedMut a : keeps_flags (storage_borrowedMut a).
Proof. flags_prim. Qed.
Lemma keeps_flags_end_borrowed a : keeps_flags (end_borrowed a).
Proof. flags_prim. Qed.

(** Writing a member other than the flag, or setting the flag. *)
Lemma keeps_flags_store_same_flag a (f : Unique.t → Unique.t) :
  (∀ u, Unique.mutable_borrowed u = true → Unique.mutable_borrowed (f u) = true) →
  keeps_flags (bind (load_unique a) (λ u, store_unique a (f u))).
Proof.
  intros Hf [U B BM Hp Hi] r w'. cxx_unfold.
  destruct (U !! a) as [u|] eqn:Hu; intros [= <- <-]; [|apply flags_kept_refl].
  split; [done|]. intros b. unfold holds_exclusive. cbn.
  rewrite lookup_insert. case_decide; [|done]. subst b. rewrite Hu. apply Hf.
Qed.

Lemma keeps_flags_set_data a p : keeps_flags (set_data a p).
Proof. by apply (keeps_flags_store_same_flag a (Unique.set_data p)). Qed.
Lemma keeps_flags_set_immutable_borrows a n : keeps_flags (set_immutable_borrows a n).
Proof. by apply (keeps_flags_store_same_flag a (Unique.set_immutable_borrows n)). Qed.
Lemma keeps_flags_set_mutable_borrowed_true a : keeps_flags (set_mutable_borrowed a true).
Proof. by apply (keeps_flags_store_same_flag a (Unique.set_mutable_borrowed true)). Qed.

Ltac flags_steps :=
  repeat first
    [ solve [auto using keeps_flags_ret, keeps_flags_throw, keeps_flags_undefined,
               keeps_flags_deref, keeps_flags_load_unique,
               keeps_flags_load_borrowed, keeps_flags_store_borrowed,
               keeps_flags_load_borrowedMut, keeps_flags_new_,
               keeps_flags_delete_, keeps_flags_deref_resource,
               keeps_flags_emit, keeps_flags_storage_unique,
               keeps_flags_storage_borrowed, keeps_flags_storage_borrowedMut,
               keeps_flags_end_borrowed, keeps_flags_set_data,
               keeps_flags_set_immutable_borrows,
               keeps_flags_set_mutable_borrowed_true]
    | apply keeps_flags_bind; [|intros ?]
    | apply keeps_flags_noexcept
    | apply keeps_flags_discard
    | match goal with
      | |- keeps_flags (if ?c then _ else _) => destruct c
      | |- keeps_flags (match ?c with _ => _ end) => destruct c
      end ].

Lemma keeps_flags_acquireImmutableBorrow a : keeps_flags (acquireImmutableBorrow a).
Proof.
  unfold acquireImmutableBorrow, get_mutable_borrowed, get_immutable_borrows.
  flags_steps.
Qed.

Lemma keeps_flags_releaseBorrowImmutable a : keeps_flags (releaseBorrowImmutable a).
Proof. unfold releaseBorrowImmutable, get_immutable_borrows. flags_steps. Qed.

Lemma keeps_flags_acquireMutableBorrow a : keeps_flags (acquireMutableBorrow a).
Proof.
  unfold acquireMutableBorrow, is_borrowed, get_mutable_borrowed,
    get_immutable_borrows.
  flags_steps.
Qed.

(** Construction, destruction and transfer write only owners whose flag is
    clear. *)
Lemma flags_kept_outside w w' :
  borrowedMuts w' = borrowedMuts w →
  (∀ a, holds_exclusive w (Some a) = true → uniques w' !! a = uniques w !! a) →
  flags_kept w w'.
Proof.
  intros E H. split; [done|]. intros a Ha. unfold holds_exclusive in *.
  by rewrite (H a Ha).
Qed.

Lemma holds_exclusive_borrowed w a u :
  uniques w !! a = Some u → holds_exclusive w (Some a) = true → borrowed u = true.
Proof.
  unfold holds_exclusive. intros -> H. apply borrowed_true. by right.
Qed.

Lemma keeps_flags_Unique_ctor a p : keeps_flags (Unique_ctor a p).
Proof.
  intros [U B BM Hp Hi] r w'. unfold Unique_ctor. cxx_unfold.
  destruct (U !! a) as [u|] eqn:Hu; intros [= <- <-]; [apply flags_kept_refl|].
  apply flags_kept_outside; [done|]. intros b. unfold holds_exclusive. cbn.
  intros Hb. rewrite lookup_insert_ne; [done|]. intros <-. by rewrite Hu in Hb.
Qed.

(** The destructor of an owner that is not borrowed takes no set flag
    away. *)
Lemma flags_kept_Unique_dtor a w r w' :
  spares_borrowed (CUniqueDtor a) w →
  Unique_dtor a w = (r, w') → flags_kept w w'.
Proof.
  cbn [spares_borrowed]. intros Hs.
  destruct (uniques w !! a) as [u|] eqn:Hu; cycle 1.
  { rewrite dangling_Unique_dtor by done. intros [= <- <-]. apply flags_kept_refl. }
  rewrite (Unique_dtor_eq _ _ _ Hu), (Hs u eq_refl).
  assert (Hgone : ∀ f, flags_kept w (upd_uniques (delete a) (upd_heap f w))).
  { intros f. apply flags_kept_outside; [done|]. intros b Hx. cbn.
    rewrite lookup_delete_ne; [done|]. intros <-.
    pose proof (holds_exclusive_borrowed _ _ _ Hu Hx).
    specialize (Hs u eq_refl). congruence. }
  destruct (Unique.data u) as [q|].
  - case_decide; intros [= <- <-]; [|apply flags_kept_refl].
    apply (Hgone (λ h, h ∖ {[q]})).
  - intros [= <- <-]. apply (Hgone (λ h, h)).
Qed.

Lemma keeps_flags_Unique_move_ctor this other :
  keeps_flags (Unique_move_ctor this other).
Proof.
  intros w r w'.
  destruct (uniques w !! this) as [u|] eqn:Hu.
  { rewrite (occupied_Unique_move_ctor _ _ _ _ Hu). intros [= <- <-].
    apply flags_kept_refl. }
  destruct (uniques w !! other) as [v|] eqn:Hv; cycle 1.
  { rewrite dangling_Unique_move_ctor by done. intros [= <- <-].
    apply flags_kept_refl. }
  rewrite (Unique_move_ctor_eq _ _ _ _ Hu Hv).
  destruct (borrowed v) eqn:Hb; intros [= <- <-]; [apply flags_kept_refl|].
  apply flags_kept_outside; [done|]. intros b Hx. cbn.
  rewrite !lookup_insert_ne; [done| |].
  - intros <-. pose proof (holds_exclusive_borrowed _ _ _ Hv Hx). congruence.
  - intros <-. unfold holds_exclusive in Hx. by rewrite Hu in Hx.
Qed.

Lemma keeps_flags_Unique_move_assign this other :
  keeps_flags (Unique_move_assign this other).
Proof.
  intros w r w'.
  destruct (decide (this = other)) as [->|Hne].
  { rewrite Unique_move_assign_self. intros [= <- <-]. apply flags_kept_refl. }
  destruct (uniques w !! this) as [u|] eqn:Hu; cycle 1.
  { rewrite dangling_Unique_move_assign_this by done. intros [= <- <-].
    apply flags_kept_refl. }
  destruct (uniques w !! other) as [v|] eqn:Hv; cycle 1.
  { rewrite (dangling_Unique_move_assign_other _ _ _ _ Hne Hu Hv).
    destruct (borrowed u); intros [= <- <-]; apply flags_kept_refl. }
  rewrite (Unique_move_assign_eq _ _ _ Hu _ _ Hv Hne).
  destruct (borrowed u) eqn:Bu; [intros [= <- <-]; apply flags_kept_refl|].
  destruct (borrowed v) eqn:Bv; [intros [= <- <-]; apply flags_kept_refl|].
  assert (Hmoved : ∀ f, flags_kept w (upd_uniques
            (λ m, <[other := empty_unique]> (<[this := v]> m)) (upd_heap f w))).
  { intros f. apply flags_kept_outside; [done|]. intros b Hx. cbn.
    rewrite !lookup_insert_ne; [done| |].
    - intros <-. pose proof (holds_exclusive_borrowed _ _ _ Hu Hx). congruence.
    - intros <-. pose proof (holds_exclusive_borrowed _ _ _ Hv Hx). congruence. }
  destruct (Unique.data u) as [q|].
  - case_decide; intros [= <- <-]; [apply Hmoved|apply flags_kept_refl].
  - intros [= <- <-]. apply (Hmoved (λ h, h)).
Qed.

(** Where the flags are kept, the handles stay well. *)
Lemma exclusive_handles_ok_flags_kept w w' :
  flags_kept w w' → exclusive_handles_ok w → exclusive_handles_ok w'.
Proof.
  intros [E Hf] J h bm a Hh Ho. rewrite E in Hh.
  destruct (J h bm a Hh Ho) as [Hx Huniq]. split; [by apply Hf|].
  intros h' bm' Hh' Ho'. rewrite E in Hh'. by eapply Huniq.
Qed.

(** A handle is made on an owner whose flag was clear: no other handle
    refers to that owner. *)
Lemma exclusive_handles_ok_BorrowedMut_ctor this owner p w r w' :
  exclusive_handles_ok w → BorrowedMut_ctor this owner p w = (r, w') →
  exclusive_handles_ok w'.
Proof.
  intros J. unfold BorrowedMut_ctor, bind at 1, storage_borrowedMut.
  destruct (borrowedMuts w !! this) as [b0|] eqn:Hthis; [by intros [= <- <-]|].
  destruct owner as [a|]; [|by intros [= <- <-]].
  unfold bind at 1. cbn [deref ret]. unfold bind at 1.
  destruct (uniques w !! a) as [u|] eqn:Hu; cycle 1.
  { rewrite dangling_acquireMutableBorrow by done. by intros [= <- <-]. }
  rewrite (acquireMutableBorrow_eq _ _ _ Hu).
  destruct (borrowed u) eqn:Hb; [by intros [= <- <-]|].
  intros [= <- <-]. destruct w as [U B BM Hp Hi]. cbn in *.
  assert (Hfree : holds_exclusive (mkWorld U B BM Hp Hi) (Some a) = false).
  { cbn. rewrite Hu. by apply borrowed_false in Hb as [_ ->]. }
  intros h bm c. cbn. rewrite lookup_insert. case_decide as Hh.
  - subst h. intros [= <-] [= <-]. cbn. rewrite lookup_insert_eq. split; [done|].
    intros h' bm'. rewrite lookup_insert. case_decide; [done|].
    intros Hh' Ho'. destruct (J h' bm' a Hh' Ho') as [Hx _]. congruence.
  - intros Hbm Ho. destruct (J h bm c Hbm Ho) as [Hx Huniq].
    assert (c ≠ a) by (intros ->; congruence).
    split.
    + cbn in Hx |- *. by rewrite lookup_insert_ne.
    + intros h' bm'. rewrite lookup_insert. case_decide.
      * intros [= <-] [= ->]. done.
      * intros Hh' Ho'. by eapply Huniq.
Qed.

(** A handle made from another takes its place. *)
Lemma exclusive_handles_ok_BorrowedMut_move_ctor this other w r w' :
  exclusive_handles_ok w → BorrowedMut_move_ctor this other w = (r, w') →
  exclusive_handles_ok w'.
Proof.
  intros J. unfold BorrowedMut_move_ctor.
  destruct w as [U B BM Hp Hi].
  destruct (BM !! this) as [b0|] eqn:Hthis; [cxx_run; by intros [= <- <-]|].
  destruct (BM !! other) as [[os ds]|] eqn:Hother;
    [|cxx_run; by intros [= <- <-]].
  assert (this ≠ other) by congruence.
  cxx_run. intros [= <- <-].
  intros h bm c. cbn. rewrite !lookup_insert.
  repeat case_decide; simplify_eq; try (by intros [= <-]).
  - intros [= <-] Ho. cbn in Ho. subst os.
    destruct (J other _ c Hother eq_refl) as [Hx Huniq]. split; [done|].
    intros h' bm'. rewrite !lookup_insert.
    repeat case_decide; simplify_eq; try done; try (by intros [= <-]).
    intros Hh' Ho'. by pose proof (Huniq _ _ Hh' Ho').
  - intros Hbm Ho. destruct (J h bm c Hbm Ho) as [Hx Huniq]. split; [done|].
    intros h' bm'. rewrite !lookup_insert.
    repeat case_decide; simplify_eq; try (by intros [= <-]).
    + intros [= <-] Ho'. cbn in Ho'. subst os.
      by pose proof (Huniq _ _ Hother eq_refl).
    + intros Hh' Ho'. by eapply Huniq.
Qed.

Lemma holds_exclusive_uniques w w' o :
  uniques w' = uniques w → holds_exclusive w' o = holds_exclusive w o.
Proof. intros E. unfold holds_exclusive. by rewrite E. Qed.

(** The destructor releases the owner of the one handle that goes. *)
Lemma exclusive_handles_ok_BorrowedMut_dtor this w w' :
  exclusive_handles_ok w → BorrowedMut_dtor this w = (Ok tt, w') →
  exclusive_handles_ok w'.
Proof.
  intros J. destruct (borrowedMuts w !! this) as [bt|] eqn:Ht; cycle 1.
  { unfold BorrowedMut_dtor, BorrowedMut_release. cxx_run. done. }
  assert (Xt : holds_exclusive w (BorrowedMut.owner_ bt) = true).
  { destruct (BorrowedMut.owner_ bt) as [a|] eqn:Ho; [|done].
    by destruct (J this bt a Ht Ho). }
  rewrite (BorrowedMut_dtor_eq _ _ _ Ht Xt). intros [= <-].
  intros h bm c. cbn [borrowedMuts]. rewrite lookup_delete. case_decide; [done|].
  intros Hh Ho. destruct (J h bm c Hh Ho) as [Hx Huniq]. split.
  - eapply (holds_exclusive_clear_flag w _ (BorrowedMut.owner_ bt)); [|done..].
    intros a Ha Hc. simplify_eq. by pose proof (Huniq _ _ Ht Ha).
  - intros h' bm'. cbn [borrowedMuts]. rewrite lookup_delete.
    case_decide; [done|]. apply Huniq.
Qed.

(** Move assignment releases the owner of the target and hands the owner of
    the source to the target. *)
Lemma exclusive_handles_ok_BorrowedMut_move_assign this other w w' :
  exclusive_handles_ok w → BorrowedMut_move_assign this other w = (Ok tt, w') →
  exclusive_handles_ok w'.
Proof.
  intros J. destruct (decide (this = other)) as [->|Hne].
  { unfold BorrowedMut_move_assign. cxx_run. by intros [= <-]. }
  destruct (borrowedMuts w !! this) as [bt|] eqn:Ht; cycle 1.
  { unfold BorrowedMut_move_assign, BorrowedMut_release. cxx_run. done. }
  assert (Xt : holds_exclusive w (BorrowedMut.owner_ bt) = true).
  { destruct (BorrowedMut.owner_ bt) as [a|] eqn:Ho; [|done].
    by destruct (J this bt a Ht Ho). }
  destruct (borrowedMuts w !! other) as [bs|] eqn:Hs; cycle 1.
  { unfold BorrowedMut_move_assign, BorrowedMut_release, releaseMutableBorrow.
    destruct w as [U B BM Hp Hi], bt as [[a|] dt]; cbn in Ht, Hs, Xt.
    - destruct (U !! a) as [[d n f]|] eqn:Ha; [|done]. cbn in Xt. subst f.
      cxx_run. done.
    - cxx_run. done. }
  rewrite (BorrowedMut_move_assign_eq _ _ _ _ _ Hne Ht Hs Xt). intros [= <-].
  assert (Hkeep : ∀ c, holds_exclusive w (Some c) = true →
            BorrowedMut.owner_ bt ≠ Some c →
            ∀ B' BM' Hp' Hi',
              holds_exclusive
                (mkWorld (clear_flag (BorrowedMut.owner_ bt) (uniques w))
                   B' BM' Hp' Hi') (Some c) = true).
  { intros c Hc Hd B' BM' Hp' Hi'.
    eapply (holds_exclusive_clear_flag w _ (BorrowedMut.owner_ bt)); [|done..].
    intros a Ha [= ->]. done. }
  intros h bm c. cbn [borrowedMuts].
  destruct (decide (h = other)) as [->|Hho].
  { rewrite lookup_insert_eq. by intros [= <-]. }
  rewrite lookup_insert_ne by done.
  destruct (decide (h = this)) as [->|Hht].
  - rewrite lookup_insert_eq. intros [= <-] Ho.
    destruct (J other bs c Hs Ho) as [Hx Huniq]. split.
    + apply Hkeep; [done|]. intros Hc. by pose proof (Huniq _ _ Ht Hc).
    + intros h' bm'. cbn [borrowedMuts].
      destruct (decide (h' = other)) as [->|Hh'o].
      { rewrite lookup_insert_eq. by intros [= <-]. }
      rewrite lookup_insert_ne by done.
      destruct (decide (h' = this)) as [->|Hh't]; [done|].
      rewrite lookup_insert_ne by done.
      intros Hh' Ho'. by pose proof (Huniq _ _ Hh' Ho').
  - rewrite lookup_insert_ne by done. intros Hh Ho.
    destruct (J h bm c Hh Ho) as [Hx Huniq]. split.
    + apply Hkeep; [done|]. intros Hc. by pose proof (Huniq _ _ Ht Hc).
    + intros h' bm'. cbn [borrowedMuts].
      destruct (decide (h' = other)) as [->|Hh'o].
      { rewrite lookup_insert_eq. by intros [= <-]. }
      rewrite lookup_insert_ne by done.
      destruct (decide (h' = this)) as [->|Hh't].
      * rewrite lookup_insert_eq. intros [= <-] Ho'.
        by pose proof (Huniq _ _ Hs Ho').
      * rewrite lookup_insert_ne by done. apply Huniq.
Qed.

Lemma keeps_flags_exec_other c :
  match c with
  | CUniqueDtor _
  | CReleaseMutableBorrow _ | CBorrowMut _ _ | CBorrowedMut _ _ _
  | CBorrowedMutMove _ _ | CBorrowedMutMoveAssign _ _ | CBorrowedMutDtor _ => True
  | _ => keeps_flags (exec c)
  end.
Proof.
  destruct c; try exact I; cbn [exec];
    auto using keeps_flags_new_, keeps_flags_Unique_ctor,
      keeps_flags_Unique_move_ctor, keeps_flags_Unique_move_assign,
      keeps_flags_acquireImmutableBorrow, keeps_flags_releaseBorrowImmutable,
      keeps_flags_acquireMutableBorrow;
    unfold borrow, Borrowed_ctor, Borrowed_copy_ctor, Borrowed_copy_assign,
      Borrowed_dtor, Unique_arrow, Unique_arrow_const, Unique_star,
      Unique_star_const, Unique_get, Unique_get_const, Unique_bool,
      Borrowed_get_owner_, Borrowed_set_owner_, Borrowed_get_data,
      Borrowed_set_data, is_borrowed, get_data, get_immutable_borrows,
      get_mutable_borrowed;
    repeat first
      [ solve [auto using keeps_flags_acquireImmutableBorrow,
                 keeps_flags_releaseBorrowImmutable]
      | progress flags_steps ].
Qed.

(** Every call but a bare [releaseMutableBorrow] and the destruction of a
    borrowed owner keeps the handles well. *)
Lemma exclusive_handles_ok_exec c w r w' :
  exclusive_protocol c w → exclusive_handles_ok w →
  exec c w = (r, w') → continues r = true → exclusive_handles_ok w'.
Proof.
  intros [Hc Hs] J E Hr. pose proof (keeps_flags_exec_other c) as Hother.
  destruct c; try discriminate Hc; cbn [exec] in E;
    try (by eapply exclusive_handles_ok_flags_kept; [eapply Hother|]).
  - (* destructor *)
    by eapply exclusive_handles_ok_flags_kept; [eapply flags_kept_Unique_dtor|].
  - (* borrow_mut *)
    unfold borrow_mut, bind at 1, get_data, bind at 1, load_unique in E.
    destruct (uniques w !! this); [|by simplify_eq].
    cbn [ret] in E. by eapply exclusive_handles_ok_BorrowedMut_ctor.
  - by eapply exclusive_handles_ok_BorrowedMut_ctor.
  - by eapply exclusive_handles_ok_BorrowedMut_move_ctor.
  - assert (r = Ok tt) as ->.
    { unfold BorrowedMut_move_assign, noexcept in E.
      destruct r as [[]| | |]; try done.
      by repeat case_match; simplify_eq. }
    by eapply exclusive_handles_ok_BorrowedMut_move_assign.
  - assert (r = Ok tt) as ->.
    { unfold BorrowedMut_dtor, bind, noexcept, end_borrowedMut, modify in E.
      destruct r as [[]| | |]; try done.
      by repeat case_match; simplify_eq. }
    by eapply exclusive_handles_ok_BorrowedMut_dtor.
Qed.

Lemma exclusive_handles_ok_run cs :
  ∀ w, run_where exclusive_protocol cs w →
  exclusive_handles_ok w → Forall exclusive_handles_ok (run cs w).
Proof.
  induction cs as [|c cs IH]; intros w Hcs J; cbn [run]; [constructor|].
  cbn [run_where] in Hcs. destruct Hcs as [Hc Hcs].
  destruct (exec c w) as [[[]| | |] w'] eqn:E; [| |constructor..];
    (constructor; [|apply IH; [done|]]); by eapply exclusive_handles_ok_exec.
Qed.

(** In every store a client makes without a bare [releaseMutableBorrow] and
    without destroying a borrowed owner, two distinct exclusive handles are
    as C10 takes them to be: each holds the exclusive borrow of its owner,
    and they have not the same owner. *)
Lemma exclusive_handles_in_runs cs w this other bt bs :
  run_where exclusive_protocol cs empty_world →
  w ∈ empty_world :: run cs empty_world →
  this ≠ other →
  borrowedMuts w !! this = Some bt → borrowedMuts w !! other = Some bs →
  holds_exclusive w (BorrowedMut.owner_ bt) = true
  ∧ holds_exclusive w (BorrowedMut.owner_ bs) = true
  ∧ ∀ a, BorrowedMut.owner_ bt = Some a → BorrowedMut.owner_ bs ≠ Some a.
Proof.
  intros Hcs Hw Hne Ht Hs.
  assert (J : exclusive_handles_ok w).
  { apply elem_of_cons in Hw as [->|Hw].
    - intros h bm a. cbn. by rewrite lookup_empty.
    - eapply Forall_forall; [apply (exclusive_handles_ok_run cs _ Hcs)|done].
      intros h bm a. cbn. by rewrite lookup_empty. }
  split; [|split].
  - destruct (BorrowedMut.owner_ bt) as [a|] eqn:Ho; [|done].
    by destruct (J this bt a Ht Ho).
  - destruct (BorrowedMut.owner_ bs) as [a|] eqn:Ho; [|done].
    by destruct (J other bs a Hs Ho).
  - intros a Ha Hb. destruct (J this bt a Ht Ha) as [_ Huniq].
    by pose proof (Huniq _ _ Hs Hb).
Qed.

(** ** The theorems at concrete stores *)

Lemma borrow_state_invariant_witness :
  run_where returns_or_throws both_borrowed_calls empty_world
  ∧ length (run both_borrowed_calls empty_world) = length both_borrowed_calls
  ∧ Forall (λ w, ∀ a u, uniques w !! a = Some u →
                  ¬ (Unique.mutable_borrowed u = true
                     ∧ 0 < Unique.immutable_borrows u)
                  ∧ 0 <= Unique.immutable_borrows u <= INT_MAX
                  ∧ (returns_or_throws (CAcquireImmutableBorrow a) w
                     ↔ Unique.mutable_borrowed u = true
                       ∨ Unique.immutable_borrows u < INT_MAX)
                  ∧ returns_or_throws (CReleaseBorrowImmutable a) w
                  ∧ returns_or_throws (CAcquireMutableBorrow a) w
                  ∧ returns_or_throws (CReleaseMutableBorrow a) w)
           (run both_borrowed_calls empty_world).
Proof.
  assert (H : run_where returns_or_throws both_borrowed_calls empty_world)
    by (vm_compute; repeat split).
  split; [exact H|]. apply (borrow_state_invariant both_borrowed_calls H).
Defined.


Lemma relocate_checks_destination_first_witness :
  uniques two_owners !! 1%positive = Some (Unique.mk (Some 5%positive) 0 false)
  ∧ uniques two_owners !! 2%positive = Some (Unique.mk (Some 6%positive) 0 false)
  ∧ deletable (Some 5%positive) two_owners
  ∧ (∃ w', Unique_move_assign 1 2 two_owners = (Ok tt, w')
           ∧ uniques w' !! 1%positive = Some (Unique.mk (Some 6%positive) 0 false)
           ∧ uniques w' !! 2%positive = Some empty_unique
           ∧ (∀ a, a ≠ 1%positive → a ≠ 2%positive →
                   uniques w' !! a = uniques two_owners !! a)
           ∧ heap w' = freed (Some 5%positive) (heap two_owners))
  ∧ Unique_move_assign 1 1 two_owners = (Ok tt, two_owners).
Proof.
  assert (Hne : (1 ≠ 2)%positive) by discriminate.
  assert (Hdel : deletable (Some 5%positive) two_owners) by (cbn; set_solver).
  split; [reflexivity|]. split; [reflexivity|]. split; [exact Hdel|].
  destruct (relocate_checks_destination_first two_owners 1%positive
              (Unique.mk (Some 5%positive) 0 false) eq_refl)
    as [Hdistinct Hself].
  split; [|exact Hself].
  destruct (Hdistinct 2%positive (Unique.mk (Some 6%positive) 0 false)
              Hne eq_refl) as (_ & _ & Hok); [cbn; lia | cbn; lia |].
  apply Hok; [| |exact Hdel].
  - intros [H|H]; cbn in H; [lia|discriminate].
  - intros [H|H]; cbn in H; [lia|discriminate].
Defined.

Lemma acquire_exclusive_one_combined_check_witness :
  uniques both_borrowed !! 1%positive = Some (Unique.mk (Some 5%positive) 1 false)
  ∧ acquireMutableBorrow 1 both_borrowed
    = (Throw MutableBorrowOfImmutablyBorrowed, both_borrowed).
Proof.
  split; [reflexivity|].
  apply (acquire_exclusive_one_combined_check both_borrowed 1%positive
           (Unique.mk (Some 5%positive) 1 false) eq_refl).
  left. cbn. lia.
Defined.

Lemma destroy_refused_while_borrowed_witness :
  uniques both_borrowed !! 1%positive = Some (Unique.mk (Some 5%positive) 1 false)
  ∧ Unique_dtor 1 both_borrowed
    = (Throw DestroyWithActiveBorrows, upd_uniques (delete 1%positive) both_borrowed)
  ∧ ∃ w1 w2, Borrowed_dtor 11 both_borrowed = (Ok tt, w1)
             ∧ Unique_dtor 1 w1 = (Ok tt, w2)
             ∧ uniques w2 = delete 1%positive (uniques both_borrowed)
             ∧ heap w2 = freed (Some 5%positive) (heap both_borrowed).
Proof.
  split; [reflexivity|].
  destruct (destroy_refused_while_borrowed both_borrowed 1%positive
              (Unique.mk (Some 5%positive) 1 false) eq_refl)
    as (_ & _ & _ & Hscenario).
  apply (Hscenario 11%positive (Borrowed.mk (Some 1%positive) (Some 5%positive)));
    first [reflexivity | cbn; set_solver].
Defined.

Lemma direct_access_gates_witness :
  uniques both_borrowed !! 1%positive = Some (Unique.mk (Some 5%positive) 1 false)
  ∧ Unique_get_const 1 both_borrowed = (Ok (Some 5%positive), both_borrowed)
  ∧ Unique_get 1 both_borrowed = (Throw AccessWhileBorrowed, both_borrowed).
Proof.
  split; [reflexivity|].
  destruct (direct_access_gates both_borrowed 1%positive
              (Unique.mk (Some 5%positive) 1 false) eq_refl)
    as (_ & _ & Hread & Hwrite).
  split.
  - apply Hread. reflexivity.
  - apply Hwrite. left. cbn. lia.
Defined.

Lemma acquire_release_round_trip_witness :
  uniques both_borrowed !! 1%positive = Some (Unique.mk (Some 5%positive) 1 false)
  ∧ ∃ w1, acquireImmutableBorrow 1 both_borrowed = (Ok tt, w1)
          ∧ ∃ w2 u2, releaseBorrowImmutable 1 w1 = (Ok tt, w2)
                     ∧ uniques w2 !! 1%positive = Some u2
                     ∧ Unique.immutable_borrows u2 = 1
                     ∧ uniques w2 = uniques both_borrowed.
Proof.
  split; [reflexivity|].
  destruct (acquire_release_round_trip both_borrowed 1%positive
              (Unique.mk (Some 5%positive) 1 false) eq_refl)
    as (Hshared & _ & Hok & _); [cbn; lia|].
  destruct Hok as [w1 H1]; [reflexivity|reflexivity|].
  exists w1. split; [exact H1|]. exact (Hshared w1 H1).
Defined.

Lemma reassign_moves_one_unit_witness :
  ∃ w', Borrowed_copy_assign 11 12 both_borrowed = (Ok tt, w')
        ∧ uniques w' =
            <[2%positive := Unique.mk (Some 6%positive) 2 false]>
              (<[1%positive := Unique.mk (Some 5%positive) 0 false]>
                 (uniques both_borrowed))
        ∧ borroweds w' =
            <[11%positive := Borrowed.mk (Some 2%positive) (Some 6%positive)]>
              (borroweds both_borrowed)
        ∧ history w' =
            history both_borrowed ++ [ReleasedImmutable 1; AcquiredImmutable 2].
Proof.
  apply (reassign_moves_one_unit both_borrowed 11%positive 12%positive
           (Borrowed.mk (Some 1%positive) (Some 5%positive))
           (Borrowed.mk (Some 2%positive) (Some 6%positive))
           1%positive 2%positive
           (Unique.mk (Some 5%positive) 1 false)
           (Unique.mk (Some 6%positive) 1 false));
    try reflexivity; discriminate.
Defined.

Lemma borrow_from_emptied_owner_witness :
  Unique_move_assign 1 2 two_owners = (Ok tt, source_emptied)
  ∧ borroweds source_emptied !! 11%positive = None
  ∧ ∃ w', borrow 2 11 source_emptied = (Ok tt, w')
          ∧ uniques w' !! 2%positive = Some (Unique.mk None 1 false)
          ∧ borroweds w' !! 11%positive = Some (Borrowed.mk (Some 2%positive) None)
          ∧ Borrowed_get 11 w' = (Ok None, w').
Proof.
  assert (E : Unique_move_assign 1 2 two_owners = (Ok tt, source_emptied))
    by (vm_compute; reflexivity).
  split; [exact E|]. split; [reflexivity|].
  apply (borrow_from_emptied_owner two_owners source_emptied
           1%positive 2%positive 11%positive).
  - left. split; [discriminate|exact E].
  - reflexivity.
Defined.

Lemma exclusive_handle_move_assign_witness :
  ∃ w1 w2 w3,
    BorrowedMut_move_assign 21 22 both_exclusive = (Ok tt, w1)
    ∧ BorrowedMut_dtor 22 w1 = (Ok tt, w2)
    ∧ uniques w2 = uniques w1
    ∧ BorrowedMut_dtor 21 w2 = (Ok tt, w3)
    ∧ history w3 =
        history both_exclusive ++ [ReleasedMutable 1] ++ [ReleasedMutable 2].
Proof.
  destruct (exclusive_handle_move_assign both_exclusive 21%positive 22%positive
              (BorrowedMut.mk (Some 1%positive) (Some 5%positive))
              (BorrowedMut.mk (Some 2%positive) (Some 6%positive)))
    as (w1 & w2 & w3 & H1 & _ & _ & _ & H2 & H3 & _ & _ & H4 & _ & H5 & _);
    try reflexivity; try discriminate.
  - intros a [= <-]. discriminate.
  - exists w1, w2, w3. by repeat split.
Defined.

(** ** Scenarios *)

Section Scenarios.
Local Open Scope positive_scope.

(** An owner of 42 is borrowed; the exclusive borrow is refused while the
    shared handle lives and granted once it is gone. *)
Example shared_then_exclusive :
  outcomes [CNew 5; CUnique 1 (Some 5); CBorrow 1 11; CBorrowMut 1 21;
            CBorrowedDtor 11; CBorrowMut 1 21] empty_world
  = [Ok tt; Ok tt; Ok tt; Throw MutableBorrowOfImmutablyBorrowed; Ok tt; Ok tt].
Proof. vm_compute. reflexivity. Qed.

(** Two shared handles are released in either order. *)
Example shared_release_commutes :
  last (run [CNew 5; CUnique 1 (Some 5); CBorrow 1 11; CBorrow 1 12;
             CBorrowedDtor 11; CBorrowedDtor 12] empty_world)
  = last (run [CNew 5; CUnique 1 (Some 5); CBorrow 1 11; CBorrow 1 12;
               CBorrowedDtor 12; CBorrowedDtor 11] empty_world).
Proof. vm_compute. reflexivity. Qed.

(** An exclusive handle moved into a new one: the old one's destructor does
    nothing and the owner is still borrowed; the new one's clears the flag,
    and the owner can be destroyed. *)
Example exclusive_relocated :
  outcomes [CNew 5; CUnique 1 (Some 5); CBorrowMut 1 21; CBorrowedMutMove 22 21;
            CBorrowedMutDtor 21; CGet 1; CBorrowedMutDtor 22;
            CUniqueDtor 1] empty_world
  = [Ok tt; Ok tt; Ok tt; Ok tt; Ok tt; Throw AccessWhileBorrowed; Ok tt;
     Ok tt].
Proof. vm_compute. reflexivity. Qed.

(** Ten handles put in a vector that outlives the owner.  The destructor
    of the owner then throws; the owner is gone all the same, and the
    destructor of the first handle, which is to release it, has no defined
    behaviour. *)
Example handles_outlive_owner :
  outcomes
    ([CNew 5; CUnique 1 (Some 5)]
     ++ flat_map push_back_borrow [31; 32; 33; 34; 35; 36; 37; 38; 39; 40]
     ++ [CUniqueDtor 1; CBorrowedDtor 31])%list empty_world
  = (repeat (Ok tt) 32 ++ [Throw DestroyWithActiveBorrows; Undefined])%list.
Proof. vm_compute. reflexivity. Qed.

(** A shared handle whose owner has been released behind its back: its
    destructor, which is [noexcept], ends the program. *)
Example unmatched_release_terminates :
  outcomes [CNew 5; CUnique 1 (Some 5); CBorrow 1 11;
            CReleaseBorrowImmutable 1; CBorrowedDtor 11] empty_world
  = [Ok tt; Ok tt; Ok tt; Ok tt; Terminate].
Proof. vm_compute. reflexivity. Qed.

(** A bare [releaseMutableBorrow] behind the back of a handle lets a second
    handle be made on the same owner; the destructor of one of the two then
    finds nothing to release, and ends the program. *)
Example bare_release_then_alias :
  outcomes [CNew 5; CUnique 1 (Some 5); CBorrowMut 1 21;
            CReleaseMutableBorrow 1; CBorrowMut 1 22;
            CBorrowedMutDtor 21; CBorrowedMutDtor 22] empty_world
  = [Ok tt; Ok tt; Ok tt; Ok tt; Ok tt; Ok tt; Terminate].
Proof. vm_compute. reflexivity. Qed.

(** Copy assignment whose second half fails: the old owner has been
    released, the handle already points to the new owner, and the new owner
    has not been acquired. *)
Example reassign_to_exclusively_borrowed :
  let cs := [CNew 5; CNew 6; CUnique 1 (Some 5); CUnique 2 (Some 6);
             CBorrow 1 11; CBorrow 2 12; CReleaseBorrowImmutable 2;
             CAcquireMutableBorrow 2; CBorrowedCopyAssign 11 12] in
  last (outcomes cs empty_world) = Some (Throw MutableBorrowOfMutablyBorrowed)
  ∧ (w ← last (run cs empty_world);
     Some (uniques w !! 1, uniques w !! 2, borroweds w !! 11))
    = Some (Some (Unique.mk (Some 5) 0 false),
            Some (Unique.mk (Some 6) 0 true),
            Some (Borrowed.mk (Some 2) (Some 6))).
Proof. vm_compute. split; reflexivity. Qed.

End Scenarios.

(** ** Which call throws what *)

Ltac never_throws :=
  intros [? ? ? ? ?] ? ?; cxx_unfold; repeat case_match; intros; simplify_eq.

Section ThrowsWithin.
Context (E : list ErrorCode).

Lemma throws_within_ret {A} (x : A) : throws_within E (ret x).
Proof. never_throws. Qed.
Lemma throws_within_undefined {A} : throws_within E (undefined (A := A)).
Proof. never_throws. Qed.
Lemma throws_within_throw {A} e : e ∈ E → throws_within E (throw (A := A) e).
Proof. intros He w e' w' [= <- <-]. done. Qed.

Lemma throws_within_bind {A B} (m : M World A) (k : A → M World B) :
  throws_within E m → (∀ x, throws_within E (k x)) → throws_within E (bind m k).
Proof.
  intros Hm Hk w e w'. unfold bind.
  destruct (m w) as [[x| | |] w1] eqn:Em; intros H; simplify_eq.
  - by eapply Hk.
  - by eapply Hm.
Qed.

(** Nothing is thrown out of a [noexcept] function. *)
Lemma throws_within_noexcept {A} (m : M World A) : throws_within E (noexcept m).
Proof.
  intros w e w'. unfold noexcept.
  destruct (m w) as [[x| | |] w1]; intros H; simplify_eq.
Qed.

Lemma throws_within_deref p : throws_within E (deref p).
Proof. destruct p; never_throws. Qed.
Lemma throws_within_load_unique a : throws_within E (load_unique a).
Proof. never_throws. Qed.
Lemma throws_within_store_unique a u : throws_within E (store_unique a u).
Proof. never_throws. Qed.
Lemma throws_within_load_borrowed a : throws_within E (load_borrowed a).
Proof. never_throws. Qed.
Lemma throws_within_store_borrowed a b : throws_within E (store_borrowed a b).
Proof. never_throws. Qed.
Lemma throws_within_load_borrowedMut a : throws_within E (load_borrowedMut a).
Proof. never_throws. Qed.
Lemma throws_within_store_borrowedMut a b : throws_within E (store_borrowedMut a b).
Proof. never_throws. Qed.
Lemma throws_within_new_ p : throws_within E (new_ p).
Proof. never_throws. Qed.
Lemma throws_within_delete_ p : throws_within E (delete_ p).
Proof. destruct p; never_throws. Qed.
Lemma throws_within_deref_resource p : throws_within E (deref_resource p).
Proof. destruct p; never_throws. Qed.
Lemma throws_within_emit e : throws_within E (emit e).
Proof. never_throws. Qed.
Lemma throws_within_storage_unique a : throws_within E (storage_unique a).
Proof. never_throws. Qed.
Lemma throws_within_storage_borrowed a : throws_within E (storage_borrowed a).
Proof. never_throws. Qed.
Lemma throws_within_storage_borrowedMut a : throws_within E (storage_borrowedMut a).
Proof. never_throws. Qed.
Lemma throws_within_end_unique a : throws_within E (end_unique a).
Proof. never_throws. Qed.
Lemma throws_within_end_borrowed a : throws_within E (end_borrowed a).
Proof. never_throws. Qed.
Lemma throws_within_end_borrowedMut a : throws_within E (end_borrowedMut a).
Proof. never_throws. Qed.

End ThrowsWithin.

Ltac throws_steps :=
  repeat first
    [ solve [auto using throws_within_ret, throws_within_undefined,
               throws_within_deref, throws_within_load_unique,
               throws_within_store_unique, throws_within_load_borrowed,
               throws_within_store_borrowed, throws_within_load_borrowedMut,
               throws_within_store_borrowedMut, throws_within_new_,
               throws_within_delete_, throws_within_deref_resource,
               throws_within_emit, throws_within_storage_unique,
               throws_within_storage_borrowed, throws_within_storage_borrowedMut,
               throws_within_end_unique, throws_within_end_borrowed,
               throws_within_end_borrowedMut, throws_within_noexcept]
    | apply throws_within_throw;
      solve [repeat first [apply list_elem_of_here | apply list_elem_of_further]]
    | apply throws_within_bind; [|intros ?]
    | match goal with
      | |- throws_within _ (if ?c then _ else _) => destruct c
      | |- throws_within _ (match ?c with _ => _ end) => destruct c
      end ].

Ltac unfold_methods :=
  unfold Unique_ctor, Unique_dtor, Unique_move_ctor, Unique_move_assign,
    acquireImmutableBorrow, releaseBorrowImmutable, acquireMutableBorrow,
    releaseMutableBorrow, Unique_arrow, Unique_get, Unique_arrow_const,
    Unique_get_const, Unique_star, Unique_star_const, Unique_bool,
    borrow, borrow_mut, Borrowed_ctor, Borrowed_copy_ctor, Borrowed_copy_assign,
    Borrowed_dtor, BorrowedMut_ctor, BorrowedMut_move_ctor,
    BorrowedMut_move_assign, BorrowedMut_dtor, BorrowedMut_release, discard,
    is_borrowed, get_data, set_data, get_immutable_borrows,
    set_immutable_borrows, get_mutable_borrowed, set_mutable_borrowed,
    Borrowed_get_owner_, Borrowed_set_owner_, Borrowed_get_data,
    Borrowed_set_data, BorrowedMut_get_owner_, BorrowedMut_set_owner_,
    BorrowedMut_get_data, BorrowedMut_set_data.

(** Every call throws only the codes of its own checks.  The destructors
    of the handles and the move operations of the exclusive handle throw
    nothing (what would leave them ends the program instead); no call at all
    throws [ImmutableBorrowOfMutablyBorrowed]: a shared borrow refused
    because of an exclusive one is reported as
    [MutableBorrowOfMutablyBorrowed]. *)
Theorem thrown_codes c w e w' :
  exec c w = (Throw e, w') →
  e ∈ may_throw c ∧ e ≠ ImmutableBorrowOfMutablyBorrowed.
Proof.
  intros H.
  assert (He : e ∈ may_throw c).
  { revert w e w' H. change (throws_within (may_throw c) (exec c)).
    destruct c; cbn [exec may_throw]; unfold_methods; throws_steps. }
  split; [done|]. intros ->.
  destruct c; cbn [may_throw] in He;
    repeat (apply elem_of_cons in He as [He|He]; [discriminate He|]);
    by apply elem_of_nil in He.
Qed.

(** ** Shared acquisition and unmatched releases *)

(** [acquireImmutableBorrow] on a live owner throws if and only if the
    exclusive flag is set, with the code [MutableBorrowOfMutablyBorrowed]
    and without a change.  A shared count, however large below [INT_MAX],
    never blocks it: the call then adds one to the count and touches
    nothing else of the owner. *)
Theorem shared_acquire_blocked_only_by_exclusive w a u :
  uniques w !! a = Some u →
  (fails (acquireImmutableBorrow a) w ↔ Unique.mutable_borrowed u = true)
  ∧ (Unique.mutable_borrowed u = true →
     acquireImmutableBorrow a w = (Throw MutableBorrowOfMutablyBorrowed, w))
  ∧ (Unique.mutable_borrowed u = false → Unique.immutable_borrows u < INT_MAX →
     ∃ w', acquireImmutableBorrow a w = (Ok tt, w')
           ∧ uniques w' =
               <[a := Unique.set_immutable_borrows
                        (Unique.immutable_borrows u + 1) u]> (uniques w)
           ∧ history w' = history w ++ [AcquiredImmutable a]).
Proof.
  intros Hu. unfold fails, throws. rewrite (acquireImmutableBorrow_eq _ _ _ Hu).
  destruct (Unique.mutable_borrowed u); split; [|split| |split]; try done.
  - split; [done|]. intros _. by eexists _, _.
  - split; [|done]. intros (e & w' & H). by destruct (int_incr _).
  - intros _ Hlt. rewrite (int_incr_lt _ Hlt). by eexists.
Qed.

(** A release that matches no acquisition is refused and changes nothing:
    [releaseBorrowImmutable] throws [ReleaseNonExistentImmutableBorrow] if
    and only if the count is not positive, [releaseMutableBorrow] throws
    [ReleaseNonExistentMutableBorrow] if and only if the flag is clear.
    Otherwise the first takes one from the count and the second clears the
    flag; neither looks at the other half of the borrow state. *)
Theorem unmatched_release_refused w a u :
  uniques w !! a = Some u →
  (Unique.immutable_borrows u <= 0 →
     releaseBorrowImmutable a w = (Throw ReleaseNonExistentImmutableBorrow, w))
  ∧ (0 < Unique.immutable_borrows u →
     ∃ w', releaseBorrowImmutable a w = (Ok tt, w')
           ∧ uniques w' =
               <[a := Unique.set_immutable_borrows
                        (Unique.immutable_borrows u - 1) u]> (uniques w)
           ∧ history w' = history w ++ [ReleasedImmutable a])
  ∧ (Unique.mutable_borrowed u = false →
     releaseMutableBorrow a w = (Throw ReleaseNonExistentMutableBorrow, w))
  ∧ (Unique.mutable_borrowed u = true →
     ∃ w', releaseMutableBorrow a w = (Ok tt, w')
           ∧ uniques w' = <[a := Unique.set_mutable_borrowed false u]> (uniques w)
           ∧ history w' = history w ++ [ReleasedMutable a]).
Proof.
  intros Hu.
  rewrite (releaseBorrowImmutable_eq _ _ _ Hu), (releaseMutableBorrow_eq _ _ _ Hu).
  split; [|split; [|split]].
  - intros H. by destruct (Z.leb_spec (Unique.immutable_borrows u) 0); [|lia].
  - intros H. destruct (Z.leb_spec (Unique.immutable_borrows u) 0); [lia|].
    by eexists.
  - by intros ->.
  - intros ->. by eexists.
Qed.

(** ** Transfer by construction *)

(** The move constructor, into free storage and from a live owner whose
    count is not negative, throws [MoveWithActiveBorrows] (a code of its own,
    not the one of move assignment) if and only if the source is borrowed,
    and then changes nothing.  Otherwise the new owner has the source's
    resource and no borrow, the source is empty, and nothing is deleted. *)
Theorem move_construct w this other v :
  uniques w !! this = None → uniques w !! other = Some v →
  0 <= Unique.immutable_borrows v →
  (0 < Unique.immutable_borrows v ∨ Unique.mutable_borrowed v = true →
     Unique_move_ctor this other w = (Throw MoveWithActiveBorrows, w))
  ∧ (¬ (0 < Unique.immutable_borrows v ∨ Unique.mutable_borrowed v = true) →
     ∃ w', Unique_move_ctor this other w = (Ok tt, w')
           ∧ uniques w' =
               <[this := Unique.mk (Unique.data v) 0 false]>
                 (<[other := Unique.mk None 0 false]> (uniques w))
           ∧ heap w' = heap w
           ∧ Unique_bool other w' = (Ok false, w')).
Proof.
  intros Hthis Hother Hn. rewrite <- borrowed_true.
  rewrite (Unique_move_ctor_eq _ _ _ _ Hthis Hother).
  split; [by intros ->|]. intros Hb.
  destruct (borrowed v) eqn:Bv; [done|]. apply borrowed_false in Bv as [? ?].
  assert (v = Unique.mk (Unique.data v) 0 false) as Ev.
  { destruct v as [d n b]; cbn in *. f_equal; [lia|done]. }
  eexists; split; [done|]. cbn [uniques heap]. rewrite <- Ev.
  split; [done|]. split; [done|].
  assert (this ≠ other) by congruence.
  unfold Unique_bool, get_data. destruct w as [U B BM Hp Hi]. cxx_run.
  done.
Qed.

(** ** Equations of the handles *)

Lemma borrow_eq w a u h :
  uniques w !! a = Some u → borroweds w !! h = None →
  borrow a h w =
    if Unique.mutable_borrowed u
    then (Throw MutableBorrowOfMutablyBorrowed, w)
    else match int_incr (Unique.immutable_borrows u) with
         | Some n' =>
             (Ok tt, mkWorld (<[a := Unique.set_immutable_borrows n' u]> (uniques w))
                       (<[h := Borrowed.mk (Some a) (Unique.data u)]> (borroweds w))
                       (borrowedMuts w) (heap w)
                       (history w ++ [AcquiredImmutable a]))
         | None => (Undefined, w)
         end.
Proof.
  intros Hu Hh. unfold borrow, Borrowed_ctor, acquireImmutableBorrow.
  destruct w as [U B BM Hp Hi], u as [d n [|]]; cbn in Hu, Hh |- *;
    cxx_run; [done|].
  destruct (int_incr n); by cxx_run.
Qed.

Lemma Borrowed_copy_ctor_eq w this other b a u :
  borroweds w !! this = None → borroweds w !! other = Some b →
  Borrowed.owner_ b = Some a → uniques w !! a = Some u →
  Borrowed_copy_ctor this other w =
    if Unique.mutable_borrowed u
    then (Throw MutableBorrowOfMutablyBorrowed, w)
    else match int_incr (Unique.immutable_borrows u) with
         | Some n' =>
             (Ok tt, mkWorld (<[a := Unique.set_immutable_borrows n' u]> (uniques w))
                       (<[this := b]> (borroweds w))
                       (borrowedMuts w) (heap w)
                       (history w ++ [AcquiredImmutable a]))
         | None => (Undefined, w)
         end.
Proof.
  intros Hthis Hother Ho Hu. unfold Borrowed_copy_ctor, acquireImmutableBorrow.
  destruct w as [U B BM Hp Hi], u as [d n [|]], b as [ob db];
    cbn in Hu, Hthis, Hother, Ho |- *; subst ob; cxx_run; [done|].
  destruct (int_incr n); by cxx_run.
Qed.

Lemma Borrowed_dtor_eq w h b a u :
  borroweds w !! h = Some b → Borrowed.owner_ b = Some a →
  uniques w !! a = Some u →
  Borrowed_dtor h w =
    if Unique.immutable_borrows u <=? 0 then (Terminate, w)
    else (Ok tt, mkWorld (<[a := Unique.set_immutable_borrows
                                    (Unique.immutable_borrows u - 1) u]> (uniques w))
                   (delete h (borroweds w)) (borrowedMuts w) (heap w)
                   (history w ++ [ReleasedImmutable a])).
Proof.
  intros Hh Ho Hu. unfold Borrowed_dtor, releaseBorrowImmutable.
  destruct w as [U B BM Hp Hi], u as [d n f], b as [ob db];
    cbn in Hu, Hh, Ho |- *; subst ob; cxx_run.
  destruct (Z.leb_spec n 0); [done|].
  rewrite int_decr_pos by done. by cxx_run.
Qed.

(** The destructor of a handle whose owner is gone calls a member of an
    object that is not there. *)
Lemma dangling_Borrowed_dtor w h b a :
  borroweds w !! h = Some b → Borrowed.owner_ b = Some a →
  uniques w !! a = None →
  Borrowed_dtor h w = (Undefined, w).
Proof.
  intros Hh Ho Hu. unfold Borrowed_dtor, releaseBorrowImmutable.
  destruct w as [U B BM Hp Hi], b as [ob db];
    cbn in Hu, Hh, Ho |- *; subst ob; by cxx_run.
Qed.

Lemma dangling_BorrowedMut_dtor w h bm a :
  borrowedMuts w !! h = Some bm → BorrowedMut.owner_ bm = Some a →
  uniques w !! a = None →
  BorrowedMut_dtor h w = (Undefined, w).
Proof.
  intros Hh Ho Hu.
  unfold BorrowedMut_dtor, BorrowedMut_release, releaseMutableBorrow.
  destruct w as [U B BM Hp Hi], bm as [ob db];
    cbn in Hu, Hh, Ho |- *; subst ob; by cxx_run.
Qed.

Lemma borrow_mut_eq w a u h :
  uniques w !! a = Some u → borrowedMuts w !! h = None →
  borrow_mut a h w =
    if borrowed u
    then (Throw MutableBorrowOfImmutablyBorrowed, w)
    else (Ok tt, mkWorld (<[a := Unique.set_mutable_borrowed true u]> (uniques w))
                   (borroweds w)
                   (<[h := BorrowedMut.mk (Some a) (Unique.data u)]> (borrowedMuts w))
                   (heap w) (history w ++ [AcquiredMutable a])).
Proof.
  intros Hu Hh. unfold borrow_mut, BorrowedMut_ctor, acquireMutableBorrow, borrowed.
  destruct w as [U B BM Hp Hi], u as [d n f]; cbn in Hu, Hh |- *; cxx_run.
  destruct ((0 <? n) || f); by cxx_run.
Qed.

Lemma BorrowedMut_move_ctor_eq w this other bs :
  borrowedMuts w !! this = None → borrowedMuts w !! other = Some bs →
  BorrowedMut_move_ctor this other w =
    (Ok tt, mkWorld (uniques w) (borroweds w)
              (<[other := BorrowedMut.mk None None]>
                 (<[this := bs]> (borrowedMuts w)))
              (heap w) (history w)).
Proof.
  intros Hthis Hother. unfold BorrowedMut_move_ctor.
  assert (this ≠ other) by congruence.
  destruct w as [U B BM Hp Hi], bs as [os ds]; cbn in Hthis, Hother |- *.
  cxx_run. by rewrite !insert_insert_eq.
Qed.

(** Copy assignment between two different handles is a release, the switch
    of the members, and an acquisition in the store the first two leave. *)
Lemma Borrowed_copy_assign_eq w this other b b' o o' u :
  this ≠ other →
  borroweds w !! this = Some b → borroweds w !! other = Some b' →
  Borrowed.owner_ b = Some o → Borrowed.owner_ b' = Some o' →
  uniques w !! o = Some u →
  Borrowed_copy_assign this other w =
    if Unique.immutable_borrows u <=? 0
    then (Throw ReleaseNonExistentImmutableBorrow, w)
    else acquireImmutableBorrow o'
           (mkWorld (<[o := Unique.set_immutable_borrows
                               (Unique.immutable_borrows u - 1) u]> (uniques w))
              (<[this := b']> (borroweds w)) (borrowedMuts w) (heap w)
              (history w ++ [ReleasedImmutable o])).
Proof.
  intros Hne Hb Hb' Ho Ho' Hu.
  unfold Borrowed_copy_assign, releaseBorrowImmutable.
  destruct w as [U B BM Hp Hi], b as [bo bd], b' as [bo' bd'], u as [d n f];
    cbn in Hb, Hb', Ho, Ho', Hu |- *; subst bo bo'.
  cxx_run. destruct (Z.leb_spec n 0); [done|].
  rewrite int_decr_pos by done. cxx_run. by rewrite !insert_insert_eq.
Qed.

Lemma Borrowed_copy_assign_self w this : Borrowed_copy_assign this this w = (Ok tt, w).
Proof. unfold Borrowed_copy_assign. by cxx_run. Qed.

(** ** The life of a handle *)

(** A shared handle from [borrow()], on a live owner not exclusively
    borrowed.  The handle has the owner's resource pointer.  While it lives
    the owner refuses an exclusive borrow, every direct mutating access
    ([operator->], [operator*], [get]) and every transfer (move
    construction from it, move assignment from it and into it), each
    without a change, and still gives every read-only access.  Its
    destructor throws and deletes nothing, but the owner is gone and the
    handle is left dangling: the destructor of the handle has then no
    defined behaviour.  With the owner alive, the destructor of the handle
    gives back every owner and every handle as they were before the
    borrow. *)
Theorem shared_handle_lifetime w a u h :
  uniques w !! a = Some u → borroweds w !! h = None →
  Unique.mutable_borrowed u = false →
  0 <= Unique.immutable_borrows u < INT_MAX →
  ∃ w1 w2,
    borrow a h w = (Ok tt, w1)
    ∧ Borrowed_get h w1 = (Ok (Unique.data u), w1)
    ∧ acquireMutableBorrow a w1 = (Throw MutableBorrowOfImmutablyBorrowed, w1)
    ∧ Unique_arrow a w1 = (Throw AccessWhileBorrowed, w1)
    ∧ Unique_star a w1 = (Throw AccessWhileBorrowed, w1)
    ∧ Unique_get a w1 = (Throw AccessWhileBorrowed, w1)
    ∧ Unique_arrow_const a w1 = (Ok (Unique.data u), w1)
    ∧ (∀ q, Unique.data u = Some q → q ∈ heap w →
         Unique_star_const a w1 = (Ok q, w1))
    ∧ Unique_get_const a w1 = (Ok (Unique.data u), w1)
    ∧ (∀ dst, uniques w1 !! dst = None →
         Unique_move_ctor dst a w1 = (Throw MoveWithActiveBorrows, w1))
    ∧ (∀ dst v, dst ≠ a → uniques w1 !! dst = Some v →
         Unique_move_assign dst a w1
         = (Throw (if borrowed v then MoveIntoWithActiveBorrows
                   else MoveFromWithActiveBorrows), w1))
    ∧ (∀ src, src ≠ a →
         Unique_move_assign a src w1 = (Throw MoveIntoWithActiveBorrows, w1))
    ∧ Unique_dtor a w1
      = (Throw DestroyWithActiveBorrows, upd_uniques (delete a) w1)
    ∧ Borrowed_dtor h (upd_uniques (delete a) w1)
      = (Undefined, upd_uniques (delete a) w1)
    ∧ Borrowed_dtor h w1 = (Ok tt, w2)
    ∧ uniques w2 = uniques w ∧ borroweds w2 = borroweds w
    ∧ borrowedMuts w2 = borrowedMuts w ∧ heap w2 = heap w.
Proof.
  intros Hu Hh Hf [Hn Hmax].
  rewrite (borrow_eq _ _ _ _ Hu Hh), Hf, (int_incr_lt _ Hmax).
  set (u1 := Unique.set_immutable_borrows (Unique.immutable_borrows u + 1) u).
  set (w1 := mkWorld _ _ _ _ _).
  assert (Hu1 : uniques w1 !! a = Some u1) by apply lookup_insert_eq.
  assert (Hh1 : borroweds w1 !! h = Some (Borrowed.mk (Some a) (Unique.data u)))
    by apply lookup_insert_eq.
  assert (Hb1 : borrowed u1 = true).
  { apply borrowed_true. left. unfold u1. cbn. lia. }
  assert (Hf1 : Unique.mutable_borrowed u1 = false) by done.
  eexists w1, _. split; [done|].
  split. { unfold Borrowed_get, Borrowed_get_data, bind, load_borrowed.
           by rewrite Hh1. }
  split. { by rewrite (acquireMutableBorrow_eq _ _ _ Hu1), Hb1. }
  split. { by rewrite (Unique_arrow_eq _ _ _ Hu1), Hb1. }
  split. { by rewrite (Unique_star_eq _ _ _ Hu1), Hb1. }
  split. { by rewrite (Unique_get_eq _ _ _ Hu1), Hb1. }
  split. { by rewrite (Unique_arrow_const_eq _ _ _ Hu1), Hf1. }
  split. { intros q Hq Hin. rewrite (Unique_star_const_eq _ _ _ Hu1), Hf1.
           cbn [Unique.data u1 Unique.set_immutable_borrows]. rewrite Hq.
           unfold deref_resource. cbn. by rewrite decide_True. }
  split. { by rewrite (Unique_get_const_eq _ _ _ Hu1), Hf1. }
  split. { intros dst Hdst. by rewrite (Unique_move_ctor_eq _ _ _ _ Hdst Hu1), Hb1. }
  split. { intros dst v Hne Hv.
           rewrite (Unique_move_assign_eq _ _ _ Hv _ _ Hu1 Hne), Hb1.
           by destruct (borrowed v). }
  split. { intros src Hne. destruct (uniques w1 !! src) as [v|] eqn:Hv.
           - by rewrite (Unique_move_assign_eq _ _ _ Hu1 _ _ Hv), Hb1.
           - by rewrite (dangling_Unique_move_assign_other _ _ _ _ (not_eq_sym Hne) Hu1 Hv),
               Hb1. }
  split. { by rewrite (Unique_dtor_eq _ _ _ Hu1), Hb1. }
  split. { eapply dangling_Borrowed_dtor; [exact Hh1|done|].
           cbn. apply lookup_delete_eq. }
  rewrite (Borrowed_dtor_eq _ _ _ _ _ Hh1 eq_refl Hu1).
  unfold u1 at 1. cbn [Unique.immutable_borrows Unique.set_immutable_borrows].
  destruct (Z.leb_spec (Unique.immutable_borrows u + 1) 0); [lia|].
  split; [done|]. cbn.
  assert (Unique.set_immutable_borrows (Unique.immutable_borrows u + 1 - 1) u1 = u)
    as ->.
  { destruct u as [d n f]. unfold u1, Unique.set_immutable_borrows; cbn.
    f_equal. lia. }
  rewrite insert_insert_eq, insert_id by done.
  rewrite delete_insert_eq, delete_id by done. done.
Qed.

(** An exclusive handle from [borrow_mut()].  On a borrowed owner the call
    throws [MutableBorrowOfImmutablyBorrowed] and makes no handle.  On an
    owner without borrows it makes a handle with the owner's resource
    pointer; while the handle lives the owner refuses every other borrow,
    each of the six direct accesses ([operator->], [operator*] and [get],
    mutating and [const]) and every transfer (move construction from it,
    move assignment from it and into it), each without a change.  Its
    destructor throws and deletes nothing, but the owner is gone and the
    handle is left dangling: the destructor of the handle has then no
    defined behaviour.  With the owner alive, the destructor of the handle
    gives back every owner and every handle as they were. *)
Theorem exclusive_handle_lifetime w a u h :
  uniques w !! a = Some u → borrowedMuts w !! h = None →
  (borrowed u = true →
     borrow_mut a h w = (Throw MutableBorrowOfImmutablyBorrowed, w))
  ∧ (borrowed u = false →
     ∃ w1 w2,
       borrow_mut a h w = (Ok tt, w1)
       ∧ BorrowedMut_get h w1 = (Ok (Unique.data u), w1)
       ∧ acquireImmutableBorrow a w1 = (Throw MutableBorrowOfMutablyBorrowed, w1)
       ∧ acquireMutableBorrow a w1 = (Throw MutableBorrowOfImmutablyBorrowed, w1)
       ∧ Unique_arrow a w1 = (Throw AccessWhileBorrowed, w1)
       ∧ Unique_star a w1 = (Throw AccessWhileBorrowed, w1)
       ∧ Unique_get a w1 = (Throw AccessWhileBorrowed, w1)
       ∧ Unique_arrow_const a w1 = (Throw AccessWhileMutablyBorrowed, w1)
       ∧ Unique_star_const a w1 = (Throw AccessWhileMutablyBorrowed, w1)
       ∧ Unique_get_const a w1 = (Throw AccessWhileMutablyBorrowed, w1)
       ∧ (∀ dst, uniques w1 !! dst = None →
            Unique_move_ctor dst a w1 = (Throw MoveWithActiveBorrows, w1))
       ∧ (∀ dst v, dst ≠ a → uniques w1 !! dst = Some v →
            Unique_move_assign dst a w1
            = (Throw (if borrowed v then MoveIntoWithActiveBorrows
                      else MoveFromWithActiveBorrows), w1))
       ∧ (∀ src, src ≠ a →
            Unique_move_assign a src w1 = (Throw MoveIntoWithActiveBorrows, w1))
       ∧ Unique_dtor a w1
         = (Throw DestroyWithActiveBorrows, upd_uniques (delete a) w1)
       ∧ BorrowedMut_dtor h (upd_uniques (delete a) w1)
         = (Undefined, upd_uniques (delete a) w1)
       ∧ BorrowedMut_dtor h w1 = (Ok tt, w2)
       ∧ uniques w2 = uniques w ∧ borroweds w2 = borroweds w
       ∧ borrowedMuts w2 = borrowedMuts w ∧ heap w2 = heap w).
Proof.
  intros Hu Hh. rewrite (borrow_mut_eq _ _ _ _ Hu Hh).
  split; [by intros ->|]. intros Hb. rewrite Hb.
  set (u1 := Unique.set_mutable_borrowed true u).
  set (w1 := mkWorld _ _ _ _ _).
  assert (Hu1 : uniques w1 !! a = Some u1) by apply lookup_insert_eq.
  assert (Hh1 : borrowedMuts w1 !! h
                = Some (BorrowedMut.mk (Some a) (Unique.data u)))
    by apply lookup_insert_eq.
  assert (Hb1 : borrowed u1 = true) by (apply borrowed_true; by right).
  eexists w1, _. split; [done|].
  split. { unfold BorrowedMut_get, BorrowedMut_get_data, bind, load_borrowedMut.
           by rewrite Hh1. }
  split. { by rewrite (acquireImmutableBorrow_eq _ _ _ Hu1). }
  split. { by rewrite (acquireMutableBorrow_eq _ _ _ Hu1), Hb1. }
  split. { by rewrite (Unique_arrow_eq _ _ _ Hu1), Hb1. }
  split. { by rewrite (Unique_star_eq _ _ _ Hu1), Hb1. }
  split. { by rewrite (Unique_get_eq _ _ _ Hu1), Hb1. }
  split. { by rewrite (Unique_arrow_const_eq _ _ _ Hu1). }
  split. { by rewrite (Unique_star_const_eq _ _ _ Hu1). }
  split. { by rewrite (Unique_get_const_eq _ _ _ Hu1). }
  split. { intros dst Hdst. by rewrite (Unique_move_ctor_eq _ _ _ _ Hdst Hu1), Hb1. }
  split. { intros dst v Hne Hv.
           rewrite (Unique_move_assign_eq _ _ _ Hv _ _ Hu1 Hne), Hb1.
           by destruct (borrowed v). }
  split. { intros src Hne. destruct (uniques w1 !! src) as [v|] eqn:Hv.
           - by rewrite (Unique_move_assign_eq _ _ _ Hu1 _ _ Hv), Hb1.
           - by rewrite (dangling_Unique_move_assign_other _ _ _ _ (not_eq_sym Hne) Hu1 Hv),
               Hb1. }
  split. { by rewrite (Unique_dtor_eq _ _ _ Hu1), Hb1. }
  split. { eapply dangling_BorrowedMut_dtor; [exact Hh1|done|].
           cbn. apply lookup_delete_eq. }
  rewrite (BorrowedMut_dtor_eq _ _ _ Hh1); cycle 1.
  { cbn. by rewrite lookup_insert_eq. }
  split; [done|]. cbn.
  apply borrowed_false in Hb as [_ Hf].
  rewrite alter_insert_eq.
  assert (Unique.set_mutable_borrowed false u1 = u) as ->.
  { destruct u as [d n f]. unfold u1, Unique.set_mutable_borrowed; cbn in *.
    by rewrite Hf. }
  rewrite insert_id by done. rewrite delete_insert_eq, delete_id by done. done.
Qed.

(** The move constructor of an exclusive handle, into free storage: it
    touches no owner and releases nothing; the new handle has the owner and
    the resource of the old one, which is left with null for both.  The
    destructor of the old handle then changes no owner, and the destructor
    of the new one releases the borrow. *)
Theorem exclusive_handle_move_construct w this other bs :
  borrowedMuts w !! this = None → borrowedMuts w !! other = Some bs →
  holds_exclusive w (BorrowedMut.owner_ bs) = true →
  ∃ w1 w2 w3,
    BorrowedMut_move_ctor this other w = (Ok tt, w1)
    ∧ uniques w1 = uniques w ∧ history w1 = history w
    ∧ borrowedMuts w1 !! this = Some bs
    ∧ borrowedMuts w1 !! other = Some (BorrowedMut.mk None None)
    ∧ BorrowedMut_dtor other w1 = (Ok tt, w2)
    ∧ uniques w2 = uniques w ∧ history w2 = history w
    ∧ BorrowedMut_dtor this w2 = (Ok tt, w3)
    ∧ uniques w3 = clear_flag (BorrowedMut.owner_ bs) (uniques w)
    ∧ history w3 = history w ++ released (BorrowedMut.owner_ bs)
    ∧ borrowedMuts w3 = delete other (borrowedMuts w).
Proof.
  intros Hthis Hother Xs. assert (this ≠ other) by congruence.
  rewrite (BorrowedMut_move_ctor_eq _ _ _ _ Hthis Hother).
  eexists _, _, _. split; [done|]. cbn [uniques history borrowedMuts].
  split; [done|]. split; [done|].
  split; [by rewrite lookup_insert_ne, lookup_insert_eq|].
  split; [by rewrite lookup_insert_eq|].
  erewrite (BorrowedMut_dtor_eq _ other); cycle 1.
  { cbn. apply lookup_insert_eq. }
  { done. }
  split; [done|]. cbn. split; [done|]. split; [by rewrite app_nil_r|].
  erewrite (BorrowedMut_dtor_eq _ this); cycle 1.
  { cbn. rewrite delete_insert_eq. rewrite lookup_delete_ne by done.
    apply lookup_insert_eq. }
  { by destruct w. }
  split; [done|]. cbn. split; [done|]. split; [by rewrite app_nil_r|].
  rewrite delete_insert_eq, delete_insert_ne by done.
  rewrite delete_insert_eq. apply delete_id. by rewrite lookup_delete_ne.
Qed.

(** ** Copy assignment of a shared handle, where it is not a clean step *)

(** Copy assignment is not all-or-nothing.  When the owner of [other] is
    exclusively borrowed, the assignment throws
    [MutableBorrowOfMutablyBorrowed] after it has released the old owner and
    switched the members of [this]: the old owner has lost a unit, [this]
    refers to the new owner, and the new owner has not been acquired.  With
    no shared borrow on the new owner, the destructor of [this] then finds
    nothing to release and ends the program. *)
Theorem reassign_not_all_or_nothing w this other b b' o o' u u' :
  this ≠ other →
  borroweds w !! this = Some b → borroweds w !! other = Some b' →
  Borrowed.owner_ b = Some o → Borrowed.owner_ b' = Some o' → o ≠ o' →
  uniques w !! o = Some u → uniques w !! o' = Some u' →
  0 < Unique.immutable_borrows u →
  Unique.mutable_borrowed u' = true →
  ∃ w', Borrowed_copy_assign this other w
          = (Throw MutableBorrowOfMutablyBorrowed, w')
        ∧ uniques w' =
            <[o := Unique.set_immutable_borrows (Unique.immutable_borrows u - 1) u]>
              (uniques w)
        ∧ borroweds w' = <[this := b']> (borroweds w)
        ∧ history w' = history w ++ [ReleasedImmutable o]
        ∧ (Unique.immutable_borrows u' <= 0 →
           Borrowed_dtor this w' = (Terminate, w')).
Proof.
  intros Hne Hb Hb' Ho Ho' Hoo Hu Hu' Hpos Hflag.
  rewrite (Borrowed_copy_assign_eq _ _ _ _ _ _ _ _ Hne Hb Hb' Ho Ho' Hu).
  destruct (Z.leb_spec (Unique.immutable_borrows u) 0); [lia|].
  set (w1 := mkWorld _ _ _ _ _).
  assert (Hu1 : uniques w1 !! o' = Some u').
  { cbn. by rewrite lookup_insert_ne. }
  rewrite (acquireImmutableBorrow_eq _ _ _ Hu1), Hflag.
  exists w1. split; [done|]. split; [done|]. split; [done|]. split; [done|].
  intros Hz.
  assert (Hh1 : borroweds w1 !! this = Some b') by apply lookup_insert_eq.
  rewrite (Borrowed_dtor_eq _ _ _ _ _ Hh1 Ho' Hu1).
  by destruct (Z.leb_spec (Unique.immutable_borrows u') 0); [|lia].
Qed.

(** A handle assigned to itself is left alone, whatever the store.  A
    handle assigned from another handle of the same owner releases and
    acquires that owner: every owner is as before, and [this] has the
    members of [other]. *)
Theorem reassign_same_owner w this other b b' o u :
  Borrowed_copy_assign this this w = (Ok tt, w)
  ∧ (this ≠ other →
     borroweds w !! this = Some b → borroweds w !! other = Some b' →
     Borrowed.owner_ b = Some o → Borrowed.owner_ b' = Some o →
     uniques w !! o = Some u →
     0 < Unique.immutable_borrows u <= INT_MAX →
     Unique.mutable_borrowed u = false →
     ∃ w', Borrowed_copy_assign this other w = (Ok tt, w')
           ∧ uniques w' = uniques w
           ∧ borroweds w' = <[this := b']> (borroweds w)
           ∧ history w' = history w ++ [ReleasedImmutable o; AcquiredImmutable o]).
Proof.
  split; [apply Borrowed_copy_assign_self|].
  intros Hne Hb Hb' Ho Ho' Hu [Hpos Hmax] Hflag.
  rewrite (Borrowed_copy_assign_eq _ _ _ _ _ _ _ _ Hne Hb Hb' Ho Ho' Hu).
  destruct (Z.leb_spec (Unique.immutable_borrows u) 0); [lia|].
  erewrite acquireImmutableBorrow_eq; cycle 1.
  { cbn. apply lookup_insert_eq. }
  cbn [Unique.mutable_borrowed Unique.immutable_borrows
       Unique.set_immutable_borrows].
  rewrite Hflag, int_incr_lt by lia.
  eexists; split; [done|]. cbn.
  assert (Unique.set_immutable_borrows (Unique.immutable_borrows u - 1 + 1)
            (Unique.set_immutable_borrows (Unique.immutable_borrows u - 1) u) = u)
    as ->.
  { destruct u as [d n f]. unfold Unique.set_immutable_borrows; cbn.
    f_equal. lia. }
  rewrite insert_insert_eq, insert_id by done.
  split; [done|]. split; [done|]. by rewrite <- app_assoc.
Qed.

(** ** Handles whose borrow is gone *)

(** The destructors of the handles, and move assignment of the exclusive
    handle, are [noexcept]: when the release they make is refused, nothing
    is thrown to the caller; the program ends, with the store untouched. *)
Theorem refused_release_in_handle_terminates w a u :
  uniques w !! a = Some u →
  (∀ h b, borroweds w !! h = Some b → Borrowed.owner_ b = Some a →
          Unique.immutable_borrows u <= 0 →
          Borrowed_dtor h w = (Terminate, w))
  ∧ (∀ h bm, borrowedMuts w !! h = Some bm → BorrowedMut.owner_ bm = Some a →
             Unique.mutable_borrowed u = false →
             BorrowedMut_dtor h w = (Terminate, w)
             ∧ ∀ other, other ≠ h →
                 BorrowedMut_move_assign h other w = (Terminate, w)).
Proof.
  intros Hu. split.
  - intros h b Hh Ho Hn. rewrite (Borrowed_dtor_eq _ _ _ _ _ Hh Ho Hu).
    by destruct (Z.leb_spec (Unique.immutable_borrows u) 0); [|lia].
  - intros h [o d] Hh Ho Hf. cbn in Ho. subst o.
    unfold BorrowedMut_dtor, BorrowedMut_move_assign, BorrowedMut_release,
      releaseMutableBorrow.
    destruct w as [U B BM Hp Hi], u as [du n f]; cbn in Hu, Hh, Hf. subst f.
    split; [by cxx_run|]. intros other Hne. by cxx_run.
Qed.

(** ** Transfer, then the end of both owners *)

(** After a successful move assignment between two owners of different
    resources, both owners can be destroyed, the emptied source first: the
    destructor of the source deletes nothing, and the destructor of the
    destination deletes the resource it took over.  Each of the two
    resources has then been deleted once, the destination's old one by the
    assignment itself. *)
Theorem transfer_then_destroy w this other u v :
  this ≠ other →
  uniques w !! this = Some u → uniques w !! other = Some v →
  borrowed u = false → borrowed v = false →
  deletable (Unique.data u) w → deletable (Unique.data v) w →
  (Unique.data u = Unique.data v → Unique.data u = None) →
  ∃ w1 w2 w3,
    Unique_move_assign this other w = (Ok tt, w1)
    ∧ heap w1 = freed (Unique.data u) (heap w)
    ∧ Unique_dtor other w1 = (Ok tt, w2)
    ∧ heap w2 = heap w1
    ∧ Unique_dtor this w2 = (Ok tt, w3)
    ∧ heap w3 = freed (Unique.data v) (freed (Unique.data u) (heap w))
    ∧ uniques w3 = delete this (delete other (uniques w)).
Proof.
  intros Hne Hu Hv Bu Bv Du Dv Hdiff.
  assert (E1 : Unique_move_assign this other w
               = (Ok tt, upd_uniques
                           (λ m, <[other := empty_unique]> (<[this := v]> m))
                           (upd_heap (freed (Unique.data u)) w))).
  { rewrite (Unique_move_assign_eq _ _ _ Hu _ _ Hv Hne), Bu, Bv.
    destruct (Unique.data u) as [q|]; cbn in Du |- *.
    - by rewrite decide_True.
    - by destruct w. }
  set (w1 := upd_uniques _ _) in E1.
  assert (E2 : Unique_dtor other w1 = (Ok tt, upd_uniques (delete other) w1)).
  { erewrite Unique_dtor_eq; [|cbn; apply lookup_insert_eq]. done. }
  set (w2 := upd_uniques (delete other) w1) in E2.
  assert (Hv2 : uniques w2 !! this = Some v).
  { cbn. rewrite lookup_delete_ne, lookup_insert_ne, lookup_insert_eq; done. }
  assert (Dv2 : deletable (Unique.data v) w2).
  { destruct (Unique.data v) as [q|] eqn:Ev; [|done]. cbn in Dv |- *.
    destruct (Unique.data u) as [q'|] eqn:Eu; cbn; [|done].
    apply elem_of_difference. split; [done|]. intros ->%elem_of_singleton.
    by specialize (Hdiff eq_refl). }
  assert (E3 : Unique_dtor this w2
               = (Ok tt, upd_uniques (delete this)
                           (upd_heap (freed (Unique.data v)) w2))).
  { rewrite (Unique_dtor_eq _ _ _ Hv2), Bv.
    destruct (Unique.data v) as [q|]; cbn in Dv2 |- *.
    - by rewrite decide_True.
    - done. }
  eexists w1, w2, _. split; [done|]. split; [done|]. split; [done|].
  split; [done|]. split; [exact E3|]. split; [done|]. cbn.
  apply map_eq. intros i. rewrite !lookup_delete, !lookup_insert.
  repeat case_decide; simplify_eq; done.
Qed.

(** ** Owners count their shared handles *)

Lemma shared_refs_insert a m h b :
  m !! h = None →
  shared_refs a (<[h := b]> m)
  = if decide (Borrowed.owner_ b = Some a)
    then S (shared_refs a m) else shared_refs a m.
Proof.
  intros Hh. unfold shared_refs. rewrite map_filter_insert. cbn.
  case_decide.
  - rewrite map_size_insert_None; [done|].
    apply map_lookup_filter_None_2. by left.
  - by rewrite delete_id.
Qed.

Lemma shared_refs_delete a m h b :
  m !! h = Some b →
  shared_refs a m
  = if decide (Borrowed.owner_ b = Some a)
    then S (shared_refs a (delete h m)) else shared_refs a (delete h m).
Proof.
  intros Hh. rewrite <- (insert_id m h b Hh) at 1.
  rewrite <- insert_delete_eq. apply shared_refs_insert, lookup_delete_eq.
Qed.

Lemma shared_refs_overwrite a m h b b' :
  m !! h = Some b → Borrowed.owner_ b' = Borrowed.owner_ b →
  shared_refs a (<[h := b']> m) = shared_refs a m.
Proof.
  intros Hh Ho. rewrite <- insert_delete_eq.
  rewrite shared_refs_insert by apply lookup_delete_eq.
  rewrite (shared_refs_delete a m h b Hh), Ho. done.
Qed.

Lemma counts_kept_refl w : counts_kept w w.
Proof. by split. Qed.

Lemma counts_kept_trans w1 w2 w3 :
  counts_kept w1 w2 → counts_kept w2 w3 → counts_kept w1 w3.
Proof. intros [E1 H1] [E2 H2]. split; [congruence|]. intros a. by rewrite H2. Qed.

Lemma counts_kept_frame w w' :
  uniques w' = uniques w → borroweds w' = borroweds w → counts_kept w w'.
Proof. intros E1 E2. split; [done|]. intros a. by rewrite E1. Qed.

Lemma shared_handles_ok_counts_kept w w' :
  counts_kept w w' → shared_handles_ok w → shared_handles_ok w'.
Proof.
  intros [E H] K a. specialize (K a). specialize (H a). rewrite E.
  destruct (uniques w !! a) as [u|], (uniques w' !! a) as [u'|];
    cbn in H; simplify_eq; [|done]. by rewrite H.
Qed.

Ltac counts_prim :=
  intros [? ? ? ? ?] ? ?; cxx_unfold;
  repeat case_match; intros; simplify_eq;
  first [ apply counts_kept_refl | by apply counts_kept_frame ].

Lemma keeps_counts_ret {A} (x : A) : keeps_counts (ret x).
Proof. counts_prim. Qed.
Lemma keeps_counts_throw {A} e : keeps_counts (throw (A := A) e).
Proof. counts_prim. Qed.
Lemma keeps_counts_undefined {A} : keeps_counts (undefined (A := A)).
Proof. counts_prim. Qed.

Lemma keeps_counts_bind {A B} (m : M World A) (k : A → M World B) :
  keeps_counts m → (∀ x, keeps_counts (k x)) → keeps_counts (bind m k).
Proof.
  intros Hm Hk w r w'. unfold bind.
  destruct (m w) as [[x| | |] w1] eqn:E; intros H.
  - eapply counts_kept_trans; [by eapply Hm|by eapply Hk].
  - simplify_eq. by eapply Hm.
  - simplify_eq. by eapply Hm.
  - simplify_eq. by eapply Hm.
Qed.

Lemma keeps_counts_noexcept {A} (m : M World A) :
  keeps_counts m → keeps_counts (noexcept m).
Proof.
  intros Hm w r w'. unfold noexcept.
  destruct (m w) as [[x| | |] w1] eqn:E; intros H; simplify_eq; by eapply Hm.
Qed.

Lemma keeps_counts_deref p : keeps_counts (deref p).
Proof. destruct p; counts_prim. Qed.
Lemma keeps_counts_load_unique a : keeps_counts (load_unique a).
Proof. counts_prim. Qed.
Lemma keeps_counts_load_borrowed a : keeps_counts (load_borrowed a).
Proof. counts_prim. Qed.
Lemma keeps_counts_load_borrowedMut a : keeps_counts (load_borrowedMut a).
Proof. counts_prim. Qed.
Lemma keeps_counts_store_borrowedMut a b : keeps_counts (store_borrowedMut a b).
Proof. counts_prim. Qed.
Lemma keeps_counts_new_ p : keeps_counts (new_ p).
Proof. counts_prim. Qed.
Lemma keeps_counts_delete_ p : keeps_counts (delete_ p).
Proof. destruct p; counts_prim. Qed.
Lemma keeps_counts_deref_resource p : keeps_counts (deref_resource p).
Proof. destruct p; counts_prim. Qed.
Lemma keeps_counts_emit e : keeps_counts (emit e).
Proof. counts_prim. Qed.
Lemma keeps_counts_storage_borrowedMut a : keeps_counts (storage_borrowedMut a).
Proof. counts_prim. Qed.
Lemma keeps_counts_end_borrowedMut a : keeps_counts (end_borrowedMut a).
Proof. counts_prim. Qed.

(** Writing a member other than the count. *)
Lemma keeps_counts_store_same_count a (f : Unique.t → Unique.t) :
  (∀ u, Unique.immutable_borrows (f u) = Unique.immutable_borrows u) →
  keeps_counts (bind (load_unique a) (λ u, store_unique a (f u))).
Proof.
  intros Hf [U B BM Hp Hi] r w'. cxx_unfold.
  destruct (U !! a) as [u|] eqn:Hu; intros [= <- <-]; [|apply counts_kept_refl].
  split; [done|]. intros b. cbn.
  rewrite lookup_insert. case_decide; [|done]. subst b. rewrite Hu. cbn.
  by rewrite Hf.
Qed.

Lemma keeps_counts_set_mutable_borrowed a b : keeps_counts (set_mutable_borrowed a b).
Proof. by apply (keeps_counts_store_same_count a (Unique.set_mutable_borrowed b)). Qed.

Ltac counts_steps :=
  repeat first
    [ solve [auto using keeps_counts_ret, keeps_counts_throw,
               keeps_counts_undefined, keeps_counts_deref,
               keeps_counts_load_unique, keeps_counts_load_borrowed,
               keeps_counts_load_borrowedMut, keeps_counts_store_borrowedMut,
               keeps_counts_new_, keeps_counts_delete_,
               keeps_counts_deref_resource, keeps_counts_emit,
               keeps_counts_storage_borrowedMut, keeps_counts_end_borrowedMut,
               keeps_counts_set_mutable_borrowed]
    | apply keeps_counts_bind; [|intros ?]
    | apply keeps_counts_noexcept
    | match goal with
      | |- keeps_counts (if ?c then _ else _) => destruct c
      | |- keeps_counts (match ?c with _ => _ end) => destruct c
      end ].

(** The calls that write neither a count nor a shared handle. *)
Lemma keeps_counts_exec c :
  match c with
  | CNew _ | CAcquireMutableBorrow _ | CReleaseMutableBorrow _ | CBorrowMut _ _
  | CArrow _ | CArrowConst _ | CStar _ | CStarConst _ | CGet _ | CGetConst _
  | CBool _ | CBorrowedMut _ _ _ | CBorrowedMutMove _ _
  | CBorrowedMutMoveAssign _ _ | CBorrowedMutDtor _ => keeps_counts (exec c)
  | _ => True
  end.
Proof.
  destruct c; try exact I; cbn [exec];
    unfold acquireMutableBorrow, releaseMutableBorrow, borrow_mut,
      BorrowedMut_ctor, BorrowedMut_move_ctor, BorrowedMut_move_assign,
      BorrowedMut_dtor, BorrowedMut_release, acquireMutableBorrow,
      releaseMutableBorrow, Unique_arrow, Unique_arrow_const, Unique_star,
      Unique_star_const, Unique_get, Unique_get_const, Unique_bool, discard,
      BorrowedMut_get_owner_, BorrowedMut_set_owner_, BorrowedMut_get_data,
      BorrowedMut_set_data, is_borrowed, get_data, get_immutable_borrows,
      get_mutable_borrowed;
    counts_steps.
Qed.

Lemma shared_handles_ok_owner_insert w w' a u' :
  shared_handles_ok w →
  uniques w' = <[a := u']> (uniques w) → borroweds w' = borroweds w →
  Z.of_nat (shared_refs a (borroweds w)) <= Unique.immutable_borrows u' →
  shared_handles_ok w'.
Proof.
  intros K EU EB Hle b. specialize (K b). rewrite EU, EB, lookup_insert.
  case_decide; [by subst b|done].
Qed.

Lemma shared_handles_ok_owner_delete w w' a :
  shared_handles_ok w →
  uniques w' = delete a (uniques w) → borroweds w' = borroweds w →
  shared_refs a (borroweds w) = 0%nat →
  shared_handles_ok w'.
Proof.
  intros K EU EB Hz b. specialize (K b). rewrite EU, EB, lookup_delete.
  case_decide; [by subst b|done].
Qed.

Lemma shared_handles_ok_unborrowed w a u :
  shared_handles_ok w → uniques w !! a = Some u → borrowed u = false →
  shared_refs a (borroweds w) = 0%nat ∧ 0 <= Unique.immutable_borrows u.
Proof.
  intros K Hu [Hn _]%borrowed_false. specialize (K a). rewrite Hu in K. lia.
Qed.

Lemma shared_handles_ok_free w a :
  shared_handles_ok w → uniques w !! a = None →
  shared_refs a (borroweds w) = 0%nat.
Proof. intros K Hu. specialize (K a). by rewrite Hu in K. Qed.

(** A live shared handle refers to a live owner with a positive count. *)
Lemma shared_handles_ok_handle w h b a :
  shared_handles_ok w → borroweds w !! h = Some b → Borrowed.owner_ b = Some a →
  ∃ u, uniques w !! a = Some u ∧ 0 < Unique.immutable_borrows u.
Proof.
  intros K Hh Ho. specialize (K a).
  rewrite (shared_refs_delete a _ h b Hh), decide_True in K by done.
  destruct (uniques w !! a) as [u|]; [|done]. exists u. split; [done|lia].
Qed.

Lemma shared_handles_ok_add w w' a u h b :
  shared_handles_ok w →
  uniques w !! a = Some u → borroweds w !! h = None →
  Borrowed.owner_ b = Some a →
  uniques w' = <[a := Unique.set_immutable_borrows
                        (Unique.immutable_borrows u + 1) u]> (uniques w) →
  borroweds w' = <[h := b]> (borroweds w) →
  shared_handles_ok w'.
Proof.
  intros K Hu Hh Ho EU EB c. specialize (K c).
  rewrite EU, EB, lookup_insert, (shared_refs_insert _ _ _ _ Hh), Ho.
  destruct (decide (a = c)) as [<-|Hne].
  - rewrite Hu in K. rewrite decide_True by done. cbn. lia.
  - rewrite decide_False by congruence. done.
Qed.

Lemma shared_handles_ok_remove w w' a u h b :
  shared_handles_ok w →
  uniques w !! a = Some u → borroweds w !! h = Some b →
  Borrowed.owner_ b = Some a →
  uniques w' = <[a := Unique.set_immutable_borrows
                        (Unique.immutable_borrows u - 1) u]> (uniques w) →
  borroweds w' = delete h (borroweds w) →
  shared_handles_ok w'.
Proof.
  intros K Hu Hh Ho EU EB c. specialize (K c).
  rewrite (shared_refs_delete c _ h b Hh), Ho in K.
  rewrite EU, EB, lookup_insert.
  destruct (decide (a = c)) as [<-|Hne].
  - rewrite Hu in K. rewrite decide_True in K by done. cbn. lia.
  - rewrite decide_False in K by congruence. done.
Qed.

Lemma shared_handles_ok_Unique_ctor a p w r w' :
  shared_handles_ok w → Unique_ctor a p w = (r, w') → shared_handles_ok w'.
Proof.
  intros K. unfold Unique_ctor, bind, storage_unique.
  destruct (uniques w !! a) as [u|] eqn:Hu; intros [= <- <-]; [done|].
  eapply shared_handles_ok_owner_insert; [done..|]. cbn.
  rewrite (shared_handles_ok_free _ _ K Hu). done.
Qed.

(** The destructor of an owner that is not borrowed: no handle refers to
    the owner that goes. *)
Lemma shared_handles_ok_Unique_dtor a w r w' :
  spares_borrowed (CUniqueDtor a) w →
  shared_handles_ok w → Unique_dtor a w = (r, w') → shared_handles_ok w'.
Proof.
  cbn [spares_borrowed]. intros Hs K.
  destruct (uniques w !! a) as [u|] eqn:Hu; cycle 1.
  { rewrite dangling_Unique_dtor by done. by intros [= <- <-]. }
  rewrite (Unique_dtor_eq _ _ _ Hu). pose proof (Hs u eq_refl) as Hb. rewrite Hb.
  destruct (shared_handles_ok_unborrowed _ _ _ K Hu Hb) as [Hz _].
  destruct (Unique.data u) as [q|].
  - case_decide; intros [= <- <-]; [|done].
    by eapply shared_handles_ok_owner_delete.
  - intros [= <- <-]. by eapply shared_handles_ok_owner_delete.
Qed.

Lemma shared_handles_ok_moved w w' this other v :
  shared_handles_ok w →
  shared_refs this (borroweds w) = 0%nat →
  shared_refs other (borroweds w) = 0%nat →
  0 <= Unique.immutable_borrows v →
  uniques w' = <[other := empty_unique]> (<[this := v]> (uniques w)) →
  borroweds w' = borroweds w →
  shared_handles_ok w'.
Proof.
  intros K Zt Zo Hv EU EB.
  eapply (shared_handles_ok_owner_insert
            (mkWorld (<[this := v]> (uniques w)) (borroweds w)
               (borrowedMuts w) (heap w) (history w)));
    [|done|done|cbn; by rewrite Zo].
  eapply shared_handles_ok_owner_insert; [done..|]. rewrite Zt. done.
Qed.

Lemma shared_handles_ok_Unique_move_ctor this other w r w' :
  shared_handles_ok w → Unique_move_ctor this other w = (r, w') →
  shared_handles_ok w'.
Proof.
  intros K. destruct (uniques w !! this) as [u|] eqn:Hu.
  { rewrite (occupied_Unique_move_ctor _ _ _ _ Hu). by intros [= <- <-]. }
  destruct (uniques w !! other) as [v|] eqn:Hv; cycle 1.
  { rewrite dangling_Unique_move_ctor by done. by intros [= <- <-]. }
  rewrite (Unique_move_ctor_eq _ _ _ _ Hu Hv).
  destruct (borrowed v) eqn:Hb; intros [= <- <-]; [done|].
  destruct (shared_handles_ok_unborrowed _ _ _ K Hv Hb) as [Zo Hn].
  eapply (shared_handles_ok_moved w _ this other v);
    [done|by eapply shared_handles_ok_free|done|done| |done].
  cbn. assert (this ≠ other) by congruence. by rewrite insert_insert_ne.
Qed.

Lemma shared_handles_ok_Unique_move_assign this other w r w' :
  shared_handles_ok w → Unique_move_assign this other w = (r, w') →
  shared_handles_ok w'.
Proof.
  intros K. destruct (decide (this = other)) as [->|Hne].
  { rewrite Unique_move_assign_self. by intros [= <- <-]. }
  destruct (uniques w !! this) as [u|] eqn:Hu; cycle 1.
  { rewrite dangling_Unique_move_assign_this by done. by intros [= <- <-]. }
  destruct (uniques w !! other) as [v|] eqn:Hv; cycle 1.
  { rewrite (dangling_Unique_move_assign_other _ _ _ _ Hne Hu Hv).
    by destruct (borrowed u); intros [= <- <-]. }
  rewrite (Unique_move_assign_eq _ _ _ Hu _ _ Hv Hne).
  destruct (borrowed u) eqn:Bu; [by intros [= <- <-]|].
  destruct (borrowed v) eqn:Bv; [by intros [= <- <-]|].
  destruct (shared_handles_ok_unborrowed _ _ _ K Hu Bu) as [Zt _].
  destruct (shared_handles_ok_unborrowed _ _ _ K Hv Bv) as [Zo Hn].
  destruct (Unique.data u) as [q|].
  - case_decide; intros [= <- <-]; [|done].
    by eapply (shared_handles_ok_moved w _ this other v).
  - intros [= <- <-]. by eapply (shared_handles_ok_moved w _ this other v).
Qed.

Lemma shared_handles_ok_acquireImmutableBorrow a w r w' :
  shared_handles_ok w → acquireImmutableBorrow a w = (r, w') →
  shared_handles_ok w'.
Proof.
  intros K. destruct (uniques w !! a) as [u|] eqn:Hu; cycle 1.
  { rewrite dangling_acquireImmutableBorrow by done. by intros [= <- <-]. }
  rewrite (acquireImmutableBorrow_eq _ _ _ Hu).
  destruct (Unique.mutable_borrowed u); [by intros [= <- <-]|].
  destruct (int_incr _) as [n'|] eqn:E; intros [= <- <-]; [|done].
  apply int_incr_Some in E as [-> _].
  eapply shared_handles_ok_owner_insert; [done..|]. cbn.
  specialize (K a). rewrite Hu in K. lia.
Qed.

Lemma shared_handles_ok_Borrowed_ctor this owner p w r w' :
  shared_handles_ok w → Borrowed_ctor this owner p w = (r, w') →
  continues r = true → shared_handles_ok w'.
Proof.
  intros K. unfold Borrowed_ctor, acquireImmutableBorrow.
  destruct (borroweds w !! this) as [b|] eqn:Hb; [cxx_run; by intros [= <- <-]|].
  destruct owner as [o|]; [|cxx_run; by intros [= <- <-]].
  destruct (uniques w !! o) as [u|] eqn:Hu; [|cxx_run; by intros [= <- <-]].
  destruct u as [d n [|]]; cxx_run; [by intros [= <- <-]|].
  destruct (int_incr n) eqn:E; cxx_run; intros [= <- <-] ?; [|done].
  apply int_incr_Some in E as [-> _].
  eapply (shared_handles_ok_add w _ o _ this (Borrowed.mk (Some o) p));
    [done..| |]; cbn; done.
Qed.

Lemma shared_handles_ok_borrow a h w r w' :
  shared_handles_ok w → borrow a h w = (r, w') →
  continues r = true → shared_handles_ok w'.
Proof.
  intros K. unfold borrow, bind at 1, get_data, bind at 1, load_unique.
  destruct (uniques w !! a); [|by intros [= <- <-]].
  cbn [ret]. by apply shared_handles_ok_Borrowed_ctor.
Qed.

Lemma shared_handles_ok_Borrowed_copy_ctor this other w r w' :
  shared_handles_ok w → Borrowed_copy_ctor this other w = (r, w') →
  continues r = true → shared_handles_ok w'.
Proof.
  intros K.
  destruct (borroweds w !! this) as [b0|] eqn:Hb.
  { unfold Borrowed_copy_ctor. cxx_run. by intros [= <- <-]. }
  destruct (borroweds w !! other) as [b|] eqn:Hb'.
  2:{ unfold Borrowed_copy_ctor. cxx_run. by intros [= <- <-]. }
  destruct (Borrowed.owner_ b) as [o|] eqn:Ho.
  2:{ destruct b as [ob db]; cbn in Ho; subst ob.
      unfold Borrowed_copy_ctor. cxx_run. by intros [= <- <-]. }
  destruct (shared_handles_ok_handle _ _ _ _ K Hb' Ho) as (u & Hu & _).
  rewrite (Borrowed_copy_ctor_eq _ _ _ _ _ _ Hb Hb' Ho Hu).
  destruct (Unique.mutable_borrowed u); [by intros [= <- <-]|].
  destruct (int_incr _) eqn:E; intros [= <- <-] ?; [|done].
  apply int_incr_Some in E as [-> _].
  by eapply (shared_handles_ok_add w _ o _ this).
Qed.

Lemma shared_handles_ok_Borrowed_dtor h w r w' :
  shared_handles_ok w → Borrowed_dtor h w = (r, w') →
  continues r = true → shared_handles_ok w'.
Proof.
  intros K.
  destruct (borroweds w !! h) as [b|] eqn:Hb.
  2:{ unfold Borrowed_dtor. cxx_run. by intros [= <- <-]. }
  destruct (Borrowed.owner_ b) as [o|] eqn:Ho.
  2:{ destruct b as [ob db]; cbn in Ho; subst ob.
      unfold Borrowed_dtor. cxx_run. by intros [= <- <-]. }
  destruct (shared_handles_ok_handle _ _ _ _ K Hb Ho) as (u & Hu & Hn).
  rewrite (Borrowed_dtor_eq _ _ _ _ _ Hb Ho Hu).
  destruct (Z.leb_spec (Unique.immutable_borrows u) 0); [lia|].
  intros [= <- <-] _. by eapply (shared_handles_ok_remove w _ o _ h).
Qed.

Lemma shared_handles_ok_Borrowed_copy_assign this other w r w' :
  world_inv w → shared_handles_ok w →
  Borrowed_copy_assign this other w = (r, w') →
  continues r = true → shared_handles_ok w'.
Proof.
  intros I K. destruct (decide (this = other)) as [->|Hne].
  { rewrite Borrowed_copy_assign_self. by intros [= <- <-]. }
  destruct (borroweds w !! this) as [b|] eqn:Hb.
  2:{ unfold Borrowed_copy_assign. cxx_run. by intros [= <- <-]. }
  destruct (Borrowed.owner_ b) as [o|] eqn:Ho.
  2:{ destruct b as [ob db]; cbn in Ho; subst ob.
      unfold Borrowed_copy_assign. cxx_run. by intros [= <- <-]. }
  destruct (shared_handles_ok_handle _ _ _ _ K Hb Ho) as (u & Hu & Hn).
  destruct (borroweds w !! other) as [b'|] eqn:Hb'.
  2:{ unfold Borrowed_copy_assign, releaseBorrowImmutable.
      destruct w as [U B BM Hp Hi], u as [d n f], b as [ob db];
        cbn in Hb, Hb', Hu, Hn, Ho |- *; subst ob.
      cxx_run. destruct (Z.leb_spec n 0); [lia|].
      rewrite int_decr_pos by done. cxx_run. by intros [= <- <-]. }
  destruct (Borrowed.owner_ b') as [o'|] eqn:Ho'.
  2:{ unfold Borrowed_copy_assign, releaseBorrowImmutable.
      destruct w as [U B BM Hp Hi], u as [d n f], b as [ob db], b' as [ob' db'];
        cbn in Hb, Hb', Hu, Hn, Ho, Ho' |- *; subst ob ob'.
      cxx_run. destruct (Z.leb_spec n 0); [lia|].
      rewrite int_decr_pos by done. cxx_run. by intros [= <- <-]. }
  destruct (shared_handles_ok_handle _ _ _ _ K Hb' Ho') as (u' & Hu' & Hn').
  rewrite (Borrowed_copy_assign_eq _ _ _ _ _ _ _ _ Hne Hb Hb' Ho Ho' Hu).
  destruct (Z.leb_spec (Unique.immutable_borrows u) 0); [lia|].
  set (U1 := <[o := Unique.set_immutable_borrows
                      (Unique.immutable_borrows u - 1) u]> (uniques w)).
  set (w1 := mkWorld U1 (<[this := b']> (borroweds w)) _ _ _).
  pose (wm := mkWorld U1 (delete this (borroweds w)) (borrowedMuts w)
                (heap w) (history w)).
  assert (shared_handles_ok wm) as Km
    by by eapply (shared_handles_ok_remove w wm o u this).
  assert (∃ v, uniques w1 !! o' = Some v ∧ Unique.mutable_borrowed v = false)
    as (v & Hv & Fv).
  { cbn. unfold U1. rewrite lookup_insert.
    destruct (I o u Hu) as [Iu _], (I o' u' Hu') as [Iu' _].
    case_decide.
    - eexists. split; [done|]. cbn. destruct (Unique.mutable_borrowed u); [|done].
      exfalso. by apply Iu.
    - exists u'. split; [done|]. destruct (Unique.mutable_borrowed u'); [|done].
      exfalso. by apply Iu'. }
  rewrite (acquireImmutableBorrow_eq _ _ _ Hv), Fv.
  destruct (int_incr _) eqn:E; intros [= <- <-] ?; [|done].
  apply int_incr_Some in E as [-> _].
  eapply (shared_handles_ok_add wm _ o' v this b'); [done|done| |done|done|].
  - cbn. apply lookup_delete_eq.
  - cbn. by rewrite insert_delete_eq.
Qed.

(** Every call but a bare release and the destruction of a borrowed owner
    keeps the count of each owner at or above the number of its shared
    handles. *)
Lemma shared_handles_ok_exec c w r w' :
  shared_protocol c w → world_inv w → shared_handles_ok w →
  exec c w = (r, w') → continues r = true → shared_handles_ok w'.
Proof.
  intros [Hc Hs] I K E Hr. pose proof (keeps_counts_exec c) as Hother.
  destruct c; try discriminate Hc; cbn [exec] in E;
    try (by eapply shared_handles_ok_counts_kept; [eapply Hother|]).
  - by eapply shared_handles_ok_Unique_ctor.
  - by eapply shared_handles_ok_Unique_dtor.
  - by eapply shared_handles_ok_Unique_move_ctor.
  - by eapply shared_handles_ok_Unique_move_assign.
  - by eapply shared_handles_ok_acquireImmutableBorrow.
  - by eapply shared_handles_ok_borrow.
  - by eapply shared_handles_ok_Borrowed_ctor.
  - by eapply shared_handles_ok_Borrowed_copy_ctor.
  - by eapply shared_handles_ok_Borrowed_copy_assign.
  - by eapply shared_handles_ok_Borrowed_dtor.
Qed.

Lemma shared_handles_ok_empty : shared_handles_ok empty_world.
Proof. intros a. cbn. by rewrite lookup_empty. Qed.

Lemma shared_handles_ok_run cs :
  ∀ w, run_where shared_protocol cs w →
       world_inv w → shared_handles_ok w →
       Forall shared_handles_ok (run cs w).
Proof.
  induction cs as [|c cs IH]; intros w Hcs I K; cbn [run]; [constructor|].
  cbn [run_where] in Hcs. destruct Hcs as [Hc Hcs].
  destruct (exec c w) as [[[]| | |] w'] eqn:E; [| |constructor..];
    (constructor; [|apply IH; [done| |]]);
    first [by eapply shared_handles_ok_exec | by eapply every_call_keeps_invariant].
Qed.

(** A shared handle does not dangle as long as no borrowed owner is
    destroyed.  In every store a client makes from no object at all without
    a bare release and without the destruction of a borrowed owner, the
    owner a live shared handle refers to is live, its count is positive and
    at least the number of the handles that refer to it, and it is not
    exclusively borrowed.  So the owner refuses an exclusive borrow without
    a change, and the destructor of the handle returns: it ends the handle
    and takes one from the count.  The destructor of the owner, called in
    such a store, throws [DestroyWithActiveBorrows]; it writes and deletes
    nothing, but the owner is gone, and the destructor of the handle has
    from then on no defined behaviour. *)
Theorem shared_handles_in_runs cs w h b a :
  run_where shared_protocol cs empty_world → w ∈ run cs empty_world →
  borroweds w !! h = Some b → Borrowed.owner_ b = Some a →
  ∃ u, uniques w !! a = Some u
       ∧ 0 < Z.of_nat (shared_refs a (borroweds w)) <= Unique.immutable_borrows u
       ∧ Unique.mutable_borrowed u = false
       ∧ acquireMutableBorrow a w = (Throw MutableBorrowOfImmutablyBorrowed, w)
       ∧ (∃ w', Borrowed_dtor h w = (Ok tt, w')
                ∧ borroweds w' = delete h (borroweds w)
                ∧ uniques w' !! a
                  = Some (Unique.set_immutable_borrows
                            (Unique.immutable_borrows u - 1) u))
       ∧ Unique_dtor a w
         = (Throw DestroyWithActiveBorrows, upd_uniques (delete a) w)
       ∧ Borrowed_dtor h (upd_uniques (delete a) w)
         = (Undefined, upd_uniques (delete a) w).
Proof.
  intros Hcs Hw Hh Ho.
  assert (K : shared_handles_ok w).
  { eapply Forall_forall; [|done].
    apply (shared_handles_ok_run cs _ Hcs);
      [apply world_inv_empty | apply shared_handles_ok_empty]. }
  assert (I : world_inv w).
  { eapply Forall_forall; [apply run_inv, world_inv_empty|done]. }
  pose proof (K a) as Ka.
  rewrite (shared_refs_delete a _ h b Hh), decide_True in Ka by done.
  destruct (uniques w !! a) as [u|] eqn:Hu; [|done].
  destruct (I a u Hu) as [Iu _].
  assert (Unique.mutable_borrowed u = false) as Hf.
  { destruct (Unique.mutable_borrowed u); [|done]. exfalso. apply Iu. lia. }
  assert ((0 <? Unique.immutable_borrows u) = true) as Hpos by (apply Z.ltb_lt; lia).
  assert (borrowed u = true) as Hb by (unfold borrowed; by rewrite Hpos).
  exists u. split; [done|]. split.
  { rewrite (shared_refs_delete a _ h b Hh), decide_True by done. lia. }
  split; [done|].
  split; [by rewrite (acquireMutableBorrow_eq _ _ _ Hu), Hb|].
  split.
  { eexists. rewrite (Borrowed_dtor_eq _ _ _ _ _ Hh Ho Hu).
    destruct (Z.leb_spec (Unique.immutable_borrows u) 0); [lia|].
    split; [done|]. cbn. by rewrite lookup_insert_eq. }
  split; [by rewrite (Unique_dtor_eq _ _ _ Hu), Hb|].
  eapply dangling_Borrowed_dtor; [exact Hh|done|]. cbn. apply lookup_delete_eq.
Qed.

(** Nor does an exclusive handle.  In every store a client makes from no
    object at all without a bare [releaseMutableBorrow] and without the
    destruction of a borrowed owner, the owner a live exclusive handle
    refers to is live with the exclusive flag set and no shared borrow, and
    no other exclusive handle refers to it.  So the owner refuses both
    kinds of borrow without a change, and the destructor of the handle
    returns: it ends the handle and clears the flag.  The destructor of the
    owner, called in such a store, throws [DestroyWithActiveBorrows]; it
    writes and deletes nothing, but the owner is gone, and the destructor
    of the handle has from then on no defined behaviour. *)
Theorem exclusive_handle_in_runs cs w h bm a :
  run_where exclusive_protocol cs empty_world → w ∈ run cs empty_world →
  borrowedMuts w !! h = Some bm → BorrowedMut.owner_ bm = Some a →
  ∃ u, uniques w !! a = Some u
       ∧ Unique.mutable_borrowed u = true
       ∧ Unique.immutable_borrows u = 0
       ∧ (∀ h' bm', borrowedMuts w !! h' = Some bm' →
                    BorrowedMut.owner_ bm' = Some a → h' = h)
       ∧ acquireImmutableBorrow a w = (Throw MutableBorrowOfMutablyBorrowed, w)
       ∧ acquireMutableBorrow a w = (Throw MutableBorrowOfImmutablyBorrowed, w)
       ∧ (∃ w', BorrowedMut_dtor h w = (Ok tt, w')
                ∧ borrowedMuts w' = delete h (borrowedMuts w)
                ∧ uniques w' !! a = Some (Unique.set_mutable_borrowed false u))
       ∧ Unique_dtor a w
         = (Throw DestroyWithActiveBorrows, upd_uniques (delete a) w)
       ∧ BorrowedMut_dtor h (upd_uniques (delete a) w)
         = (Undefined, upd_uniques (delete a) w).
Proof.
  intros Hcs Hw Hh Ho.
  assert (J : exclusive_handles_ok w).
  { eapply Forall_forall; [apply (exclusive_handles_ok_run cs _ Hcs)|done].
    intros h0 bm0 a0. cbn. by rewrite lookup_empty. }
  assert (I : world_inv w).
  { eapply Forall_forall; [apply run_inv, world_inv_empty|done]. }
  destruct (J h bm a Hh Ho) as [X Huniq]. pose proof X as X'. cbn in X.
  destruct (uniques w !! a) as [u|] eqn:Hu; [|done].
  destruct (I a u Hu) as [Iu Hn].
  assert (Unique.immutable_borrows u = 0) as Hz.
  { destruct (Z.ltb_spec 0 (Unique.immutable_borrows u)); [|lia].
    exfalso. by apply Iu. }
  assert (borrowed u = true) as Hb
    by (unfold borrowed; rewrite X; apply orb_true_r).
  exists u. do 4 (split; [done|]).
  split; [by rewrite (acquireImmutableBorrow_eq _ _ _ Hu), X|].
  split; [by rewrite (acquireMutableBorrow_eq _ _ _ Hu), Hb|].
  split.
  { eexists. rewrite (BorrowedMut_dtor_eq _ _ _ Hh) by by rewrite Ho.
    split; [done|]. split; [done|]. cbn. rewrite Ho. unfold clear_flag.
    by rewrite lookup_alter_eq, Hu. }
  split; [by rewrite (Unique_dtor_eq _ _ _ Hu), Hb|].
  eapply dangling_BorrowedMut_dtor; [exact Hh|done|]. cbn. apply lookup_delete_eq.
Qed.

(** ** A handle passed on by copy *)

(** [v.push_back(owner.borrow())]: the temporary handle is copied into its
    place and destroyed.  On an owner that is not exclusively borrowed this
    leaves the owner and the handles as a borrow made in the place itself
    leaves them; in between the owner counts both handles. *)
Theorem copy_then_destroy_is_borrow w a u tmp slot :
  tmp ≠ slot → uniques w !! a = Some u →
  borroweds w !! tmp = None → borroweds w !! slot = None →
  Unique.mutable_borrowed u = false →
  0 <= Unique.immutable_borrows u → Unique.immutable_borrows u + 1 < INT_MAX →
  ∃ w1 w2 w3 wd,
    borrow a tmp w = (Ok tt, w1)
    ∧ Borrowed_copy_ctor slot tmp w1 = (Ok tt, w2)
    ∧ uniques w2 !! a
      = Some (Unique.set_immutable_borrows (Unique.immutable_borrows u + 2) u)
    ∧ Borrowed_dtor tmp w2 = (Ok tt, w3)
    ∧ borrow a slot w = (Ok tt, wd)
    ∧ uniques w3 = uniques wd ∧ borroweds w3 = borroweds wd
    ∧ borrowedMuts w3 = borrowedMuts wd ∧ heap w3 = heap wd.
Proof.
  intros Hne Hu Htmp Hslot Hf Hn Hmax.
  set (n := Unique.immutable_borrows u) in *.
  set (b := Borrowed.mk (Some a) (Unique.data u)).
  pose (u1 := Unique.set_immutable_borrows (n + 1) u).
  pose (u2 := Unique.set_immutable_borrows (n + 2) u).
  pose (w1 := mkWorld (<[a := u1]> (uniques w)) (<[tmp := b]> (borroweds w))
                (borrowedMuts w) (heap w) (history w ++ [AcquiredImmutable a])).
  pose (w2 := mkWorld (<[a := u2]> (uniques w1)) (<[slot := b]> (borroweds w1))
                (borrowedMuts w1) (heap w1) (history w1 ++ [AcquiredImmutable a])).
  assert (E1 : borrow a tmp w = (Ok tt, w1)).
  { rewrite (borrow_eq _ _ _ _ Hu Htmp), Hf. fold n. by rewrite int_incr_lt by lia. }
  assert (Ed : borrow a slot w
               = (Ok tt, mkWorld (<[a := u1]> (uniques w))
                           (<[slot := b]> (borroweds w))
                           (borrowedMuts w) (heap w)
                           (history w ++ [AcquiredImmutable a]))).
  { rewrite (borrow_eq _ _ _ _ Hu Hslot), Hf. fold n. by rewrite int_incr_lt by lia. }
  assert (Hu1 : uniques w1 !! a = Some u1) by apply lookup_insert_eq.
  assert (Ht1 : borroweds w1 !! tmp = Some b) by apply lookup_insert_eq.
  assert (Hs1 : borroweds w1 !! slot = None).
  { cbn. by rewrite lookup_insert_ne. }
  assert (E2 : Borrowed_copy_ctor slot tmp w1 = (Ok tt, w2)).
  { rewrite (Borrowed_copy_ctor_eq _ _ _ _ _ _ Hs1 Ht1 eq_refl Hu1).
    unfold u1 at 1 2. cbn [Unique.mutable_borrowed Unique.immutable_borrows
                           Unique.set_immutable_borrows].
    rewrite Hf, int_incr_lt by lia. unfold w2, u2, u1. do 3 f_equal.
    unfold Unique.set_immutable_borrows. cbn. f_equal. lia. }
  assert (Hu2 : uniques w2 !! a = Some u2) by apply lookup_insert_eq.
  assert (Ht2 : borroweds w2 !! tmp = Some b).
  { cbn. by rewrite lookup_insert_ne, lookup_insert_eq. }
  eexists w1, w2, _, _. split; [done|]. split; [done|]. split; [done|].
  rewrite (Borrowed_dtor_eq _ _ _ _ _ Ht2 eq_refl Hu2).
  unfold u2 at 1. cbn [Unique.immutable_borrows Unique.set_immutable_borrows].
  destruct (Z.leb_spec (n + 2) 0); [lia|].
  split; [done|]. split; [exact Ed|]. cbn.
  split; [|split; [|done]].
  - rewrite !insert_insert_eq. f_equal.
    unfold u2, u1, Unique.set_immutable_borrows. cbn. f_equal. lia.
  - rewrite delete_insert_ne, delete_insert_eq by done.
    f_equal. by apply delete_id.
Qed.

(** ** Construction from a raw pointer *)

(** Nothing keeps a resource to one owner.  The constructor takes any
    pointer and looks at no other owner, so two owners can be made for one
    resource.  When the first is destroyed the resource is deleted; the
    second still holds the pointer and says it is valid, and dereferencing
    it or destroying it, which deletes the resource again, has no defined
    behaviour. *)
Theorem one_resource_two_owners w a b p :
  a ≠ b → uniques w !! a = None → uniques w !! b = None → p ∈ heap w →
  ∃ w1 w2 w3,
    Unique_ctor a (Some p) w = (Ok tt, w1)
    ∧ Unique_ctor b (Some p) w1 = (Ok tt, w2)
    ∧ Unique_dtor a w2 = (Ok tt, w3)
    ∧ heap w3 = heap w ∖ {[p]}
    ∧ uniques w3 !! b = Some (Unique.mk (Some p) 0 false)
    ∧ Unique_bool b w3 = (Ok true, w3)
    ∧ Unique_star_const b w3 = (Undefined, w3)
    ∧ Unique_dtor b w3 = (Undefined, w3).
Proof.
  intros Hne Ha Hb Hp.
  assert (Hnot : p ∉ heap w ∖ {[p]}).
  { intros [_ Hx]%elem_of_difference. apply Hx. by apply elem_of_singleton. }
  destruct w as [U B BM Hp' Hi]; cbn [uniques heap] in *.
  eexists _, _, _.
  split. { unfold Unique_ctor. cxx_run. reflexivity. }
  split. { unfold Unique_ctor. cxx_run. reflexivity. }
  split.
  { erewrite Unique_dtor_eq;
      [|cbn; by rewrite lookup_insert_ne, lookup_insert_eq].
    cbn. by rewrite decide_True. }
  cbn [heap uniques].
  assert (delete a (<[b := Unique.mk (Some p) 0 false]>
                      (<[a := Unique.mk (Some p) 0 false]> U)) !! b
          = Some (Unique.mk (Some p) 0 false)) as Hb3
    by by rewrite lookup_delete_ne, lookup_insert_eq.
  split; [done|]. split; [done|].
  split. { unfold Unique_bool. cxx_unfold. by rewrite Hb3. }
  split.
  { erewrite Unique_star_const_eq; [|exact Hb3]. cbn. by rewrite decide_False. }
  erewrite Unique_dtor_eq; [|exact Hb3]. cbn. by rewrite decide_False.
Qed.

(** ** No handle holds a dangling pointer *)

Lemma data_same_insert w a u u' :
  uniques w !! a = Some u → Unique.data u' = Unique.data u →
  ∀ a0, Unique.data <$> (<[a := u']> (uniques w)) !! a0
        = Unique.data <$> uniques w !! a0.
Proof.
  intros Hu Hd a0. rewrite lookup_insert. case_decide; [|done].
  subst a0. by rewrite Hu; cbn; rewrite Hd.
Qed.

Lemma data_same_lookup w w' a u :
  (∀ a0, Unique.data <$> uniques w' !! a0 = Unique.data <$> uniques w !! a0) →
  uniques w !! a = Some u →
  ∃ u', uniques w' !! a = Some u' ∧ Unique.data u' = Unique.data u.
Proof.
  intros Hd Hu. specialize (Hd a). rewrite Hu in Hd.
  destruct (uniques w' !! a) as [u'|]; [|done]. exists u'.
  split; [done|]. by injection Hd.
Qed.

Lemma shared_handle_fits_data_same w w' b :
  (∀ a0, Unique.data <$> uniques w' !! a0 = Unique.data <$> uniques w !! a0) →
  shared_handle_fits w b → shared_handle_fits w' b.
Proof.
  intros Hd (a & u & Ho & Hu & Hb).
  destruct (data_same_lookup _ _ _ _ Hd Hu) as (u' & Hu' & Hd').
  exists a, u'. by rewrite Hd'.
Qed.

Lemma exclusive_handle_fits_data_same w w' bm :
  (∀ a0, Unique.data <$> uniques w' !! a0 = Unique.data <$> uniques w !! a0) →
  exclusive_handle_fits w bm → exclusive_handle_fits w' bm.
Proof.
  intros Hd. unfold exclusive_handle_fits.
  destruct (BorrowedMut.owner_ bm) as [a|]; [|done]. intros (u & Hu & Hb).
  destruct (data_same_lookup _ _ _ _ Hd Hu) as (u' & Hu' & Hd').
  exists u'. by rewrite Hd'.
Qed.

(** A step that changes no resource pointer of an owner and not the heap,
    and makes only handles that fit. *)
Lemma handles_safe_step w w' :
  handles_safe w →
  (∀ a0, Unique.data <$> uniques w' !! a0 = Unique.data <$> uniques w !! a0) →
  heap w' = heap w →
  (∀ h b, borroweds w' !! h = Some b →
          borroweds w !! h = Some b ∨ shared_handle_fits w b) →
  (∀ h bm, borrowedMuts w' !! h = Some bm →
           borrowedMuts w !! h = Some bm ∨ exclusive_handle_fits w bm) →
  handles_safe w'.
Proof.
  intros (S1 & S2 & S3 & S4) Hd Hh HB HBM.
  assert (Hd' : ∀ a0, Unique.data <$> uniques w !! a0
                      = Unique.data <$> uniques w' !! a0) by done.
  split; [|split; [|split]].
  - intros a u q Hu Hq.
    destruct (data_same_lookup _ _ _ _ Hd' Hu) as (u0 & Hu0 & Hd0).
    rewrite Hh. apply (S1 a u0 q Hu0). congruence.
  - intros a a' u u' q Hu Hu' Hq Hq'.
    destruct (data_same_lookup _ _ _ _ Hd' Hu) as (u0 & Hu0 & Hd0).
    destruct (data_same_lookup _ _ _ _ Hd' Hu') as (u0' & Hu0' & Hd0').
    apply (S2 a a' u0 u0' q); congruence.
  - intros h b Hb. apply (shared_handle_fits_data_same w); [done|].
    destruct (HB h b Hb); eauto.
  - intros h bm Hb. apply (exclusive_handle_fits_data_same w); [done|].
    destruct (HBM h bm Hb); eauto.
Qed.

(** No handle refers to an owner without borrows. *)
Lemma no_shared_handle_to w a u h b :
  shared_handles_ok w → uniques w !! a = Some u → borrowed u = false →
  borroweds w !! h = Some b → Borrowed.owner_ b ≠ Some a.
Proof.
  intros K Hu [Hn _]%borrowed_false Hb Ho.
  destruct (shared_handles_ok_handle _ _ _ _ K Hb Ho) as (u' & Hu' & Hpos).
  rewrite Hu in Hu'. injection Hu' as <-. lia.
Qed.

Lemma no_exclusive_handle_to w a u h bm :
  exclusive_handles_ok w → uniques w !! a = Some u → borrowed u = false →
  borrowedMuts w !! h = Some bm → BorrowedMut.owner_ bm ≠ Some a.
Proof.
  intros J Hu [_ Hf]%borrowed_false Hb Ho.
  destruct (J h bm a Hb Ho) as [X _]. cbn in X. rewrite Hu in X. congruence.
Qed.

(** Handles refer to live owners only. *)
Lemma shared_handle_fits_live w b a :
  shared_handle_fits w b → Borrowed.owner_ b = Some a → is_Some (uniques w !! a).
Proof. intros (a' & u & Ho & Hu & _) Ho'. rewrite Ho in Ho'. injection Ho' as <-. eauto. Qed.

Lemma exclusive_handle_fits_live w bm a :
  exclusive_handle_fits w bm → BorrowedMut.owner_ bm = Some a →
  is_Some (uniques w !! a).
Proof.
  unfold exclusive_handle_fits. intros H Ho. rewrite Ho in H.
  destruct H as (u & Hu & _). eauto.
Qed.

(** A change of owners that no handle refers to. *)
Lemma shared_handle_fits_outside w w' b :
  (∀ a, Borrowed.owner_ b = Some a → uniques w' !! a = uniques w !! a) →
  shared_handle_fits w b → shared_handle_fits w' b.
Proof.
  intros Hsame (a & u & Ho & Hu & Hb). exists a, u.
  by rewrite (Hsame a Ho).
Qed.

Lemma exclusive_handle_fits_outside w w' bm :
  (∀ a, BorrowedMut.owner_ bm = Some a → uniques w' !! a = uniques w !! a) →
  exclusive_handle_fits w bm → exclusive_handle_fits w' bm.
Proof.
  unfold exclusive_handle_fits. intros Hsame.
  destruct (BorrowedMut.owner_ bm) as [a|]; [|done].
  intros (u & Hu & Hb). exists u. by rewrite (Hsame a eq_refl).
Qed.

Lemma handles_safe_new_ p w r w' :
  handles_safe w → new_ p w = (r, w') → handles_safe w'.
Proof.
  intros (S1 & S2 & S3 & S4). unfold new_.
  case_decide; intros [= <- <-]; [done|].
  split; [|done]. intros a u q Hu Hq. cbn.
  apply elem_of_union_r. by apply (S1 a u q).
Qed.

Lemma handles_safe_Unique_ctor this p w r w' :
  client_call (CUnique this p) w → handles_safe w →
  Unique_ctor this p w = (r, w') → handles_safe w'.
Proof.
  intros Hc (S1 & S2 & S3 & S4). unfold Unique_ctor, bind, storage_unique.
  destruct (uniques w !! this) as [u0|] eqn:Hthis; intros [= <- <-]; [done|].
  cbn. split; [|split; [|split]].
  - intros a u q. cbn. rewrite lookup_insert. case_decide.
    + intros [= <-] Hq. cbn in Hq. subst p. by destruct Hc.
    + apply S1.
  - intros a a' u u' q. cbn. rewrite !lookup_insert.
    destruct (decide (this = a)) as [<-|Ha], (decide (this = a')) as [<-|Ha'];
      try done.
    + intros [= <-] Hu' Hq Hq'. cbn in Hq. subst p. destruct Hc as [_ Hfresh].
      by destruct (Hfresh a' u' Hu').
    + intros Hu [= <-] Hq Hq'. cbn in Hq'. subst p. destruct Hc as [_ Hfresh].
      by destruct (Hfresh a u Hu).
    + apply S2.
  - intros h b Hb. apply (shared_handle_fits_outside w); [|by apply (S3 h)].
    intros a Ho. cbn. rewrite lookup_insert_ne; [done|]. intros <-.
    destruct (shared_handle_fits_live _ _ _ (S3 h b Hb) Ho) as [u Hu]. congruence.
  - intros h bm Hb. apply (exclusive_handle_fits_outside w); [|by apply (S4 h)].
    intros a Ho. cbn. rewrite lookup_insert_ne; [done|]. intros <-.
    destruct (exclusive_handle_fits_live _ _ _ (S4 h bm Hb) Ho) as [u Hu].
    congruence.
Qed.

(** The end of an owner without borrows, with its resource. *)
Lemma handles_safe_delete_owner w a u :
  shared_handles_ok w → exclusive_handles_ok w → handles_safe w →
  uniques w !! a = Some u → borrowed u = false →
  handles_safe
    (mkWorld (delete a (uniques w)) (borroweds w) (borrowedMuts w)
       (freed (Unique.data u) (heap w)) (history w)).
Proof.
  intros K J (S1 & S2 & S3 & S4) Hu Hb. split; [|split; [|split]]; cbn.
  - intros a0 u0 q. rewrite lookup_delete. case_decide; [done|].
    intros Hu0 Hq. pose proof (S1 a0 u0 q Hu0 Hq) as Hin.
    destruct (Unique.data u) as [qu|] eqn:Hd; cbn; [|done].
    apply elem_of_difference. split; [done|]. intros ->%elem_of_singleton.
    by pose proof (S2 a a0 u u0 qu Hu Hu0 Hd Hq).
  - intros a0 a0' u0 u0' q. rewrite !lookup_delete. repeat case_decide; try done.
    apply S2.
  - intros h b Hh. apply (shared_handle_fits_outside w); [|by apply (S3 h)].
    intros a0 Ho. cbn. rewrite lookup_delete_ne; [done|]. intros <-.
    by apply (no_shared_handle_to w a u h b).
  - intros h bm Hh. apply (exclusive_handle_fits_outside w); [|by apply (S4 h)].
    intros a0 Ho. cbn. rewrite lookup_delete_ne; [done|]. intros <-.
    by apply (no_exclusive_handle_to w a u h bm).
Qed.

Lemma handles_safe_Unique_dtor a w r w' :
  spares_borrowed (CUniqueDtor a) w →
  shared_handles_ok w → exclusive_handles_ok w → handles_safe w →
  Unique_dtor a w = (r, w') → continues r = true → handles_safe w'.
Proof.
  cbn [spares_borrowed]. intros Hs K J S.
  destruct (uniques w !! a) as [u|] eqn:Hu; cycle 1.
  { rewrite dangling_Unique_dtor by done. by intros [= <- <-]. }
  rewrite (Unique_dtor_eq _ _ _ Hu). pose proof (Hs u eq_refl) as Hb. rewrite Hb.
  pose proof (handles_safe_delete_owner w a u K J S Hu Hb) as S'.
  destruct (Unique.data u) as [q|].
  - case_decide; intros [= <- <-]; [|done]. intros _. exact S'.
  - intros [= <- <-] _. by destruct w.
Qed.

(** The transfer of a resource between owners without borrows, after the
    resource [gone] of the destination, if it had one, has been deleted. *)
Lemma handles_safe_transfer w this other v gone :
  shared_handles_ok w → exclusive_handles_ok w → handles_safe w →
  this ≠ other → uniques w !! other = Some v → borrowed v = false →
  match uniques w !! this with
  | Some u => borrowed u = false ∧ gone = Unique.data u
  | None => gone = None
  end →
  handles_safe
    (mkWorld (<[this := v]> (<[other := empty_unique]> (uniques w)))
       (borroweds w) (borrowedMuts w) (freed gone (heap w)) (history w)).
Proof.
  intros K J (S1 & S2 & S3 & S4) Hne Hv Bv Hthis.
  assert (Hkeep : ∀ a0 u0 q, a0 ≠ this → uniques w !! a0 = Some u0 →
                    Unique.data u0 = Some q → q ∈ freed gone (heap w)).
  { intros a0 u0 q Ha0 Hu0 Hq. pose proof (S1 a0 u0 q Hu0 Hq) as Hin.
    destruct gone as [g|]; cbn; [|done].
    apply elem_of_difference. split; [done|]. intros ->%elem_of_singleton.
    destruct (uniques w !! this) as [u|] eqn:Hu; [|done].
    destruct Hthis as [_ Hg]. symmetry in Hg.
    by pose proof (S2 a0 this u0 u g Hu0 Hu Hq Hg). }
  split; [|split; [|split]]; cbn.
  - intros a0 u0 q. rewrite !lookup_insert.
    destruct (decide (this = a0)) as [<-|Ha0].
    + intros [= <-] Hq. by apply (Hkeep other v q).
    + destruct (decide (other = a0)) as [<-|Ho0]; [by intros [= <-]|].
      intros Hu0 Hq. by apply (Hkeep a0 u0 q).
  - intros a0 a0' u0 u0' q. rewrite !lookup_insert.
    destruct (decide (this = a0)) as [<-|Ha0],
             (decide (this = a0')) as [<-|Ha0']; try done.
    + intros [= <-]. destruct (decide (other = a0')) as [<-|Ho0'];
        [by intros [= <-]|].
      intros Hu0' Hq Hq'. by destruct (Ho0' (S2 other a0' v u0' q Hv Hu0' Hq Hq')).
    + destruct (decide (other = a0)) as [<-|Ho0]; [by intros [= <-]|].
      intros Hu0 [= <-] Hq Hq'.
      by destruct (Ho0 (S2 other a0 v u0 q Hv Hu0 Hq' Hq)).
    + destruct (decide (other = a0)) as [<-|Ho0]; [by intros [= <-]|].
      destruct (decide (other = a0')) as [<-|Ho0']; [by intros ? [= <-]|].
      apply S2.
  - intros h b Hh. apply (shared_handle_fits_outside w); [|by apply (S3 h)].
    intros a0 Ho. cbn.
    assert (a0 ≠ other) by (intros ->; by apply (no_shared_handle_to w other v h b)).
    assert (a0 ≠ this).
    { intros ->. destruct (uniques w !! this) as [u|] eqn:Hu.
      - destruct Hthis as [Bu _]. by apply (no_shared_handle_to w this u h b).
      - destruct (shared_handle_fits_live _ _ _ (S3 h b Hh) Ho) as [u Hu'].
        congruence. }
    by rewrite !lookup_insert_ne.
  - intros h bm Hh. apply (exclusive_handle_fits_outside w); [|by apply (S4 h)].
    intros a0 Ho. cbn.
    assert (a0 ≠ other)
      by (intros ->; by apply (no_exclusive_handle_to w other v h bm)).
    assert (a0 ≠ this).
    { intros ->. destruct (uniques w !! this) as [u|] eqn:Hu.
      - destruct Hthis as [Bu _]. by apply (no_exclusive_handle_to w this u h bm).
      - destruct (exclusive_handle_fits_live _ _ _ (S4 h bm Hh) Ho) as [u Hu'].
        congruence. }
    by rewrite !lookup_insert_ne.
Qed.

Lemma handles_safe_Unique_move_ctor this other w r w' :
  shared_handles_ok w → exclusive_handles_ok w → handles_safe w →
  Unique_move_ctor this other w = (r, w') → continues r = true →
  handles_safe w'.
Proof.
  intros K J S. destruct (uniques w !! this) as [u|] eqn:Hu.
  { rewrite (occupied_Unique_move_ctor _ _ _ _ Hu). by intros [= <- <-]. }
  destruct (uniques w !! other) as [v|] eqn:Hv; cycle 1.
  { rewrite dangling_Unique_move_ctor by done. by intros [= <- <-]. }
  rewrite (Unique_move_ctor_eq _ _ _ _ Hu Hv).
  destruct (borrowed v) eqn:Hb; intros [= <- <-] _; [done|].
  assert (this ≠ other) by congruence.
  pose proof (handles_safe_transfer w this other v None K J S) as S'.
  rewrite Hu in S'. by apply S'.
Qed.

Lemma handles_safe_Unique_move_assign this other w r w' :
  shared_handles_ok w → exclusive_handles_ok w → handles_safe w →
  Unique_move_assign this other w = (r, w') → continues r = true →
  handles_safe w'.
Proof.
  intros K J S. destruct (decide (this = other)) as [->|Hne].
  { rewrite Unique_move_assign_self. by intros [= <- <-]. }
  destruct (uniques w !! this) as [u|] eqn:Hu; cycle 1.
  { rewrite dangling_Unique_move_assign_this by done. by intros [= <- <-]. }
  destruct (uniques w !! other) as [v|] eqn:Hv; cycle 1.
  { rewrite (dangling_Unique_move_assign_other _ _ _ _ Hne Hu Hv).
    by destruct (borrowed u); intros [= <- <-]. }
  rewrite (Unique_move_assign_eq _ _ _ Hu _ _ Hv Hne).
  destruct (borrowed u) eqn:Bu; [by intros [= <- <-]|].
  destruct (borrowed v) eqn:Bv; [by intros [= <- <-]|].
  pose proof (handles_safe_transfer w this other v (Unique.data u) K J S Hne Hv Bv)
    as S'.
  rewrite Hu in S'. specialize (S' (conj Bu eq_refl)).
  rewrite insert_insert_ne in S' by done.
  destruct (Unique.data u) as [q|].
  - case_decide; intros [= <- <-]; [|done]. intros _. exact S'.
  - intros [= <- <-] _. exact S'.
Qed.

Lemma data_same_clear_flag w o :
  ∀ a0, Unique.data <$> clear_flag o (uniques w) !! a0
        = Unique.data <$> uniques w !! a0.
Proof.
  intros a0. destruct o as [a|]; [|done]. cbn. rewrite lookup_alter.
  case_decide; [|done]. subst a0. by destruct (uniques w !! a).
Qed.

Lemma handles_safe_acquireImmutableBorrow a w r w' :
  handles_safe w → acquireImmutableBorrow a w = (r, w') → handles_safe w'.
Proof.
  intros S. destruct (uniques w !! a) as [u|] eqn:Hu; cycle 1.
  { rewrite dangling_acquireImmutableBorrow by done. by intros [= <- <-]. }
  rewrite (acquireImmutableBorrow_eq _ _ _ Hu).
  destruct (Unique.mutable_borrowed u); [by intros [= <- <-]|].
  destruct (int_incr _) as [n'|]; intros [= <- <-]; [|done].
  apply (handles_safe_step w); cbn; auto. by eapply data_same_insert.
Qed.

Lemma handles_safe_acquireMutableBorrow a w r w' :
  handles_safe w → acquireMutableBorrow a w = (r, w') → handles_safe w'.
Proof.
  intros S. destruct (uniques w !! a) as [u|] eqn:Hu; cycle 1.
  { rewrite dangling_acquireMutableBorrow by done. by intros [= <- <-]. }
  rewrite (acquireMutableBorrow_eq _ _ _ Hu).
  destruct (borrowed u); intros [= <- <-]; [done|].
  apply (handles_safe_step w); cbn; auto. by eapply data_same_insert.
Qed.

Lemma handles_safe_borrow a h w r w' :
  handles_safe w → borrow a h w = (r, w') → continues r = true →
  handles_safe w'.
Proof.
  intros S. destruct (uniques w !! a) as [u|] eqn:Hu; cycle 1.
  { unfold borrow, bind at 1, get_data, bind at 1, load_unique. rewrite Hu.
    by intros [= <- <-]. }
  destruct (borroweds w !! h) as [b|] eqn:Hh.
  { unfold borrow, Borrowed_ctor. destruct w as [U B BM Hp Hi], u as [d n f].
    cbn in Hu, Hh. cxx_run. by intros [= <- <-]. }
  rewrite (borrow_eq _ _ _ _ Hu Hh).
  destruct (Unique.mutable_borrowed u); [by intros [= <- <-]|].
  destruct (int_incr _) as [n'|]; intros [= <- <-] _; [|done].
  apply (handles_safe_step w); cbn; auto; [by eapply data_same_insert|].
  intros h0 b0. rewrite lookup_insert. case_decide; [|by left].
  intros [= <-]. right. by exists a, u.
Qed.

Lemma handles_safe_Borrowed_copy_ctor this other w r w' :
  handles_safe w → Borrowed_copy_ctor this other w = (r, w') →
  continues r = true → handles_safe w'.
Proof.
  intros S.
  destruct (borroweds w !! this) as [b0|] eqn:Hb.
  { unfold Borrowed_copy_ctor. cxx_run. by intros [= <- <-]. }
  destruct (borroweds w !! other) as [b|] eqn:Hb'.
  2:{ unfold Borrowed_copy_ctor. cxx_run. by intros [= <- <-]. }
  pose proof S as (S1 & S2 & S3 & S4).
  destruct (S3 other b Hb') as (a & u & Ho & Hu & Hd).
  rewrite (Borrowed_copy_ctor_eq _ _ _ _ _ _ Hb Hb' Ho Hu).
  destruct (Unique.mutable_borrowed u); [by intros [= <- <-]|].
  destruct (int_incr _) as [n'|]; intros [= <- <-] _; [|done].
  apply (handles_safe_step w); cbn; auto; [by eapply data_same_insert|].
  intros h0 b1. rewrite lookup_insert. case_decide; [|by left].
  intros [= <-]. right. by exists a, u.
Qed.

Lemma handles_safe_Borrowed_dtor h w r w' :
  handles_safe w → Borrowed_dtor h w = (r, w') → continues r = true →
  handles_safe w'.
Proof.
  intros S.
  destruct (borroweds w !! h) as [b|] eqn:Hb.
  2:{ unfold Borrowed_dtor. cxx_run. by intros [= <- <-]. }
  pose proof S as (S1 & S2 & S3 & S4).
  destruct (S3 h b Hb) as (a & u & Ho & Hu & Hd).
  rewrite (Borrowed_dtor_eq _ _ _ _ _ Hb Ho Hu).
  destruct (_ <=? _); intros [= <- <-] _; [done|].
  apply (handles_safe_step w); cbn; auto; [by eapply data_same_insert|].
  intros h0 b1. rewrite lookup_delete. case_decide; [done|]. by left.
Qed.

Lemma handles_safe_Borrowed_copy_assign this other w r w' :
  handles_safe w → Borrowed_copy_assign this other w = (r, w') →
  continues r = true → handles_safe w'.
Proof.
  intros S. destruct (decide (this = other)) as [->|Hne].
  { rewrite Borrowed_copy_assign_self. by intros [= <- <-]. }
  destruct (borroweds w !! this) as [b|] eqn:Hb.
  2:{ unfold Borrowed_copy_assign. cxx_run. by intros [= <- <-]. }
  pose proof S as (S1 & S2 & S3 & S4).
  destruct (S3 this b Hb) as (o & u & Ho & Hu & Hd).
  destruct (Z.leb_spec (Unique.immutable_borrows u) 0) as [Hle|Hpos].
  { unfold Borrowed_copy_assign, releaseBorrowImmutable.
    destruct w as [U B BM Hp Hi], u as [d n f], b as [ob db];
      cbn in Hb, Hu, Hle, Ho |- *; subst ob.
    cxx_run. destruct (Z.leb_spec n 0); [|lia]. by intros [= <- <-]. }
  destruct (borroweds w !! other) as [b'|] eqn:Hb'.
  2:{ unfold Borrowed_copy_assign, releaseBorrowImmutable.
      destruct w as [U B BM Hp Hi], u as [d n f], b as [ob db];
        cbn in Hb, Hb', Hu, Hpos, Ho |- *; subst ob.
      cxx_run. destruct (Z.leb_spec n 0); [lia|].
      rewrite int_decr_pos by done. cxx_run. by intros [= <- <-]. }
  destruct (S3 other b' Hb') as (o' & u' & Ho' & Hu' & Hd').
  rewrite (Borrowed_copy_assign_eq _ _ _ _ _ _ _ _ Hne Hb Hb' Ho Ho' Hu).
  destruct (Z.leb_spec (Unique.immutable_borrows u) 0); [lia|].
  intros E _. eapply handles_safe_acquireImmutableBorrow; [|exact E].
  apply (handles_safe_step w); cbn; auto; [by eapply data_same_insert|].
  intros h0 b1. rewrite lookup_insert. case_decide; [|by left].
  intros [= <-]. right. by exists o', u'.
Qed.

Lemma handles_safe_borrow_mut a h w r w' :
  handles_safe w → borrow_mut a h w = (r, w') → continues r = true →
  handles_safe w'.
Proof.
  intros S. destruct (uniques w !! a) as [u|] eqn:Hu; cycle 1.
  { unfold borrow_mut, bind at 1, get_data, bind at 1, load_unique. rewrite Hu.
    by intros [= <- <-]. }
  destruct (borrowedMuts w !! h) as [b|] eqn:Hh.
  { unfold borrow_mut, BorrowedMut_ctor.
    destruct w as [U B BM Hp Hi], u as [d n f].
    cbn in Hu, Hh. cxx_run. by intros [= <- <-]. }
  rewrite (borrow_mut_eq _ _ _ _ Hu Hh).
  destruct (borrowed u); intros [= <- <-] _; [done|].
  apply (handles_safe_step w); cbn; auto; [by eapply data_same_insert|].
  intros h0 b0. rewrite lookup_insert. case_decide; [|by left].
  intros [= <-]. right. unfold exclusive_handle_fits. cbn. by exists u.
Qed.

Lemma handles_safe_BorrowedMut_move_ctor this other w r w' :
  handles_safe w → BorrowedMut_move_ctor this other w = (r, w') →
  continues r = true → handles_safe w'.
Proof.
  intros S.
  destruct (borrowedMuts w !! this) as [b0|] eqn:Hb.
  { unfold BorrowedMut_move_ctor. cxx_run. by intros [= <- <-]. }
  destruct (borrowedMuts w !! other) as [bs|] eqn:Hs.
  2:{ unfold BorrowedMut_move_ctor. cxx_run. by intros [= <- <-]. }
  rewrite (BorrowedMut_move_ctor_eq _ _ _ _ Hb Hs). intros [= <- <-] _.
  pose proof S as (S1 & S2 & S3 & S4).
  apply (handles_safe_step w); cbn; auto.
  intros h0 b1. rewrite !lookup_insert.
  case_decide; [by intros [= <-]; right|].
  case_decide; [|by left]. intros [= <-]. right. by apply (S4 other).
Qed.

Lemma handles_safe_BorrowedMut_move_assign this other w w' :
  exclusive_handles_ok w → handles_safe w →
  BorrowedMut_move_assign this other w = (Ok tt, w') → handles_safe w'.
Proof.
  intros J S. destruct (decide (this = other)) as [->|Hne].
  { unfold BorrowedMut_move_assign. cxx_run. by intros [= <-]. }
  destruct (borrowedMuts w !! this) as [bt|] eqn:Ht; cycle 1.
  { unfold BorrowedMut_move_assign, BorrowedMut_release. cxx_run. done. }
  assert (Xt : holds_exclusive w (BorrowedMut.owner_ bt) = true).
  { destruct (BorrowedMut.owner_ bt) as [a|] eqn:Ho; [|done].
    by destruct (J this bt a Ht Ho). }
  destruct (borrowedMuts w !! other) as [bs|] eqn:Hs; cycle 1.
  { unfold BorrowedMut_move_assign, BorrowedMut_release, releaseMutableBorrow.
    destruct w as [U B BM Hp Hi], bt as [[a|] dt]; cbn in Ht, Hs, Xt.
    - destruct (U !! a) as [[d n f]|] eqn:Ha; [|done]. cbn in Xt. subst f.
      cxx_run. done.
    - cxx_run. done. }
  rewrite (BorrowedMut_move_assign_eq _ _ _ _ _ Hne Ht Hs Xt). intros [= <-].
  pose proof S as (S1 & S2 & S3 & S4).
  apply (handles_safe_step w); cbn; auto; [apply data_same_clear_flag|].
  intros h0 b1. rewrite !lookup_insert.
  case_decide; [by intros [= <-]; right|].
  case_decide; [|by left]. intros [= <-]. right. by apply (S4 other).
Qed.

Lemma handles_safe_BorrowedMut_dtor this w w' :
  exclusive_handles_ok w → handles_safe w →
  BorrowedMut_dtor this w = (Ok tt, w') → handles_safe w'.
Proof.
  intros J S. destruct (borrowedMuts w !! this) as [bt|] eqn:Ht; cycle 1.
  { unfold BorrowedMut_dtor, BorrowedMut_release. cxx_run. done. }
  assert (Xt : holds_exclusive w (BorrowedMut.owner_ bt) = true).
  { destruct (BorrowedMut.owner_ bt) as [a|] eqn:Ho; [|done].
    by destruct (J this bt a Ht Ho). }
  rewrite (BorrowedMut_dtor_eq _ _ _ Ht Xt). intros [= <-].
  apply (handles_safe_step w); cbn; auto; [apply data_same_clear_flag|].
  intros h0 b1. rewrite lookup_delete. case_decide; [done|]. by left.
Qed.

(** Direct access changes nothing. *)
Ltac reads_prim :=
  intros [? ? ? ? ?] ? ?; cxx_unfold;
  repeat case_match; intros; simplify_eq; done.

Lemma reads_ret {A} (x : A) : reads (ret x).
Proof. reads_prim. Qed.
Lemma reads_throw {A} e : reads (throw (A := A) e).
Proof. reads_prim. Qed.
Lemma reads_bind {A B} (m : M World A) (k : A → M World B) :
  reads m → (∀ x, reads (k x)) → reads (bind m k).
Proof.
  intros Hm Hk w r w'. unfold bind.
  destruct (m w) as [[x| | |] w1] eqn:E; intros H.
  - rewrite (Hk _ _ _ _ H). eauto.
  - simplify_eq. eauto.
  - simplify_eq. eauto.
  - simplify_eq. eauto.
Qed.
Lemma reads_get_data a : reads (get_data a).
Proof. reads_prim. Qed.
Lemma reads_get_mutable_borrowed a : reads (get_mutable_borrowed a).
Proof. reads_prim. Qed.
Lemma reads_is_borrowed a : reads (is_borrowed a).
Proof. reads_prim. Qed.
Lemma reads_deref_resource p : reads (deref_resource p).
Proof. destruct p; reads_prim. Qed.

Lemma accessors_read c :
  match c with
  | CArrow _ | CArrowConst _ | CStar _ | CStarConst _ | CGet _ | CGetConst _
  | CBool _ => reads (exec c)
  | _ => True
  end.
Proof.
  destruct c; try done; cbn [exec];
    unfold discard, Unique_arrow, Unique_arrow_const, Unique_star,
      Unique_star_const, Unique_get, Unique_get_const, Unique_bool;
    repeat first
      [ solve [auto using reads_ret, reads_throw, reads_get_data,
                 reads_get_mutable_borrowed, reads_is_borrowed,
                 reads_deref_resource]
      | apply reads_bind; [|intros ?]
      | match goal with
        | |- reads (if ?c then _ else _) => destruct c
        end ].
Qed.

(** Every call of a client who keeps to the interface keeps the handles
    safe. *)
Lemma handles_safe_exec c w r w' :
  client_call c w → shared_handles_ok w → exclusive_handles_ok w →
  handles_safe w → exec c w = (r, w') → continues r = true → handles_safe w'.
Proof.
  intros Hc K J S E Hr. pose proof (accessors_read c) as Hread.
  destruct c; cbn [exec] in E; try (by rewrite (Hread _ _ _ E)); try done.
  - by eapply handles_safe_new_.
  - by eapply handles_safe_Unique_ctor.
  - by eapply handles_safe_Unique_dtor.
  - by eapply handles_safe_Unique_move_ctor.
  - by eapply handles_safe_Unique_move_assign.
  - by eapply handles_safe_acquireImmutableBorrow.
  - by eapply handles_safe_acquireMutableBorrow.
  - by eapply handles_safe_borrow.
  - by eapply handles_safe_borrow_mut.
  - by eapply handles_safe_Borrowed_copy_ctor.
  - by eapply handles_safe_Borrowed_copy_assign.
  - by eapply handles_safe_Borrowed_dtor.
  - by eapply handles_safe_BorrowedMut_move_ctor.
  - assert (r = Ok tt) as ->.
    { unfold BorrowedMut_move_assign, noexcept in E.
      destruct r as [[]| | |]; try done.
      by repeat case_match; simplify_eq. }
    by eapply handles_safe_BorrowedMut_move_assign.
  - assert (r = Ok tt) as ->.
    { unfold BorrowedMut_dtor, bind, noexcept, end_borrowedMut, modify in E.
      destruct r as [[]| | |]; try done.
      by repeat case_match; simplify_eq. }
    by eapply handles_safe_BorrowedMut_dtor.
Qed.

Lemma client_call_protocol c w :
  client_call c w → shared_protocol c w ∧ exclusive_protocol c w.
Proof. unfold shared_protocol, exclusive_protocol. by destruct c. Qed.

Lemma client_run_safe cs : ∀ w,
  world_inv w → shared_handles_ok w → exclusive_handles_ok w → handles_safe w →
  client_run cs w →
  Forall (λ w', world_inv w' ∧ shared_handles_ok w' ∧ exclusive_handles_ok w'
                ∧ handles_safe w') (run cs w).
Proof.
  induction cs as [|c cs IH]; intros w I K J S Hrun; cbn [run]; [constructor|].
  unfold client_run in Hrun. cbn [run_where] in Hrun.
  destruct Hrun as [Hc Hrun]. fold (client_run cs) in Hrun.
  destruct (client_call_protocol c w Hc) as [Hn Hp].
  destruct (exec c w) as [[[]| | |] w'] eqn:E; [| |constructor..].
  - assert (world_inv w' ∧ shared_handles_ok w' ∧ exclusive_handles_ok w'
            ∧ handles_safe w') as (I' & K' & J' & S').
    { split; [by eapply every_call_keeps_invariant|].
      split; [by eapply shared_handles_ok_exec|].
      split; [by eapply exclusive_handles_ok_exec|].
      by eapply handles_safe_exec. }
    constructor; [done|]. by apply IH.
  - assert (world_inv w' ∧ shared_handles_ok w' ∧ exclusive_handles_ok w'
            ∧ handles_safe w') as (I' & K' & J' & S').
    { split; [by eapply every_call_keeps_invariant|].
      split; [by eapply shared_handles_ok_exec|].
      split; [by eapply exclusive_handles_ok_exec|].
      by eapply handles_safe_exec. }
    constructor; [done|]. by apply IH.
Qed.

Lemma handles_safe_empty : handles_safe empty_world.
Proof.
  split; [|split; [|split]]; intros *; cbn; by rewrite lookup_empty.
Qed.

Lemma exclusive_handles_ok_empty : exclusive_handles_ok empty_world.
Proof. intros h bm a. cbn. by rewrite lookup_empty. Qed.

(** No handle holds a dangling pointer as long as no borrowed owner is
    destroyed.  Let a client keep to the interface: owners are made for
    null or for live resources that no owner has, handles come from
    [borrow()] and [borrow_mut()] and from copies and moves of handles, the
    release functions are left to the handles, and no owner is destroyed
    while it is borrowed.  Then in every store the client makes, whatever
    other calls throw on the way, every shared handle and every exclusive
    handle that has not been moved from refers to a live owner and holds
    the resource pointer that owner has now; if it is not null the resource
    is live, no other owner has it, and dereferencing the handle gives it.
    The condition on destruction is one the library checks and cannot
    enforce: in such a store the destructor of an owner that a handle
    refers to throws [DestroyWithActiveBorrows], and the owner is gone. *)
Theorem handles_never_dangle cs w :
  client_run cs empty_world → w ∈ run cs empty_world →
  (∀ h b, borroweds w !! h = Some b →
     ∃ a u, Borrowed.owner_ b = Some a ∧ uniques w !! a = Some u
            ∧ Borrowed.data b = Unique.data u
            ∧ (∀ q, Unique.data u = Some q →
                    q ∈ heap w ∧ Borrowed_star h w = (Ok q, w)
                    ∧ ∀ a' u', uniques w !! a' = Some u' →
                               Unique.data u' = Some q → a' = a)
            ∧ Unique_dtor a w
              = (Throw DestroyWithActiveBorrows, upd_uniques (delete a) w))
  ∧ (∀ h bm a, borrowedMuts w !! h = Some bm → BorrowedMut.owner_ bm = Some a →
     ∃ u, uniques w !! a = Some u
          ∧ BorrowedMut.data bm = Unique.data u
          ∧ (∀ q, Unique.data u = Some q →
                  q ∈ heap w ∧ BorrowedMut_star h w = (Ok q, w)
                  ∧ ∀ a' u', uniques w !! a' = Some u' →
                             Unique.data u' = Some q → a' = a)
          ∧ Unique_dtor a w
            = (Throw DestroyWithActiveBorrows, upd_uniques (delete a) w)).
Proof.
  intros Hrun Hw.
  assert (shared_handles_ok w ∧ exclusive_handles_ok w ∧ handles_safe w)
    as (K & J & S1 & S2 & S3 & S4).
  { pose proof (client_run_safe cs empty_world world_inv_empty
                  shared_handles_ok_empty exclusive_handles_ok_empty
                  handles_safe_empty Hrun) as H.
    rewrite Forall_forall in H. by destruct (H w Hw) as (_ & K & J & S). }
  split.
  - intros h b Hb. destruct (S3 h b Hb) as (a & u & Ho & Hu & Hd).
    exists a, u. do 3 (split; [done|]). split.
    + intros q Hq.
      pose proof (S1 a u q Hu Hq) as Hin. split; [done|]. split.
      * unfold Borrowed_star, Borrowed_get_data, bind, load_borrowed.
        rewrite Hb. cbn. rewrite Hd, Hq. cbn. by rewrite decide_True.
      * intros a' u' Hu' Hq'. by apply (S2 a' a u' u q).
    + rewrite (Unique_dtor_eq _ _ _ Hu).
      destruct (borrowed u) eqn:Hbu; [done|].
      by destruct (no_shared_handle_to w a u h b K Hu Hbu Hb).
  - intros h bm a Hb Ho. pose proof (S4 h bm Hb) as Hfit.
    unfold exclusive_handle_fits in Hfit. rewrite Ho in Hfit.
    destruct Hfit as (u & Hu & Hd).
    exists u. do 2 (split; [done|]). split.
    + intros q Hq.
      pose proof (S1 a u q Hu Hq) as Hin. split; [done|]. split.
      * unfold BorrowedMut_star, BorrowedMut_get_data, bind, load_borrowedMut.
        rewrite Hb. cbn. rewrite Hd, Hq. cbn. by rewrite decide_True.
      * intros a' u' Hu' Hq'. by apply (S2 a' a u' u q).
    + rewrite (Unique_dtor_eq _ _ _ Hu).
      destruct (borrowed u) eqn:Hbu; [done|].
      by destruct (no_exclusive_handle_to w a u h bm J Hu Hbu Hb).
Qed.

(** * The static checker *)

Ltac ctx_unfold :=
  cbv beta iota zeta delta
    [bind ret undefined modify Report enterScope exitScope addTrackedVariable
     subscript load_state store_state clear getKeyForDecl];
  cbn [currentBorrowStates scopeStack DE mutablyBorrowed immutablyBorrowed
       fst snd].

(** ** Equations of the context *)

(** [recordImmutableBorrow]: the variable is counted as it is in the map or,
    when it is not there, from a new state; the report depends on the flag
    only. *)
Lemma recordImmutableBorrow_eq varKey varName loc s :
  let st := default BorrowState_ctor (currentBorrowStates s !! varKey) in
  immutablyBorrowed st < INT_MAX →
  recordImmutableBorrow varKey varName loc s =
    (Ok tt,
     mkBorrowContext
       (<[varKey := mkBorrowState (mutablyBorrowed st) (immutablyBorrowed st + 1)]>
          (currentBorrowStates s))
       (scopeStack s)
       (DE s ++ if mutablyBorrowed st
                then [conflict_report true varName loc] else [])).
Proof.
  destruct s as [c stk de]. cbn [currentBorrowStates].
  intros Hlt. unfold recordImmutableBorrow. ctx_unfold.
  destruct (c !! varKey) as [[f n]|] eqn:Hk; cbn in Hlt |- *.
  - rewrite Hk. cbn. rewrite int_incr_lt by done. cbn.
    rewrite lookup_insert_eq. cbn.
    destruct f; cbn; [done|]. by rewrite app_nil_r.
  - rewrite lookup_insert_eq. cbn. rewrite lookup_insert_eq. cbn.
    by rewrite !insert_insert_eq, app_nil_r.
Qed.

Lemma recordImmutableBorrow_overflow varKey varName loc s :
  INT_MAX <= immutablyBorrowed
               (default BorrowState_ctor (currentBorrowStates s !! varKey)) →
  fst (recordImmutableBorrow varKey varName loc s) = Undefined.
Proof.
  destruct s as [c stk de]. cbn [currentBorrowStates].
  intros Hge. unfold recordImmutableBorrow. ctx_unfold.
  destruct (c !! varKey) as [[f n]|] eqn:Hk; cbn in Hge.
  - cbn [currentBorrowStates]. rewrite Hk. cbn. unfold int_incr.
    destruct (Z.ltb_spec n INT_MAX); [lia|done].
  - unfold INT_MAX in Hge. lia.
Qed.

(** [recordMutableBorrow] likewise: the flag is set, and the report depends
    on the count only. *)
Lemma recordMutableBorrow_eq varKey varName loc s :
  let st := default BorrowState_ctor (currentBorrowStates s !! varKey) in
  recordMutableBorrow varKey varName loc s =
    (Ok tt,
     mkBorrowContext
       (<[varKey := mkBorrowState true (immutablyBorrowed st)]>
          (currentBorrowStates s))
       (scopeStack s)
       (DE s ++ if 0 <? immutablyBorrowed st
                then [conflict_report false varName loc] else [])).
Proof.
  destruct s as [c stk de]. cbn [currentBorrowStates].
  unfold recordMutableBorrow. ctx_unfold.
  destruct (c !! varKey) as [[f n]|] eqn:Hk; cbn.
  - rewrite Hk. cbn. rewrite lookup_insert_eq. cbn.
    destruct (0 <? n); cbn; [done|]. by rewrite app_nil_r.
  - rewrite lookup_insert_eq. cbn. rewrite lookup_insert_eq. cbn.
    by rewrite !insert_insert_eq, app_nil_r.
Qed.

(** ** Equations of the visitor *)

Lemma VisitCallExpr_eq expr :
  VisitCallExpr expr =
    match recorded_borrow expr with
    | Some (true, d) =>
        bind (recordImmutableBorrow (getLocation d) (getNameAsString d)
                (getExprLoc expr)) (λ _, ret true)
    | Some (false, d) =>
        bind (recordMutableBorrow (getLocation d) (getNameAsString d)
                (getExprLoc expr)) (λ _, ret true)
    | None => ret true
    end.
Proof.
  unfold VisitCallExpr, recorded_borrow.
  destruct expr as [[[[m|] [[d|]|]]|] loc]; cbn; try done;
    by destruct (String.eqb m "borrow"), (String.eqb m "borrow_mut").
Qed.

Lemma VisitCXXConstructExpr_eq expr :
  VisitCXXConstructExpr expr =
    match tracked_decl expr with
    | Some d => bind (addTrackedVariable (getLocation d)) (λ _, ret true)
    | None => ret true
    end.
Proof.
  unfold VisitCXXConstructExpr, tracked_decl.
  destruct expr as [[[c|]|] ps]; cbn; try done.
  destruct (String.eqb c "Unique"); [|done].
  by destruct (initializedVarDecl ps).
Qed.

Lemma TraverseStmt_CompoundStmt body s :
  TraverseStmt (CompoundStmt body) s =
    match TraverseChildren TraverseStmt body
            (mkBorrowContext (currentBorrowStates s)
               (scopeStack s ++ [currentBorrowStates s]) (DE s)) with
    | (Ok _, s2) =>
        (Ok true,
         match last (scopeStack s2) with
         | Some saved => mkBorrowContext saved (removelast (scopeStack s2)) (DE s2)
         | None => s2
         end)
    | (Throw e, s2) => (Throw e, s2)
    | (Terminate, s2) => (Terminate, s2)
    | (Undefined, s2) => (Undefined, s2)
    end.
Proof.
  cbn [TraverseStmt]. ctx_unfold.
  destruct (TraverseChildren _ _ _) as [[b| | |] s2]; try done.
  by destruct (last (scopeStack s2)).
Qed.

(** Induction on a tree, with the property at hand for every child. *)
Lemma Stmt_nested_ind (P : Stmt → Prop) :
  (∀ body, Forall P body → P (CompoundStmt body)) →
  (∀ expr children, Forall P children → P (CXXConstructExpr expr children)) →
  (∀ expr children, Forall P children → P (CallExpr expr children)) →
  (∀ children, Forall P children → P (Node children)) →
  ∀ n, P n.
Proof.
  intros Hcompound Hconstruct Hcall Hnode. fix IH 1.
  intros [body|expr children|expr children|children];
    [apply Hcompound|apply Hconstruct|apply Hcall|apply Hnode];
    match goal with |- Forall P ?l => induction l; constructor; auto end.
Qed.

Lemma TraverseChildren_nil traverse : TraverseChildren traverse [] = ret true.
Proof. done. Qed.

Lemma TraverseChildren_cons traverse c rest :
  TraverseChildren traverse (c :: rest) =
    bind (traverse c) (λ b, if b then TraverseChildren traverse rest else ret false).
Proof. done. Qed.

Lemma Forall_flat_map_1 {A B} (P : B → Prop) (f : A → list B) l :
  Forall P (flat_map f l) → Forall (λ x, Forall P (f x)) l.
Proof.
  induction l as [|x l IH]; cbn; [constructor|].
  intros [H1 H2]%Forall_app. constructor; auto.
Qed.

(** ** A rule for properties of the traversal *)

(** A property of the current borrow states that the visits keep is kept by
    the traversal of a tree, the scope stack is after it what it was before,
    and what the traversal reports is what its visits report, in order. *)
Section TraverseInvariant.
Context (Qc : gmap string BorrowState → Prop).
Context (R : list CallInfo → list Diagnostic → Prop).
Context (okCall : CallInfo → Prop) (okConstruct : ConstructExpr → Prop).
Context (R_nil : R [] []).
Context (R_app : ∀ es ds es' ds', R es ds → R es' ds' → R (es ++ es') (ds ++ ds')).
Context (Hcall : ∀ e, okCall e → visit_keeps Qc R [e] (VisitCallExpr e)).
Context (Hconstruct :
  ∀ e, okConstruct e → visit_keeps Qc R [] (VisitCXXConstructExpr e)).

Lemma TraverseChildren_keeps l :
  Forall (λ n, visit_keeps Qc R (calls n) (TraverseStmt n)) l →
  visit_keeps Qc R (flat_map calls l) (TraverseChildren TraverseStmt l).
Proof.
  induction 1 as [|n l Hn Hl IH]; intros s r s' Q E.
  - injection E as <- <-. right. do 3 (split; [done|]).
    exists []. by rewrite app_nil_r.
  - rewrite TraverseChildren_cons in E. unfold bind in E.
    destruct (TraverseStmt n s) as [r1 s1] eqn:E1.
    destruct (Hn s r1 s1 Q E1) as [->|(-> & Q1 & S1 & ds1 & D1 & R1)];
      [left; by injection E|].
    destruct (IH s1 r s' Q1 E) as [->|(-> & Q2 & S2 & ds2 & D2 & R2)];
      [by left|].
    right. split; [done|]. split; [done|]. split; [congruence|].
    exists (ds1 ++ ds2). split; [by rewrite D2, D1, app_assoc|].
    cbn [flat_map]. by apply R_app.
Qed.

Lemma visit_then_children_keeps e es visit l :
  visit_keeps Qc R e visit →
  visit_keeps Qc R es (TraverseChildren TraverseStmt l) →
  visit_keeps Qc R (e ++ es)
    (bind visit (λ b, if b then TraverseChildren TraverseStmt l else ret false)).
Proof.
  intros Hv Hl s r s' Q E. unfold bind in E.
  destruct (visit s) as [r1 s1] eqn:E1.
  destruct (Hv s r1 s1 Q E1) as [->|(-> & Q1 & S1 & ds1 & D1 & R1)];
    [left; by injection E|].
  destruct (Hl s1 r s' Q1 E) as [->|(-> & Q2 & S2 & ds2 & D2 & R2)];
    [by left|].
  right. split; [done|]. split; [done|]. split; [congruence|].
  exists (ds1 ++ ds2). split; [by rewrite D2, D1, app_assoc|]. by apply R_app.
Qed.

(** A compound statement: what its body keeps it keeps, and it gives back
    the current borrow states it was entered with. *)
Lemma CompoundStmt_keeps body :
  visit_keeps Qc R (flat_map calls body) (TraverseChildren TraverseStmt body) →
  ∀ s r s', Qc (currentBorrowStates s) →
    TraverseStmt (CompoundStmt body) s = (r, s') →
    r = Undefined
    ∨ (r = Ok true ∧ currentBorrowStates s' = currentBorrowStates s
       ∧ scopeStack s' = scopeStack s
       ∧ ∃ ds, DE s' = DE s ++ ds ∧ R (flat_map calls body) ds).
Proof.
  intros Hl s r s' Q E. rewrite TraverseStmt_CompoundStmt in E.
  destruct (TraverseChildren _ _ _) as [r1 s2] eqn:E1.
  destruct (λ Q1, Hl _ r1 s2 Q1 E1) as [->|(-> & Q2 & S2 & ds & D2 & R2)];
    [done|left; by injection E|].
  cbn in S2, D2. rewrite S2, last_snoc, removelast_last in E.
  injection E as <- <-. right. cbn. do 3 (split; [done|]). by exists ds.
Qed.

Lemma TraverseStmt_keeps n :
  Forall okCall (calls n) → Forall okConstruct (constructs n) →
  visit_keeps Qc R (calls n) (TraverseStmt n).
Proof.
  induction n as [body IH|expr children IH|expr children IH|children IH]
    using Stmt_nested_ind; cbn [calls constructs]; intros Hc Hk.
  - assert (visit_keeps Qc R (flat_map calls body)
              (TraverseChildren TraverseStmt body)) as Hl.
    { apply TraverseChildren_keeps.
      apply Forall_flat_map_1 in Hc, Hk.
      rewrite Forall_forall in IH, Hc, Hk |- *. auto. }
    intros s r s' Q E.
    destruct (CompoundStmt_keeps body Hl s r s' Q E)
      as [->|(-> & C & S & ds & D & HR)]; [by left|].
    right. rewrite C. do 3 (split; [done|]). by exists ds.
  - apply Forall_cons_1 in Hk as [Hk1 Hk].
    apply (visit_then_children_keeps []); [by apply Hconstruct|].
    apply TraverseChildren_keeps.
    apply Forall_flat_map_1 in Hc, Hk.
    rewrite Forall_forall in IH, Hc, Hk |- *. auto.
  - apply Forall_cons_1 in Hc as [Hc1 Hc].
    apply (visit_then_children_keeps [expr]); [by apply Hcall|].
    apply TraverseChildren_keeps.
    apply Forall_flat_map_1 in Hc, Hk.
    rewrite Forall_forall in IH, Hc, Hk |- *. auto.
  - apply TraverseChildren_keeps.
    apply Forall_flat_map_1 in Hc, Hk.
    rewrite Forall_forall in IH, Hc, Hk |- *. auto.
Qed.

End TraverseInvariant.

(** ** The visits *)

(** A construct expression: the variable it initialises, if it is a
    [Unique], starts anew; nothing is reported. *)
Lemma VisitCXXConstructExpr_cases expr s :
  VisitCXXConstructExpr expr s =
    (Ok true,
     match tracked_decl expr with
     | Some d =>
         mkBorrowContext
           (<[getLocation d := BorrowState_ctor]> (currentBorrowStates s))
           (scopeStack s) (DE s)
     | None => s
     end).
Proof. rewrite VisitCXXConstructExpr_eq. by destruct (tracked_decl expr). Qed.

(** A call expression that returns: the borrow it records, if any, goes to
    the state of the variable (a new one if it has none), and it is
    reported when the other kind of borrow is marked there. *)
Lemma VisitCallExpr_cases expr s r s' :
  VisitCallExpr expr s = (r, s') →
  r = Undefined
  ∨ (r = Ok true ∧ scopeStack s' = scopeStack s
     ∧ match recorded_borrow expr with
       | None => s' = s
       | Some (shared, d) =>
           let st := default BorrowState_ctor
                       (currentBorrowStates s !! getLocation d) in
           currentBorrowStates s'
           = <[getLocation d :=
                 if shared
                 then mkBorrowState (mutablyBorrowed st) (immutablyBorrowed st + 1)
                 else mkBorrowState true (immutablyBorrowed st)]>
               (currentBorrowStates s)
           ∧ DE s'
             = DE s ++
               if (if shared then mutablyBorrowed st
                   else 0 <? immutablyBorrowed st)
               then [conflict_report shared (getNameAsString d) (getExprLoc expr)]
               else []
       end).
Proof.
  rewrite VisitCallExpr_eq.
  destruct (recorded_borrow expr) as [[[|] d]|]; unfold bind.
  - destruct (Z.lt_ge_cases
                (immutablyBorrowed
                   (default BorrowState_ctor
                      (currentBorrowStates s !! getLocation d))) INT_MAX)
      as [Hlt|Hge].
    + rewrite recordImmutableBorrow_eq by done. intros [= <- <-]. by right.
    + pose proof (recordImmutableBorrow_overflow
                    (getLocation d) (getNameAsString d) (getExprLoc expr) s Hge)
        as Hu.
      destruct (recordImmutableBorrow _ _ _ s) as [r0 s0]. cbn in Hu. subst r0.
      intros [= <- <-]. by left.
  - rewrite recordMutableBorrow_eq. intros [= <- <-]. by right.
  - intros [= <- <-]. by right.
Qed.

(** ** Scopes *)

Lemma visits_keep_stack_call e :
  visit_keeps (λ _, True) (λ _ _, True) [e] (VisitCallExpr e).
Proof.
  intros s r s' _ E.
  destruct (VisitCallExpr_cases _ _ _ _ E) as [->|(-> & S & H)]; [by left|].
  right. do 3 (split; [done|]).
  destruct (recorded_borrow e) as [[k d]|]; [|subst s'; exists []; by rewrite app_nil_r].
  destruct H as [_ D]. eauto.
Qed.

Lemma visits_keep_stack_construct e :
  visit_keeps (λ _, True) (λ _ _, True) [] (VisitCXXConstructExpr e).
Proof.
  intros s r s' _. rewrite VisitCXXConstructExpr_cases. intros [= <- <-].
  right. do 2 (split; [done|]).
  destruct (tracked_decl e); (split; [done|]); exists []; by rewrite app_nil_r.
Qed.

Lemma TraverseStmt_keeps_stack n :
  visit_keeps (λ _, True) (λ _ _, True) (calls n) (TraverseStmt n).
Proof.
  apply (TraverseStmt_keeps _ _ (λ _, True) (λ _, True));
    auto using visits_keep_stack_call, visits_keep_stack_construct.
  - by apply Forall_forall.
  - by apply Forall_forall.
Qed.

(** Scopes.  A traversal that returns returns [true], so no traversal is cut
    short, and it leaves the scope stack as it found it.  After a compound
    statement the current borrow states are those it was entered with:
    what was declared in the block is forgotten, and so is what was
    borrowed in it, of whichever variable. *)
Theorem TraverseStmt_scopes n s b s' :
  TraverseStmt n s = (Ok b, s') →
  b = true ∧ scopeStack s' = scopeStack s
  ∧ ∀ body, n = CompoundStmt body →
            currentBorrowStates s' = currentBorrowStates s.
Proof.
  intros E.
  destruct (TraverseStmt_keeps_stack n s _ _ I E) as [?|(Hb & _ & S & _)];
    [done|].
  injection Hb as ->. do 2 (split; [done|]). intros body ->.
  eapply (CompoundStmt_keeps (λ _, True) (λ _ _, True)) in E as [?|(_ & C & _)];
    [done|done| |done].
  apply TraverseChildren_keeps; [done|done|].
  apply Forall_forall. intros c _. apply TraverseStmt_keeps_stack.
Qed.

(** ** Reports *)

Lemma is_conflict_report_intro shared varName loc :
  is_conflict_report (conflict_report shared varName loc).
Proof. by exists shared, varName, loc. Qed.

Lemma TraverseStmt_reports n :
  visit_keeps (λ _, True)
    (λ es ds, Forall is_conflict_report ds ∧ (length ds ≤ length es)%nat)
    (calls n) (TraverseStmt n).
Proof.
  apply (TraverseStmt_keeps _ _ (λ _, True) (λ _, True)).
  - by split.
  - intros es ds es' ds' [F1 L1] [F2 L2]. split; [by apply Forall_app|].
    rewrite !length_app. lia.
  - intros e _ s r s' _ E.
    destruct (VisitCallExpr_cases _ _ _ _ E) as [->|(-> & S & H)]; [by left|].
    right. do 3 (split; [done|]).
    destruct (recorded_borrow e) as [[k d]|].
    + destruct H as [_ D]. eexists. split; [done|].
      destruct (if k then _ else _); cbn; split; try lia; try constructor;
        auto using is_conflict_report_intro.
    + subst s'. exists []. rewrite app_nil_r. cbn. split; [done|]. split; [done|lia].
  - intros e _ s r s' _. rewrite VisitCXXConstructExpr_cases. intros [= <- <-].
    right. do 2 (split; [done|]).
    destruct (tracked_decl e); (split; [done|]); exists []; by rewrite app_nil_r.
  - by apply Forall_forall.
  - by apply Forall_forall.
Qed.

(** Reports.  What a traversal tells the engine is added at the end of what
    the engine had been told.  Every report is one of the two reports of a
    conflict, an error with a location and the name of the variable; that
    a variable is not being tracked is never reported, whatever the tree.
    There is at most one report for each call expression. *)
Theorem reports_are_conflicts n s b s' :
  TraverseStmt n s = (Ok b, s') →
  ∃ ds, DE s' = DE s ++ ds
        ∧ Forall is_conflict_report ds
        ∧ (length ds ≤ length (calls n))%nat
        ∧ ∀ x, x ∈ ds → format x ≠ "Variable '%0' is not being tracked".
Proof.
  intros E.
  destruct (TraverseStmt_reports n s _ _ I E)
    as [?|(_ & _ & _ & ds & D & F & L)]; [done|].
  exists ds. do 3 (split; [done|]). intros x Hx.
  rewrite Forall_forall in F. by destruct (F x Hx) as ([|] & v & l & ->).
Qed.

(** ** Borrows of one kind *)

Lemma TraverseStmt_one_kind shared n :
  (∀ e k d, e ∈ calls n → recorded_borrow e = Some (k, d) → k = shared) →
  visit_keeps (no_mark_against shared) (λ _ ds, ds = []) (calls n) (TraverseStmt n).
Proof.
  intros Hkind.
  apply (TraverseStmt_keeps _ _
           (λ e, ∀ k d, recorded_borrow e = Some (k, d) → k = shared) (λ _, True)).
  - done.
  - by intros es ds es' ds' -> ->.
  - intros e He s r s' Q E.
    destruct (VisitCallExpr_cases _ _ _ _ E) as [->|(-> & S & H)]; [by left|].
    right. split; [done|].
    destruct (recorded_borrow e) as [[k d]|] eqn:Hr; cycle 1.
    { subst s'. do 2 (split; [done|]). exists []. by rewrite app_nil_r. }
    rewrite (He k d eq_refl) in H. destruct H as [C D]. cbn zeta in C, D.
    assert (if shared
            then mutablyBorrowed
                   (default BorrowState_ctor
                      (currentBorrowStates s !! getLocation d)) = false
            else immutablyBorrowed
                   (default BorrowState_ctor
                      (currentBorrowStates s !! getLocation d)) <= 0) as Hst.
    { destruct (currentBorrowStates s !! getLocation d) as [st|] eqn:Hk.
      - apply (Q _ _ Hk).
      - by destruct shared. }
    split; [|split; [done|]].
    + intros k' st'. rewrite C, lookup_insert.
      case_decide; [|apply Q]. intros [= <-].
      destruct shared; cbn; [done|lia].
    + exists []. rewrite app_nil_r, D. destruct shared.
      * by rewrite Hst, app_nil_r.
      * apply Z.ltb_ge in Hst. by rewrite Hst, app_nil_r.
  - intros e _ s r s' Q. rewrite VisitCXXConstructExpr_cases. intros [= <- <-].
    right. split; [done|].
    destruct (tracked_decl e); (split; [|split; [done|]; exists []; by rewrite app_nil_r]);
      [|done].
    intros k' st'. cbn. rewrite lookup_insert.
    case_decide; [|apply Q]. intros [= <-]. by destruct shared.
  - apply Forall_forall. intros e He k d. by apply Hkind.
  - by apply Forall_forall.
Qed.

(** Borrows of one kind are never reported.  When every borrow a tree
    records is shared, or every one is exclusive, and the current borrow
    states have no mark of the other kind, the traversal reports nothing:
    so none of two, or more, exclusive borrows of one variable in one scope
    is reported. *)
Theorem one_kind_unreported shared n s b s' :
  (∀ e k d, e ∈ calls n → recorded_borrow e = Some (k, d) → k = shared) →
  no_mark_against shared (currentBorrowStates s) →
  TraverseStmt n s = (Ok b, s') →
  DE s' = DE s ∧ no_mark_against shared (currentBorrowStates s').
Proof.
  intros Hkind Q E.
  destruct (TraverseStmt_one_kind shared n Hkind s _ _ Q E)
    as [?|(_ & Q' & _ & ds & D & ->)]; [done|].
  by rewrite app_nil_r in D.
Qed.

(** ** A mark stays *)

Lemma elem_of_flat_map {A B} (f : A → list B) l x :
  x ∈ flat_map f l ↔ ∃ y, y ∈ l ∧ x ∈ f y.
Proof.
  rewrite list_elem_of_In, in_flat_map.
  split; intros (y & H1 & H2); exists y; by rewrite ?list_elem_of_In in *.
Qed.

Lemma not_declared_app x cs cs' :
  not_declared x (cs ++ cs') ↔ not_declared x cs ∧ not_declared x cs'.
Proof.
  unfold not_declared. split.
  - intros H. split; intros c d Hc; apply H; apply elem_of_app; auto.
  - intros [H1 H2] c d [Hc|Hc]%elem_of_app; eauto.
Qed.

Lemma VisitCallExpr_marked shared x e :
  visit_keeps (marked shared x) (all_reported (negb shared) x) [e]
    (VisitCallExpr e).
Proof.
  intros s r s' (st & Hx & Hm) E.
  destruct (VisitCallExpr_cases _ _ _ _ E) as [->|(-> & S & H)]; [by left|].
  right. split; [done|].
  destruct (recorded_borrow e) as [[k d]|] eqn:Hr; cycle 1.
  { subst s'. split; [by exists st|]. split; [done|]. exists [].
    rewrite app_nil_r. split; [done|].
    intros e' d' ->%list_elem_of_singleton. by rewrite Hr. }
  destruct H as [C D]. cbn zeta in C, D.
  destruct (decide (getLocation d = x)) as [Hd|Hd].
  - rewrite Hd, Hx in C, D. cbn in C, D. split; [|split; [done|]].
    + eexists. rewrite C, lookup_insert_eq. split; [done|].
      destruct k, shared; cbn; try done; lia.
    + eexists. split; [done|].
      intros e' d' ->%list_elem_of_singleton. rewrite Hr. intros [= -> <-] _.
      destruct shared; cbn in Hm |- *.
      * apply Z.ltb_lt in Hm. rewrite Hm. apply list_elem_of_here.
      * rewrite Hm. apply list_elem_of_here.
  - split; [|split; [done|]].
    + exists st. by rewrite C, lookup_insert_ne.
    + eexists. split; [done|].
      intros e' d' ->%list_elem_of_singleton. rewrite Hr. by intros [= -> <-] ?.
Qed.

Lemma VisitCXXConstructExpr_marked shared x e :
  not_declared x [e] →
  visit_keeps (marked shared x) (all_reported (negb shared) x) []
    (VisitCXXConstructExpr e).
Proof.
  intros Hn s r s' (st & Hx & Hm). rewrite VisitCXXConstructExpr_cases.
  intros [= <- <-]. right. split; [done|].
  assert (all_reported (negb shared) x [] []) as Hnil
    by (intros e' d' He'; by apply elem_of_nil in He').
  destruct (tracked_decl e) as [d|] eqn:Hd; cbn.
  - split; [|split; [done|]; exists []; by rewrite app_nil_r].
    exists st. rewrite lookup_insert_ne; [done|].
    apply (Hn e d); [apply list_elem_of_here|done].
  - split; [by exists st|]. split; [done|]. exists []. by rewrite app_nil_r.
Qed.

Lemma all_reported_app shared x es ds es' ds' :
  all_reported shared x es ds → all_reported shared x es' ds' →
  all_reported shared x (es ++ es') (ds ++ ds').
Proof.
  intros H1 H2 e d [He|He]%elem_of_app Hr Hd; apply elem_of_app; eauto.
Qed.

Lemma all_reported_nil shared x : all_reported shared x [] [].
Proof. intros e d He. by apply elem_of_nil in He. Qed.

(** While the variable [x] is not declared again, its mark stays, and every
    borrow of the other kind is reported. *)
Lemma TraverseStmt_marked shared x n :
  not_declared x (constructs n) →
  visit_keeps (marked shared x) (all_reported (negb shared) x) (calls n)
    (TraverseStmt n).
Proof.
  intros Hn.
  apply (TraverseStmt_keeps _ _ (λ _, True) (λ c, not_declared x [c])).
  - apply all_reported_nil.
  - apply all_reported_app.
  - intros e _. apply VisitCallExpr_marked.
  - intros e. apply VisitCXXConstructExpr_marked.
  - by apply Forall_forall.
  - apply Forall_forall. intros c Hc c' d ->%list_elem_of_singleton. by apply Hn.
Qed.

Lemma TraverseChildren_marked shared x l :
  not_declared x (flat_map constructs l) →
  visit_keeps (marked shared x) (all_reported (negb shared) x)
    (flat_map calls l) (TraverseChildren TraverseStmt l).
Proof.
  intros Hn.
  apply TraverseChildren_keeps; [apply all_reported_nil|apply all_reported_app|].
  apply Forall_forall. intros c Hc. apply TraverseStmt_marked.
  intros c' d Hc'. apply Hn. apply elem_of_flat_map. eauto.
Qed.

Lemma TraverseStmt_no_negative_count n :
  visit_keeps no_negative_count (λ _ _, True) (calls n) (TraverseStmt n).
Proof.
  apply (TraverseStmt_keeps _ _ (λ _, True) (λ _, True)); try done.
  - intros e _ s r s' Q E.
    destruct (VisitCallExpr_cases _ _ _ _ E) as [->|(-> & S & H)]; [by left|].
    right. split; [done|].
    destruct (recorded_borrow e) as [[k d]|] eqn:Hr; cycle 1.
    { subst s'. do 2 (split; [done|]). exists []. by rewrite app_nil_r. }
    destruct H as [C D]. cbn zeta in C, D. split; [|split; [done|]; eauto].
    assert (0 <= immutablyBorrowed
                   (default BorrowState_ctor
                      (currentBorrowStates s !! getLocation d))) as Hst.
    { destruct (currentBorrowStates s !! getLocation d) as [st|] eqn:Hk; [|done].
      apply (Q _ _ Hk). }
    intros k' st'. rewrite C, lookup_insert.
    case_decide; [|apply Q]. intros [= <-]. destruct k; cbn; lia.
  - intros e _ s r s' Q. rewrite VisitCXXConstructExpr_cases. intros [= <- <-].
    right. split; [done|].
    destruct (tracked_decl e); (split; [|split; [done|]; exists []; by rewrite app_nil_r]);
      [|done].
    intros k' st'. cbn. rewrite lookup_insert.
    case_decide; [|apply Q]. by intros [= <-].
  - by apply Forall_forall.
  - by apply Forall_forall.
Qed.

(** The visit of a call expression marks the variable of the borrow it
    records. *)
Lemma VisitCallExpr_marks shared x e d s b s' :
  recorded_borrow e = Some (shared, d) → getLocation d = x →
  no_negative_count (currentBorrowStates s) →
  VisitCallExpr e s = (Ok b, s') → marked shared x (currentBorrowStates s').
Proof.
  intros Hr Hd Q E.
  destruct (VisitCallExpr_cases _ _ _ _ E) as [?|(_ & _ & H)]; [done|].
  rewrite Hr in H. destruct H as [C _]. cbn zeta in C. rewrite Hd in C.
  eexists. rewrite C, lookup_insert_eq. split; [done|].
  destruct shared; cbn; [|done].
  destruct (currentBorrowStates s !! x) as [st|] eqn:Hk; cbn; [|done].
  pose proof (Q _ _ Hk). lia.
Qed.

Section OpenCall.
Context (shared : bool) (x : string) (e1 : CallInfo) (d1 : ValueDecl).
Context (Hr : recorded_borrow e1 = Some (shared, d1)) (Hd : getLocation d1 = x).

Lemma open_call_marks_children l :
  Forall (λ n,
    e1 ∈ open_calls n → not_declared x (constructs n) →
    ∀ s b s', no_negative_count (currentBorrowStates s) →
      TraverseStmt n s = (Ok b, s') → marked shared x (currentBorrowStates s')) l →
  e1 ∈ flat_map open_calls l → not_declared x (flat_map constructs l) →
  ∀ s b s', no_negative_count (currentBorrowStates s) →
    TraverseChildren TraverseStmt l s = (Ok b, s') →
    marked shared x (currentBorrowStates s').
Proof.
  induction 1 as [|c l Hc Hl IH]; cbn [flat_map]; intros He Hn s b s' Q E.
  { by apply elem_of_nil in He. }
  apply not_declared_app in Hn as [Hn1 Hn2].
  rewrite TraverseChildren_cons in E. unfold bind in E.
  destruct (TraverseStmt c s) as [r1 s1] eqn:E1.
  destruct (TraverseStmt_no_negative_count c s r1 s1 Q E1)
    as [->|(-> & Q1 & _)]; [done|].
  apply elem_of_app in He as [He|He].
  - pose proof (Hc He Hn1 s _ _ Q E1) as Hm.
    destruct (TraverseChildren_marked shared x l Hn2 s1 _ _ Hm E)
      as [?|(_ & Hm' & _)]; done.
  - by apply (IH He Hn2 s1 b s').
Qed.

(** A borrow recorded outside every compound statement of a tree is marked
    when the traversal of the tree returns. *)
Lemma open_call_marks n :
  e1 ∈ open_calls n → not_declared x (constructs n) →
  ∀ s b s', no_negative_count (currentBorrowStates s) →
    TraverseStmt n s = (Ok b, s') → marked shared x (currentBorrowStates s').
Proof.
  induction n as [body IH|expr children IH|expr children IH|children IH]
    using Stmt_nested_ind; cbn [open_calls constructs];
    intros He Hn s b s' Q E.
  - by apply elem_of_nil in He.
  - cbn [TraverseStmt] in E. unfold bind in E.
    rewrite VisitCXXConstructExpr_cases in E.
    apply (not_declared_app x [expr]) in Hn as [Hn1 Hn2].
    eapply (open_call_marks_children children IH He Hn2); [|done].
    destruct (tracked_decl expr); [|done].
    intros k' st'. cbn. rewrite lookup_insert.
    case_decide; [|apply Q]. by intros [= <-].
  - cbn [TraverseStmt] in E. unfold bind in E.
    destruct (VisitCallExpr expr s) as [r1 s1] eqn:E1.
    assert (r1 = Undefined ∨ r1 = Ok true ∧ no_negative_count (currentBorrowStates s1))
      as [->|[-> Q1]]; [|done|].
    { pose proof (TraverseStmt_no_negative_count (CallExpr expr []) s r1 s1 Q)
        as H.
      cbn [TraverseStmt] in H. unfold bind in H. rewrite E1 in H.
      destruct r1 as [[|]| | |]; cbn in H;
        destruct (H eq_refl) as [?|(? & ? & _)]; auto. }
    apply elem_of_cons in He as [<-|He].
    + pose proof (VisitCallExpr_marks _ _ _ _ _ _ _ Hr Hd Q E1) as Hm.
      destruct (TraverseChildren_marked shared x children Hn s1 _ _ Hm E)
        as [?|(_ & Hm' & _)]; done.
    + by apply (open_call_marks_children children IH He Hn s1 b s').
  - by apply (open_call_marks_children children IH He Hn s b s').
Qed.

End OpenCall.

(** A mark stays until the scope ends.  Among the statements of a block,
    let one record, outside any block of its own, a borrow of a variable,
    and let the variable not be declared again.  Then every borrow of the
    other kind that a later statement of the block records of that variable,
    at whatever depth, is reported: that the handle of the first borrow may
    have ended in between makes no difference. *)
Theorem earlier_borrow_is_reported shared x n1 rest e1 d1 s b s' :
  e1 ∈ open_calls n1 →
  recorded_borrow e1 = Some (shared, d1) → getLocation d1 = x →
  not_declared x (flat_map constructs (n1 :: rest)) →
  no_negative_count (currentBorrowStates s) →
  TraverseChildren TraverseStmt (n1 :: rest) s = (Ok b, s') →
  ∃ ds, DE s' = DE s ++ ds
        ∧ all_reported (negb shared) x (flat_map calls rest) ds.
Proof.
  intros He Hr Hd Hn Q E. cbn [flat_map] in Hn.
  apply not_declared_app in Hn as [Hn1 Hn2].
  rewrite TraverseChildren_cons in E. unfold bind in E.
  destruct (TraverseStmt n1 s) as [r1 s1] eqn:E1.
  destruct (TraverseStmt_no_negative_count n1 s r1 s1 Q E1)
    as [->|(-> & Q1 & _ & ds1 & D1 & _)]; [done|].
  pose proof (open_call_marks shared x e1 d1 Hr Hd n1 He Hn1 s _ _ Q E1) as Hm.
  destruct (TraverseChildren_marked shared x rest Hn2 s1 _ _ Hm E)
    as [?|(_ & _ & _ & ds2 & D2 & R2)]; [done|].
  exists (ds1 ++ ds2). split; [by rewrite D2, D1, app_assoc|].
  intros e d Hin Hre Hde. apply elem_of_app. right. by apply R2.
Qed.

(** ** The analysis of a translation unit *)

Lemma counts_below_mono N N' m : N <= N' → counts_below N m → counts_below N' m.
Proof. intros HN H k st Hk. specialize (H k st Hk). lia. Qed.

Lemma VisitCallExpr_total N e s :
  0 <= N < INT_MAX → counts_below N (currentBorrowStates s) →
  ∃ s', VisitCallExpr e s = (Ok true, s')
        ∧ counts_below (N + 1) (currentBorrowStates s')
        ∧ scopeStack s' = scopeStack s.
Proof.
  intros HN Q. rewrite VisitCallExpr_eq.
  assert (immutablyBorrowed
            (default BorrowState_ctor
               (currentBorrowStates s !! getLocation
                  match recorded_borrow e with Some (_, d) => d
                  | None => mkValueDecl "" "" end)) <= N) as Hst.
  { destruct (currentBorrowStates s !! _) as [st|] eqn:Hk; cbn; [|lia].
    apply (Q _ _ Hk). }
  destruct (recorded_borrow e) as [[[|] d]|]; unfold bind.
  - rewrite recordImmutableBorrow_eq by lia. eexists. split; [done|].
    split; [|done]. intros k st. cbn. rewrite lookup_insert.
    case_decide; [intros [= <-]; cbn; lia|].
    intros Hk. specialize (Q _ _ Hk). lia.
  - rewrite recordMutableBorrow_eq. eexists. split; [done|].
    split; [|done]. intros k st. cbn. rewrite lookup_insert.
    case_decide; [intros [= <-]; cbn; lia|].
    intros Hk. specialize (Q _ _ Hk). lia.
  - eexists. split; [done|]. split; [|done]. by apply (counts_below_mono N); [lia|].
Qed.

Lemma TraverseChildren_total l :
  Forall (λ n, ∀ N s,
    0 <= N → N + Z.of_nat (length (calls n)) <= INT_MAX →
    counts_below N (currentBorrowStates s) →
    ∃ s', TraverseStmt n s = (Ok true, s')
          ∧ counts_below (N + Z.of_nat (length (calls n))) (currentBorrowStates s')
          ∧ scopeStack s' = scopeStack s) l →
  ∀ N s,
    0 <= N → N + Z.of_nat (length (flat_map calls l)) <= INT_MAX →
    counts_below N (currentBorrowStates s) →
    ∃ s', TraverseChildren TraverseStmt l s = (Ok true, s')
          ∧ counts_below (N + Z.of_nat (length (flat_map calls l)))
              (currentBorrowStates s')
          ∧ scopeStack s' = scopeStack s.
Proof.
  induction 1 as [|c l Hc Hl IH]; cbn [flat_map]; intros N s HN Hle Q.
  - exists s. split; [done|]. split; [|done]. by rewrite Z.add_0_r.
  - rewrite length_app, Nat2Z.inj_add in Hle |- *.
    destruct (Hc N s) as (s1 & E1 & Q1 & S1); [lia..|done|].
    destruct (IH (N + Z.of_nat (length (calls c))) s1) as (s2 & E2 & Q2 & S2);
      [lia..|done|].
    exists s2. rewrite TraverseChildren_cons. unfold bind. rewrite E1, E2.
    split; [done|]. split; [by rewrite Z.add_assoc|congruence].
Qed.

(** A traversal returns unless a count leaves the range of [int]. *)
Lemma TraverseStmt_total n : ∀ N s,
  0 <= N → N + Z.of_nat (length (calls n)) <= INT_MAX →
  counts_below N (currentBorrowStates s) →
  ∃ s', TraverseStmt n s = (Ok true, s')
        ∧ counts_below (N + Z.of_nat (length (calls n))) (currentBorrowStates s')
        ∧ scopeStack s' = scopeStack s.
Proof.
  induction n as [body IH|expr children IH|expr children IH|children IH]
    using Stmt_nested_ind; cbn [calls]; intros N s HN Hle Q.
  - rewrite TraverseStmt_CompoundStmt.
    destruct (TraverseChildren_total body IH N
                (mkBorrowContext (currentBorrowStates s)
                   (scopeStack s ++ [currentBorrowStates s]) (DE s)))
      as (s2 & E2 & Q2 & S2); [done..|].
    rewrite E2. cbn in S2. rewrite S2, last_snoc, removelast_last.
    eexists. split; [done|]. cbn. split; [|done].
    by apply (counts_below_mono N); [lia|].
  - cbn [TraverseStmt]. unfold bind. rewrite VisitCXXConstructExpr_cases.
    match goal with |- context [TraverseChildren _ _ ?t] => set (s1 := t) end.
    assert (counts_below N (currentBorrowStates s1)
            ∧ scopeStack s1 = scopeStack s) as [Q1 S1].
    { subst s1. destruct (tracked_decl expr); [|done]. split; [|done].
      intros k st. cbn. rewrite lookup_insert.
      case_decide; [intros [= <-]; cbn; lia|]. apply Q. }
    destruct (TraverseChildren_total children IH N s1)
      as (s2 & E2 & Q2 & S2); [done..|].
    exists s2. split; [done|]. split; [done|congruence].
  - cbn [length] in Hle |- *. rewrite Nat2Z.inj_succ in Hle |- *.
    destruct (VisitCallExpr_total N expr s) as (s1 & E1 & Q1 & S1);
      [unfold INT_MAX in *; lia|done|].
    destruct (TraverseChildren_total children IH (N + 1) s1)
      as (s2 & E2 & Q2 & S2); [lia..|done|].
    exists s2. cbn [TraverseStmt]. unfold bind. rewrite E1, E2.
    split; [done|]. split; [|congruence].
    by replace (N + Z.succ (Z.of_nat (length (flat_map calls children))))
      with (N + 1 + Z.of_nat (length (flat_map calls children))) by lia.
  - cbn [TraverseStmt]. by apply (TraverseChildren_total children IH).
Qed.

(** The analysis completes.  Whatever the context holds from an earlier
    use, the analysis of a translation unit with no more than [INT_MAX] call
    expressions returns.  It leaves the scope stack empty and no count
    negative or above the number of call expressions, and what it tells the
    engine are reports of conflicts, added to what the engine had been
    told. *)
Theorem HandleTranslationUnit_completes tu s :
  Z.of_nat (length (calls tu)) <= INT_MAX →
  ∃ s', HandleTranslationUnit tu s = (Ok tt, s')
        ∧ scopeStack s' = []
        ∧ counts_below (Z.of_nat (length (calls tu))) (currentBorrowStates s')
        ∧ no_negative_count (currentBorrowStates s')
        ∧ ∃ ds, DE s' = DE s ++ ds ∧ Forall is_conflict_report ds.
Proof.
  intros Hle. unfold HandleTranslationUnit, clear, bind at 1, modify.
  set (s0 := mkBorrowContext ∅ [] (DE s)).
  destruct (TraverseStmt_total tu 0 s0) as (s1 & E1 & Q1 & S1);
    [done|lia|by intros k st; cbn; rewrite lookup_empty|].
  unfold bind. rewrite E1. exists s1. split; [done|]. split; [done|].
  split; [done|]. split.
  - destruct (TraverseStmt_no_negative_count tu s0 _ _
                ltac:(by intros k st; cbn; rewrite lookup_empty) E1)
      as [?|(_ & Q & _)]; done.
  - destruct (TraverseStmt_reports tu s0 _ _ I E1)
      as [?|(_ & _ & _ & ds & D & F & _)]; [done|]. by exists ds.
Qed.

(** ** One variable and another *)

Lemma TraverseStmt_untouched x v n :
  (∀ e k d, e ∈ calls n → recorded_borrow e = Some (k, d) → getLocation d ≠ x) →
  not_declared x (constructs n) →
  visit_keeps (λ m, m !! x = v) (λ _ _, True) (calls n) (TraverseStmt n).
Proof.
  intros Hc Hn.
  apply (TraverseStmt_keeps _ _
           (λ e, ∀ k d, recorded_borrow e = Some (k, d) → getLocation d ≠ x)
           (λ c, not_declared x [c])); try done.
  - intros e He s0 r s1 Q E0.
    destruct (VisitCallExpr_cases _ _ _ _ E0) as [->|(-> & S & H0)]; [by left|].
    right. split; [done|].
    destruct (recorded_borrow e) as [[k d]|] eqn:Hr; cycle 1.
    { subst s1. do 2 (split; [done|]). exists []. by rewrite app_nil_r. }
    destruct H0 as [C D]. cbn zeta in C, D. split; [|split; [done|]; eauto].
    rewrite C, lookup_insert_ne; [done|]. by apply (He k d).
  - intros e He s0 r s1 Q. rewrite VisitCXXConstructExpr_cases.
    intros [= <- <-]. right. split; [done|].
    destruct (tracked_decl e) as [d|] eqn:Hd;
      (split; [|split; [done|]; exists []; by rewrite app_nil_r]); [|done].
    cbn. rewrite lookup_insert_ne; [done|].
    apply (He e d); [apply list_elem_of_here|done].
  - apply Forall_forall. intros e He k d. by apply Hc.
  - apply Forall_forall. intros c Hc' c' d ->%list_elem_of_singleton. by apply Hn.
Qed.

(** Variables are kept apart by the location of their declaration.  A
    traversal that records no borrow of the declaration with the key [x]
    and does not declare it leaves its borrow state as it is, whatever it
    does with others: also with others of the same name. *)
Theorem other_variables_untouched x n s b s' :
  (∀ e k d, e ∈ calls n → recorded_borrow e = Some (k, d) → getLocation d ≠ x) →
  not_declared x (constructs n) →
  TraverseStmt n s = (Ok b, s') →
  currentBorrowStates s' !! x = currentBorrowStates s !! x.
Proof.
  intros Hc Hn E.
  destruct (TraverseStmt_untouched x (currentBorrowStates s !! x) n Hc Hn
              s _ _ eq_refl E) as [?|(_ & Q & _)]; done.
Qed.

(** ** The checker beside the guarded types *)

Lemma borrow_returns a h w w' :
  borrow a h w = (Ok tt, w') →
  ∃ u, uniques w !! a = Some u
       ∧ Unique.mutable_borrowed u = false
       ∧ Unique.immutable_borrows u < INT_MAX
       ∧ uniques w' = <[a := Unique.set_immutable_borrows
                                (Unique.immutable_borrows u + 1) u]> (uniques w).
Proof.
  destruct (uniques w !! a) as [u|] eqn:Hu; cycle 1.
  { unfold borrow, bind at 1, get_data, bind at 1, load_unique. by rewrite Hu. }
  destruct (borroweds w !! h) as [b|] eqn:Hh.
  { unfold borrow, Borrowed_ctor. destruct w as [U B BM Hp Hi], u as [d n f].
    cbn in Hu, Hh. by cxx_run. }
  rewrite (borrow_eq _ _ _ _ Hu Hh).
  destruct (Unique.mutable_borrowed u) eqn:Hf; [done|].
  destruct (int_incr _) as [n'|] eqn:E; [|done].
  apply int_incr_Some in E as [-> Hlt]. intros [= <-]. by exists u.
Qed.

Lemma borrow_mut_returns a h w w' :
  borrow_mut a h w = (Ok tt, w') →
  ∃ u, uniques w !! a = Some u
       ∧ borrowed u = false
       ∧ uniques w' = <[a := Unique.set_mutable_borrowed true u]> (uniques w).
Proof.
  destruct (uniques w !! a) as [u|] eqn:Hu; cycle 1.
  { unfold borrow_mut, bind at 1, get_data, bind at 1, load_unique.
    by rewrite Hu. }
  destruct (borrowedMuts w !! h) as [b|] eqn:Hh.
  { unfold borrow_mut, BorrowedMut_ctor. destruct w as [U B BM Hp Hi], u as [d n f].
    cbn in Hu, Hh. by cxx_run. }
  rewrite (borrow_mut_eq _ _ _ _ Hu Hh).
  destruct (borrowed u) eqn:Hb; [done|]. intros [= <-]. by exists u.
Qed.

Lemma TraverseStmt_declare_handle method d loc s :
  TraverseStmt (declare_handle method d loc) s
  = VisitCallExpr (member_call method d loc) s.
Proof.
  unfold declare_handle. cbn [TraverseStmt].
  rewrite !TraverseChildren_cons, !TraverseChildren_nil. cbn [TraverseStmt].
  rewrite !TraverseChildren_cons, !TraverseChildren_nil. cbn [TraverseStmt].
  unfold bind.
  by destruct (VisitCallExpr (member_call method d loc) s) as [[[|]| | |] s1].
Qed.

(** The checker does not report a block that runs.  Take a block of
    statements that each bind a handle to a borrow of a variable, the
    handles living to the end of the block, and current borrow states in
    which no variable is marked beyond what its owner has.  If at run time
    every one of the borrows returns, the checker reports none of them, and
    it neither marks a variable beyond what its owner then has. *)
Theorem no_report_when_borrows_return place sites : ∀ s w,
  world_inv w → mirrors place (currentBorrowStates s) w →
  all_return (map (site_call place) sites) w →
  ∃ s', TraverseChildren TraverseStmt (map site_stmt sites) s = (Ok true, s')
        ∧ DE s' = DE s
        ∧ ∀ w', last (w :: run (map (site_call place) sites) w) = Some w' →
                mirrors place (currentBorrowStates s') w'.
Proof.
  induction sites as [|[shared d loc h] sites IH]; intros s w I Hm Hret.
  { exists s. split; [done|]. split; [done|]. by intros w' [= <-]. }
  cbn [map all_return] in Hret. destruct Hret as (w1 & E1 & Hret).
  pose proof (every_call_keeps_invariant _ _ _ _ I E1) as I1.
  rewrite map_cons, TraverseChildren_cons. unfold bind.
  unfold site_stmt at 1. cbn [site_shared site_decl site_loc].
  rewrite TraverseStmt_declare_handle, VisitCallExpr_eq.
  set (x := getLocation d).
  set (st := default BorrowState_ctor (currentBorrowStates s !! x)).
  assert (∃ s1, (if shared
                 then recordImmutableBorrow x (getNameAsString d) loc s
                 else recordMutableBorrow x (getNameAsString d) loc s)
                = (Ok tt, s1)
                ∧ DE s1 = DE s
                ∧ mirrors place (currentBorrowStates s1) w1)
    as (s1 & Es1 & D1 & Hm1).
  { unfold site_call in E1. cbn [site_shared site_decl site_handle exec] in E1.
    fold x in E1. destruct shared.
    - apply borrow_returns in E1 as (u & Hu & Hf & Hlt & HU).
      assert (immutablyBorrowed st <= Unique.immutable_borrows u
              ∧ mutablyBorrowed st = false) as [Hle Hfs].
      { unfold st. destruct (currentBorrowStates s !! x) as [st0|] eqn:Hx; cbn.
        - destruct (Hm x st0 Hx) as (u' & Hu' & Hle & Hfl).
          rewrite Hu in Hu'. injection Hu' as <-. split; [done|].
          destruct (mutablyBorrowed st0); [|done]. by rewrite Hfl in Hf.
        - split; [|done]. by destruct (I _ _ Hu) as [_ ?]. }
      eexists.
      rewrite recordImmutableBorrow_eq by (fold st; lia). fold st.
      split; [done|]. rewrite Hfs. cbn. split; [by rewrite app_nil_r|].
      intros y sty. rewrite lookup_insert, HU, lookup_insert.
      destruct (decide (x = y)) as [<-|Hxy].
      + intros [= <-]. rewrite decide_True by done.
        eexists. split; [done|]. cbn. split; [lia|done].
      + intros Hy. destruct (Hm y sty Hy) as (uy & Huy & Hley & Hfy).
        case_decide as Hp.
        * rewrite <- Hp, Hu in Huy. injection Huy as <-.
          eexists. split; [done|]. cbn. split; [lia|done].
        * by exists uy.
    - apply borrow_mut_returns in E1 as (u & Hu & [Hn Hf]%borrowed_false & HU).
      assert (immutablyBorrowed st <= Unique.immutable_borrows u) as Hle.
      { unfold st. destruct (currentBorrowStates s !! x) as [st0|] eqn:Hx; cbn.
        - destruct (Hm x st0 Hx) as (u' & Hu' & Hle & Hfl).
          rewrite Hu in Hu'. by injection Hu' as <-.
        - by destruct (I _ _ Hu) as [_ ?]. }
      eexists. rewrite recordMutableBorrow_eq. fold st.
      split; [done|].
      assert ((0 <? immutablyBorrowed st) = false) as -> by (apply Z.ltb_ge; lia).
      cbn. split; [by rewrite app_nil_r|].
      intros y sty. rewrite lookup_insert, HU, lookup_insert.
      destruct (decide (x = y)) as [<-|Hxy].
      + intros [= <-]. rewrite decide_True by done.
        eexists. split; [done|]. cbn. split; [lia|done].
      + intros Hy. destruct (Hm y sty Hy) as (uy & Huy & Hley & Hfy).
        case_decide as Hp.
        * rewrite <- Hp, Hu in Huy. injection Huy as <-.
          eexists. split; [done|]. cbn. split; [lia|done].
        * by exists uy. }
  destruct (IH s1 w1 I1 Hm1 Hret) as (s' & E' & D' & Hm').
  exists s'.
  assert (recorded_borrow
            (member_call (if shared then "borrow" else "borrow_mut") d loc)
          = Some (shared, d)) as -> by by destruct shared.
  split.
  { destruct shared; unfold bind, member_call; cbn [getExprLoc]; fold x;
      rewrite Es1; exact E'. }
  split; [congruence|].
  intros w'. cbn [map run]. rewrite E1. apply Hm'.
Qed.

(** ** The further theorems at concrete stores and trees *)

Lemma both_borrowed_in_run :
  both_borrowed ∈ run both_borrowed_calls empty_world.
Proof. apply last_Some_elem_of. vm_compute. reflexivity. Defined.

Lemma both_exclusive_in_run :
  both_exclusive ∈ run both_exclusive_calls empty_world.
Proof. apply last_Some_elem_of. vm_compute. reflexivity. Defined.

Lemma both_borrowed_shared_protocol :
  run_where shared_protocol both_borrowed_calls empty_world.
Proof. vm_compute. repeat split. Defined.

Lemma both_exclusive_exclusive_protocol :
  run_where exclusive_protocol both_exclusive_calls empty_world.
Proof. vm_compute. repeat split. Defined.

Lemma thrown_codes_witness :
  MutableBorrowOfImmutablyBorrowed ∈ may_throw (CAcquireMutableBorrow 1)
  ∧ MutableBorrowOfImmutablyBorrowed ≠ ImmutableBorrowOfMutablyBorrowed.
Proof.
  apply (thrown_codes (CAcquireMutableBorrow 1) both_borrowed
           MutableBorrowOfImmutablyBorrowed both_borrowed).
  vm_compute. reflexivity.
Defined.

Lemma shared_acquire_blocked_only_by_exclusive_witness :
  acquireImmutableBorrow 1 both_exclusive
  = (Throw MutableBorrowOfMutablyBorrowed, both_exclusive).
Proof.
  destruct (shared_acquire_blocked_only_by_exclusive both_exclusive 1%positive
              (Unique.mk (Some 5%positive) 0 true) eq_refl) as (_ & H & _).
  apply H. reflexivity.
Defined.

Lemma unmatched_release_refused_witness :
  releaseBorrowImmutable 1 two_owners
  = (Throw ReleaseNonExistentImmutableBorrow, two_owners).
Proof.
  destruct (unmatched_release_refused two_owners 1%positive
              (Unique.mk (Some 5%positive) 0 false) eq_refl) as (H & _).
  apply H. cbn. lia.
Defined.

Lemma move_construct_witness :
  ∃ w', Unique_move_ctor 3 1 two_owners = (Ok tt, w')
        ∧ Unique_bool 1 w' = (Ok false, w').
Proof.
  destruct (move_construct two_owners 3%positive 1%positive
              (Unique.mk (Some 5%positive) 0 false) eq_refl eq_refl)
    as [_ H]; [cbn; lia|].
  destruct H as (w' & E & _ & _ & Hb).
  - intros [H|H]; cbn in H; [lia|discriminate].
  - exists w'. split; assumption.
Defined.

Lemma shared_handle_lifetime_witness :
  ∃ w1 w2, borrow 1 11 two_owners = (Ok tt, w1)
           ∧ Unique_star 1 w1 = (Throw AccessWhileBorrowed, w1)
           ∧ Unique_arrow_const 1 w1 = (Ok (Some 5%positive), w1)
           ∧ Unique_move_assign 1 2 w1 = (Throw MoveIntoWithActiveBorrows, w1)
           ∧ Unique_dtor 1 w1
             = (Throw DestroyWithActiveBorrows, upd_uniques (delete 1%positive) w1)
           ∧ Borrowed_dtor 11 (upd_uniques (delete 1%positive) w1)
             = (Undefined, upd_uniques (delete 1%positive) w1)
           ∧ Borrowed_dtor 11 w1 = (Ok tt, w2)
           ∧ uniques w2 = uniques two_owners.
Proof.
  destruct (shared_handle_lifetime two_owners 1%positive
              (Unique.mk (Some 5%positive) 0 false) 11%positive
              eq_refl eq_refl eq_refl)
    as (w1 & w2 & E1 & _ & _ & _ & Hstar & _ & Harrow & _ & _ & _ & _ & Hinto
        & Hd & Hdangling & E2 & HU & _);
    [cbn; unfold INT_MAX; lia|].
  exists w1, w2. repeat split; try assumption.
  apply Hinto. discriminate.
Defined.

Lemma exclusive_handle_lifetime_witness :
  ∃ w1 w2, borrow_mut 1 21 two_owners = (Ok tt, w1)
           ∧ Unique_star 1 w1 = (Throw AccessWhileBorrowed, w1)
           ∧ Unique_arrow_const 1 w1 = (Throw AccessWhileMutablyBorrowed, w1)
           ∧ Unique_move_assign 1 2 w1 = (Throw MoveIntoWithActiveBorrows, w1)
           ∧ Unique_dtor 1 w1
             = (Throw DestroyWithActiveBorrows, upd_uniques (delete 1%positive) w1)
           ∧ BorrowedMut_dtor 21 (upd_uniques (delete 1%positive) w1)
             = (Undefined, upd_uniques (delete 1%positive) w1)
           ∧ BorrowedMut_dtor 21 w1 = (Ok tt, w2)
           ∧ uniques w2 = uniques two_owners.
Proof.
  destruct (exclusive_handle_lifetime two_owners 1%positive
              (Unique.mk (Some 5%positive) 0 false) 21%positive
              eq_refl eq_refl) as [_ H].
  destruct (H eq_refl)
    as (w1 & w2 & E1 & _ & _ & _ & _ & Hstar & _ & Harrow & _ & _ & _ & _ & Hinto
        & Hd & Hdangling & E2 & HU & _).
  exists w1, w2. repeat split; try assumption.
  apply Hinto. discriminate.
Defined.

Lemma exclusive_handle_move_construct_witness :
  ∃ w1, BorrowedMut_move_ctor 23 21 both_exclusive = (Ok tt, w1)
        ∧ uniques w1 = uniques both_exclusive
        ∧ borrowedMuts w1 !! 21%positive = Some (BorrowedMut.mk None None).
Proof.
  destruct (exclusive_handle_move_construct both_exclusive 23%positive 21%positive
              (BorrowedMut.mk (Some 1%positive) (Some 5%positive))
              eq_refl eq_refl eq_refl)
    as (w1 & w2 & w3 & E1 & HU & _ & _ & Ho & _).
  exists w1. repeat split; assumption.
Defined.

Lemma reassign_not_all_or_nothing_witness :
  ∃ w', Borrowed_copy_assign 11 12 stale_shared_handle
          = (Throw MutableBorrowOfMutablyBorrowed, w')
        ∧ uniques w' !! 1%positive = Some (Unique.mk (Some 5%positive) 0 false)
        ∧ Borrowed_dtor 11 w' = (Terminate, w').
Proof.
  destruct (reassign_not_all_or_nothing stale_shared_handle 11%positive 12%positive
              (Borrowed.mk (Some 1%positive) (Some 5%positive))
              (Borrowed.mk (Some 2%positive) (Some 6%positive))
              1%positive 2%positive
              (Unique.mk (Some 5%positive) 1 false)
              (Unique.mk (Some 6%positive) 0 true))
    as (w' & E & HU & _ & _ & Hd);
    [discriminate|reflexivity|reflexivity|reflexivity|reflexivity|discriminate
    |reflexivity|reflexivity|cbn; lia|reflexivity|].
  exists w'. split; [exact E|]. split.
  - rewrite HU. reflexivity.
  - apply Hd. cbn. lia.
Defined.

Lemma reassign_same_owner_witness :
  ∃ w', Borrowed_copy_assign 11 12 two_shared_handles = (Ok tt, w')
        ∧ uniques w' = uniques two_shared_handles.
Proof.
  destruct (reassign_same_owner two_shared_handles 11%positive 12%positive
              (Borrowed.mk (Some 1%positive) (Some 5%positive))
              (Borrowed.mk (Some 1%positive) (Some 5%positive))
              1%positive (Unique.mk (Some 5%positive) 2 false)) as [_ H].
  destruct H as (w' & E & HU & _);
    [discriminate|reflexivity|reflexivity|reflexivity|reflexivity|reflexivity
    |cbn; unfold INT_MAX; lia|reflexivity|].
  exists w'. split; assumption.
Defined.

Lemma refused_release_in_handle_terminates_witness :
  Borrowed_dtor 12 stale_shared_handle = (Terminate, stale_shared_handle).
Proof.
  destruct (refused_release_in_handle_terminates stale_shared_handle 2%positive
              (Unique.mk (Some 6%positive) 0 true) eq_refl) as [H _].
  apply (H 12%positive (Borrowed.mk (Some 2%positive) (Some 6%positive)));
    [reflexivity|reflexivity|cbn; lia].
Defined.

Lemma transfer_then_destroy_witness :
  ∃ w1 w2 w3,
    Unique_move_assign 1 2 two_owners = (Ok tt, w1)
    ∧ Unique_dtor 2 w1 = (Ok tt, w2)
    ∧ Unique_dtor 1 w2 = (Ok tt, w3)
    ∧ uniques w3 = delete 1%positive (delete 2%positive (uniques two_owners)).
Proof.
  destruct (transfer_then_destroy two_owners 1%positive 2%positive
              (Unique.mk (Some 5%positive) 0 false)
              (Unique.mk (Some 6%positive) 0 false))
    as (w1 & w2 & w3 & E1 & _ & E2 & _ & E3 & _ & HU);
    [discriminate|reflexivity|reflexivity|reflexivity|reflexivity
    |cbn; set_solver|cbn; set_solver|discriminate|].
  exists w1, w2, w3. repeat split; assumption.
Defined.

Lemma shared_handles_in_runs_witness :
  run_where shared_protocol both_borrowed_calls empty_world
  ∧ ∃ u, uniques both_borrowed !! 1%positive = Some u
         ∧ (∃ w', Borrowed_dtor 11 both_borrowed = (Ok tt, w'))
         ∧ Unique_dtor 1 both_borrowed
           = (Throw DestroyWithActiveBorrows,
              upd_uniques (delete 1%positive) both_borrowed)
         ∧ Borrowed_dtor 11 (upd_uniques (delete 1%positive) both_borrowed)
           = (Undefined, upd_uniques (delete 1%positive) both_borrowed).
Proof.
  split; [exact both_borrowed_shared_protocol|].
  destruct (shared_handles_in_runs both_borrowed_calls both_borrowed 11%positive
              (Borrowed.mk (Some 1%positive) (Some 5%positive)) 1%positive
              both_borrowed_shared_protocol both_borrowed_in_run eq_refl eq_refl)
    as (u & Hu & _ & _ & _ & (w' & E & _) & Hd & Hdangling).
  exists u. split; [exact Hu|]. split; [exists w'; exact E|].
  split; [exact Hd|exact Hdangling].
Defined.

Lemma exclusive_handle_in_runs_witness :
  run_where exclusive_protocol both_exclusive_calls empty_world
  ∧ ∃ u, uniques both_exclusive !! 1%positive = Some u
         ∧ (∃ w', BorrowedMut_dtor 21 both_exclusive = (Ok tt, w'))
         ∧ Unique_dtor 1 both_exclusive
           = (Throw DestroyWithActiveBorrows,
              upd_uniques (delete 1%positive) both_exclusive)
         ∧ BorrowedMut_dtor 21 (upd_uniques (delete 1%positive) both_exclusive)
           = (Undefined, upd_uniques (delete 1%positive) both_exclusive).
Proof.
  split; [exact both_exclusive_exclusive_protocol|].
  destruct (exclusive_handle_in_runs both_exclusive_calls both_exclusive 21%positive
              (BorrowedMut.mk (Some 1%positive) (Some 5%positive)) 1%positive
              both_exclusive_exclusive_protocol both_exclusive_in_run
              eq_refl eq_refl)
    as (u & Hu & _ & _ & _ & _ & _ & (w' & E & _) & Hd & Hdangling).
  exists u. split; [exact Hu|]. split; [exists w'; exact E|].
  split; [exact Hd|exact Hdangling].
Defined.

Lemma test_foo_traversed :
  TraverseStmt test_foo (BorrowContext_ctor [])
  = (Ok true,
     mkBorrowContext ∅ []
       [conflict_report false "data" 11%positive]).
Proof. vm_compute. reflexivity. Defined.

Lemma TraverseStmt_scopes_witness :
  currentBorrowStates
    (mkBorrowContext ∅ [] [conflict_report false "data" 11%positive])
  = currentBorrowStates (BorrowContext_ctor []).
Proof.
  destruct (TraverseStmt_scopes test_foo (BorrowContext_ctor []) true
              (mkBorrowContext ∅ [] [conflict_report false "data" 11%positive])
              test_foo_traversed) as (_ & _ & H).
  apply (H _ eq_refl).
Defined.

Lemma reports_are_conflicts_witness :
  ∃ ds, [conflict_report false "data" 11%positive] = [] ++ ds
        ∧ Forall is_conflict_report ds.
Proof.
  destruct (reports_are_conflicts test_foo (BorrowContext_ctor []) true
              (mkBorrowContext ∅ [] [conflict_report false "data" 11%positive])
              test_foo_traversed) as (ds & D & F & _).
  exists ds. split; assumption.
Defined.

Lemma two_exclusive_borrows_traversed :
  TraverseStmt two_exclusive_borrows (BorrowContext_ctor [])
  = (Ok true, snd (TraverseStmt two_exclusive_borrows (BorrowContext_ctor []))).
Proof. vm_compute. reflexivity. Defined.

Lemma one_kind_unreported_witness :
  DE (snd (TraverseStmt two_exclusive_borrows (BorrowContext_ctor []))) = [].
Proof.
  apply (one_kind_unreported false two_exclusive_borrows
           (BorrowContext_ctor []) true _).
  - intros e k d He Hr. apply list_elem_of_In in He. cbn in He.
    destruct He as [<-|[<-|[]]]; cbn in Hr; injection Hr as <- _; reflexivity.
  - intros k st Hk. cbn in Hk. rewrite lookup_empty in Hk. discriminate.
  - exact two_exclusive_borrows_traversed.
Defined.

Lemma foo_statements_traversed :
  TraverseChildren TraverseStmt
    [declare_handle "borrow" decl_data 10; declare_handle "borrow_mut" decl_data 11]
    (BorrowContext_ctor [])
  = (Ok true,
     snd (TraverseChildren TraverseStmt
            [declare_handle "borrow" decl_data 10;
             declare_handle "borrow_mut" decl_data 11]
            (BorrowContext_ctor []))).
Proof. vm_compute. reflexivity. Defined.

Lemma earlier_borrow_is_reported_witness :
  conflict_report false "data" 11%positive
  ∈ DE (snd (TraverseChildren TraverseStmt
               [declare_handle "borrow" decl_data 10;
                declare_handle "borrow_mut" decl_data 11]
               (BorrowContext_ctor []))).
Proof.
  destruct (earlier_borrow_is_reported true (getLocation decl_data)
              (declare_handle "borrow" decl_data 10)
              [declare_handle "borrow_mut" decl_data 11]
              (member_call "borrow" decl_data 10) decl_data
              (BorrowContext_ctor []) true
              (snd (TraverseChildren TraverseStmt
                      [declare_handle "borrow" decl_data 10;
                       declare_handle "borrow_mut" decl_data 11]
                      (BorrowContext_ctor []))))
    as (ds & D & HR);
    [apply list_elem_of_here | reflexivity | reflexivity | | |
     exact foo_statements_traversed |].
  - intros c d Hc. apply list_elem_of_In in Hc. destruct Hc.
  - intros k st Hk. cbn in Hk. rewrite lookup_empty in Hk. discriminate.
  - rewrite D. apply elem_of_app. right.
    apply (HR (member_call "borrow_mut" decl_data 11) decl_data);
      [apply list_elem_of_here | reflexivity | reflexivity].
Defined.

Lemma HandleTranslationUnit_completes_witness :
  ∃ s', HandleTranslationUnit (Node [Node [test_foo]]) (BorrowCheckConsumer_ctor [])
        = (Ok tt, s')
        ∧ scopeStack s' = [].
Proof.
  destruct (HandleTranslationUnit_completes (Node [Node [test_foo]])
              (BorrowCheckConsumer_ctor []))
    as (s' & E & S & _); [cbn; unfold INT_MAX; lia|].
  exists s'. split; assumption.
Defined.

Lemma one_resource_two_owners_witness :
  ∃ w1 w2 w3,
    Unique_ctor 3 (Some 5%positive) two_owners = (Ok tt, w1)
    ∧ Unique_ctor 4 (Some 5%positive) w1 = (Ok tt, w2)
    ∧ Unique_dtor 3 w2 = (Ok tt, w3)
    ∧ Unique_dtor 4 w3 = (Undefined, w3).
Proof.
  destruct (one_resource_two_owners two_owners 3%positive 4%positive 5%positive)
    as (w1 & w2 & w3 & E1 & E2 & E3 & _ & _ & _ & _ & E4);
    [discriminate|reflexivity|reflexivity|cbn; set_solver|].
  exists w1, w2, w3. repeat split; assumption.
Defined.

Lemma handle_declared_traversed :
  TraverseStmt (declare_handle "borrow" decl_data 10) (BorrowContext_ctor [])
  = (Ok true,
     snd (TraverseStmt (declare_handle "borrow" decl_data 10)
            (BorrowContext_ctor []))).
Proof. vm_compute. reflexivity. Defined.

Lemma other_variables_untouched_witness :
  currentBorrowStates
    (snd (TraverseStmt (declare_handle "borrow" decl_data 10)
            (BorrowContext_ctor [])))
  !! "test.cpp:4:13"
  = currentBorrowStates (BorrowContext_ctor []) !! "test.cpp:4:13".
Proof.
  apply (other_variables_untouched "test.cpp:4:13"
           (declare_handle "borrow" decl_data 10) (BorrowContext_ctor []) true).
  - intros e k d He Hr. apply list_elem_of_In in He. cbn in He.
    destruct He as [<-|[]]. cbn in Hr. injection Hr as _ <-. discriminate.
  - intros c d Hc. apply list_elem_of_In in Hc. destruct Hc.
  - exact handle_declared_traversed.
Defined.

Lemma world_inv_two_owners : world_inv two_owners.
Proof.
  intros a u Hu. cbn in Hu.
  rewrite lookup_insert in Hu. destruct (decide (1%positive = a)).
  { injection Hu as <-. split; [intros [H _]; discriminate H|cbn; lia]. }
  rewrite lookup_insert in Hu. destruct (decide (2%positive = a)).
  { injection Hu as <-. split; [intros [H _]; discriminate H|cbn; lia]. }
  rewrite lookup_empty in Hu. discriminate Hu.
Defined.

Lemma no_report_when_borrows_return_witness :
  ∃ s', TraverseChildren TraverseStmt
          (map site_stmt
             [mkBorrowSite true decl_data 10 11; mkBorrowSite true decl_data 11 12])
          (BorrowContext_ctor [])
        = (Ok true, s')
        ∧ DE s' = [].
Proof.
  destruct (no_report_when_borrows_return (λ _, 1%positive)
              [mkBorrowSite true decl_data 10 11; mkBorrowSite true decl_data 11 12]
              (BorrowContext_ctor []) two_owners world_inv_two_owners)
    as (s' & E & D & _).
  - intros x st Hx. cbn in Hx. rewrite lookup_empty in Hx. discriminate Hx.
  - cbn [map all_return]. eexists. split; [vm_compute; reflexivity|].
    eexists. split; [vm_compute; reflexivity|]. exact I.
  - exists s'. split; assumption.
Defined.

Lemma copy_then_destroy_is_borrow_witness :
  ∃ w1 w2 w3 wd,
    borrow 1 100 two_owners = (Ok tt, w1)
    ∧ Borrowed_copy_ctor 31 100 w1 = (Ok tt, w2)
    ∧ Borrowed_dtor 100 w2 = (Ok tt, w3)
    ∧ borrow 1 31 two_owners = (Ok tt, wd)
    ∧ uniques w3 = uniques wd ∧ borroweds w3 = borroweds wd.
Proof.
  destruct (copy_then_destroy_is_borrow two_owners 1%positive
              (Unique.mk (Some 5%positive) 0 false) 100%positive 31%positive)
    as (w1 & w2 & w3 & wd & E1 & E2 & _ & E3 & Ed & HU & HB & _);
    [discriminate|reflexivity|reflexivity|reflexivity|reflexivity
    |cbn; lia|cbn; unfold INT_MAX; lia|].
  exists w1, w2, w3, wd. repeat split; assumption.
Defined.

Ltac client_step :=
  try unfold client_run; cbn [run_where];
  split;
    [|match goal with
      | |- context [exec ?c ?w] =>
          let r := eval vm_compute in (exec c w) in
          change (exec c w) with r; cbv iota beta
      end].

Lemma both_borrowed_client_run : client_run both_borrowed_calls empty_world.
Proof.
  unfold both_borrowed_calls.
  client_step; [exact I|]. client_step; [exact I|].
  client_step.
  { split; [vm_compute; reflexivity|].
    apply (map_Forall_lookup (λ _ u, Unique.data u ≠ Some 5%positive)).
    apply (bool_decide_unpack _). vm_compute. exact I. }
  client_step.
  { split; [vm_compute; reflexivity|].
    apply (map_Forall_lookup (λ _ u, Unique.data u ≠ Some 6%positive)).
    apply (bool_decide_unpack _). vm_compute. exact I. }
  client_step; [exact I|]. client_step; [exact I|]. exact I.
Defined.

Lemma handles_never_dangle_witness :
  client_run both_borrowed_calls empty_world
  ∧ Borrowed_star 11 both_borrowed = (Ok 5%positive, both_borrowed)
  ∧ Unique_dtor 1 both_borrowed
    = (Throw DestroyWithActiveBorrows,
       upd_uniques (delete 1%positive) both_borrowed).
Proof.
  split; [exact both_borrowed_client_run|].
  destruct (handles_never_dangle both_borrowed_calls both_borrowed
              both_borrowed_client_run both_borrowed_in_run) as [H _].
  destruct (H 11%positive (Borrowed.mk (Some 1%positive) (Some 5%positive))
              eq_refl) as (a & u & Ho & _ & Hd & Hq & Hdtor).
  injection Ho as <-.
  destruct (Hq 5%positive (eq_sym Hd)) as (_ & E & _).
  split; [exact E|exact Hdtor].
Defined.
